(** * One Drug Database analysis: a shallow embedding of the notebook

    The analysis lives in one notebook,
    [notebooks/diffable_python/one-drug-database-analysis.py].  Three pieces
    of it carry logic:

    - the loader/filter of the BNF mapping spreadsheet (lines 113-127),
    - the fan-out counts of the mapping in both directions (lines 143-149
      and 195-201),
    - the concentration figures of a magnitude series: percentage of the
      grand total, share captured by the top tail, top ten rows (lines
      258-290, repeated at 326-358).

    The notebook is written against pandas.  A [DataFrame] is modelled as a
    list of column labels with a list of rows, the [items] column as a list
    of (index label, int64) pairs, and Python exceptions as the [Raise] case
    of an [outcome].  The numbers are those of the machine: int64 sums wrap
    around modulo 2 ^ 64, and a double is the rational it stands for, every
    operation on doubles being followed by the rounding to the nearest
    double. *)

From Stdlib Require Import String Ascii List Bool Arith ZArith QArith Qround Qpower.
From Stdlib Require Import Lqa Lia Sorting Permutation SetoidList SetoidPermutation.
From Stdlib Require Floats.
Import ListNotations.

Open Scope string_scope.

(* ================================================================= *)
(** * Part I: the embedding                                            *)
(* ================================================================= *)

(** ** Python outcomes *)

(** The exceptions the modelled cells can raise: a label lookup that
    misses, pandas' check that a quantile lies in [[0, 1]], and Python's
    division of an integer by the integer zero. *)
Inductive exn : Type :=
| KeyError (label : string)
| ValueError
| ZeroDivisionError.

Inductive outcome (A : Type) : Type :=
| Ok (a : A)
| Raise (e : exn).

Arguments Ok {A} a.
Arguments Raise {A} e.

Definition bind {A B : Type} (m : outcome A) (k : A -> outcome B) : outcome B :=
  match m with
  | Ok a => k a
  | Raise e => Raise e
  end.

Notation "x <- m ;; k" := (bind m (fun x => k))
  (at level 61, m at next level, right associativity).

Fixpoint mapM {A B : Type} (f : A -> outcome B) (xs : list A) : outcome (list B) :=
  match xs with
  | [] => Ok []
  | x :: xs' => y <- f x ;; ys <- mapM f xs' ;; Ok (y :: ys)
  end.

(** ** Sorting *)

(** pandas sorts several keys with a stable sort, and numpy's default sort
    is an insertion sort on short arrays: both are modelled by the stable
    insertion sort. *)
Section InsertionSort.
Context {A : Type} (leb : A -> A -> bool).

Fixpoint insert (x : A) (l : list A) : list A :=
  match l with
  | [] => [x]
  | y :: l' => if leb x y then x :: l else y :: insert x l'
  end.

Fixpoint isort (l : list A) : list A :=
  match l with
  | [] => []
  | x :: l' => insert x (isort l')
  end.
End InsertionSort.

(** The order induced by a boolean comparison. *)
Definition holds {A : Type} (leb : A -> A -> bool) (a b : A) : Prop :=
  leb a b = true.

(** ** Data frames *)

Record DataFrame : Type := {
  columns : list string;
  rows : list (list string)
}.

(** Position of a label among the column labels. *)
Fixpoint get_loc (label : string) (cols : list string) : option nat :=
  match cols with
  | [] => None
  | c :: cols' =>
      if String.eqb label c then Some 0%nat
      else option_map S (get_loc label cols')
  end.

Definition locate (cols : list string) (label : string) : outcome nat :=
  match get_loc label cols with
  | Some i => Ok i
  | None => Raise (KeyError label)
  end.

Definition iloc (i : nat) (row : list string) : string := nth i row "".

(** [df[label]]: the column as a list of cells, [KeyError] when the frame
    has no such label.  Labels are taken to be unique, as [read_excel]
    makes them; the properties of the loader assume it of the renamed
    frame. *)
Definition getitem (df : DataFrame) (label : string) : outcome (list string) :=
  i <- locate (columns df) label ;;
  Ok (map (iloc i) (rows df)).

Fixpoint dict_get (k : string) (d : list (string * string)) : option string :=
  match d with
  | [] => None
  | (k', v) :: d' => if String.eqb k k' then Some v else dict_get k d'
  end.

(** [df.rename(columns=mapper)] with pandas' default [errors='ignore']:
    a label that is a key of [mapper] is replaced, any other label stays,
    and a key of [mapper] that labels no column is skipped silently. *)
Definition rename (df : DataFrame) (mapper : list (string * string)) : DataFrame :=
  {| columns := map (fun c => match dict_get c mapper with
                              | Some c' => c'
                              | None => c
                              end) (columns df);
     rows := rows df |}.

(** Boolean indexing: the entries whose mask bit is set. *)
Fixpoint select {A : Type} (xs : list A) (mask : list bool) : list A :=
  match xs, mask with
  | x :: xs', b :: mask' => if b then x :: select xs' mask' else select xs' mask'
  | _, _ => []
  end.

Definition getitem_mask (df : DataFrame) (mask : list bool) : DataFrame :=
  {| columns := columns df; rows := select (rows df) mask |}.

(** Lexicographic comparison of key tuples; strings compare as Python
    compares them, code point by code point. *)
Fixpoint lex_compare (k1 k2 : list string) : comparison :=
  match k1, k2 with
  | [], [] => Eq
  | [], _ :: _ => Lt
  | _ :: _, [] => Gt
  | a :: k1', b :: k2' =>
      match String.compare a b with
      | Eq => lex_compare k1' k2'
      | c => c
      end
  end.

Definition lex_leb (k1 k2 : list string) : bool :=
  match lex_compare k1 k2 with
  | Gt => false
  | _ => true
  end.

Definition sort_key (locs : list nat) (row : list string) : list string :=
  map (fun i => iloc i row) locs.

(** [df.sort_values(by)]: ascending, stable, [KeyError] on an unknown
    label. *)
Definition sort_values (df : DataFrame) (by_ : list string) : outcome DataFrame :=
  locs <- mapM (locate (columns df)) by_ ;;
  Ok {| columns := columns df;
        rows := isort (fun r1 r2 => lex_leb (sort_key locs r1) (sort_key locs r2))
                      (rows df) |}.

(** The comparison of two rows on the cells at positions [i] and [j]. *)
Definition code_key_leb (i j : nat) (r1 r2 : list string) : bool :=
  lex_leb (sort_key [i; j] r1) (sort_key [i; j] r2).

(** ** The loader/filter (lines 113-127) *)

Definition column_names : list (string * string) :=
  [ ("Current BNF Code", "old_code");
    ("MDR: BNF Description", "old_name");
    ("dm+d: BNF Description", "new_name");
    ("New BNF Code", "new_code");
    ("BNF Code Changed (Y/N)", "changed") ].

Definition excluded_prefix : string := "19".

(** The raw frame under its canonical column names (lines 113-119). *)
Definition canonical (bnf_mapping_raw : DataFrame) : DataFrame :=
  rename bnf_mapping_raw column_names.

Definition load_mapping (bnf_mapping_raw : DataFrame) : outcome DataFrame :=
  let bnf_mapping := canonical bnf_mapping_raw in
  changed <- getitem bnf_mapping "changed" ;;
  let bnf_mapping := getitem_mask bnf_mapping (map (String.eqb "Y") changed) in
  old_code <- getitem bnf_mapping "old_code" ;;
  let bnf_mapping :=
    getitem_mask bnf_mapping (map (fun c => negb (prefix excluded_prefix c)) old_code) in
  new_code <- getitem bnf_mapping "new_code" ;;
  let bnf_mapping :=
    getitem_mask bnf_mapping (map (fun c => negb (prefix excluded_prefix c)) new_code) in
  sort_values bnf_mapping ["old_code"; "new_code"].

(** The cell of a row under a label, for stating what the loader keeps. *)
Definition cell (df : DataFrame) (label : string) (row : list string) : string :=
  match get_loc label (columns df) with
  | Some i => iloc i row
  | None => ""
  end.

Definition kept (df : DataFrame) (row : list string) : bool :=
  String.eqb "Y" (cell df "changed" row)
  && negb (prefix excluded_prefix (cell df "old_code" row))
  && negb (prefix excluded_prefix (cell df "new_code" row)).

(** Ascending order of the pair (old_code, new_code). *)
Definition pair_le (k1 k2 : string * string) : Prop :=
  String.compare (fst k1) (fst k2) = Lt
  \/ (fst k1 = fst k2 /\ String.compare (snd k1) (snd k2) <> Gt).

Definition code_pair (df : DataFrame) (row : list string) : string * string :=
  (cell df "old_code" row, cell df "new_code" row).

(** Sample sheets: one with every expected column, one without the
    column of the old descriptions. *)
Definition sample_sheet : DataFrame :=
  {| columns := ["Current BNF Code"; "MDR: BNF Description";
                 "dm+d: BNF Description"; "New BNF Code";
                 "BNF Code Changed (Y/N)"];
     rows := [ ["0204000H0AAAAAA"; "b"; "b2"; "0301011R0AAAAAA"; "Y"];
               ["0102000L0AAAJAJ"; "a"; "a2"; "0102000L0AAADAD"; "Y"];
               ["0102000L0AAAJAJ"; "a"; "a1"; "0102000L0AAACAC"; "Y"];
               ["190201000AAAAAA"; "c"; "c2"; "0101010G0AAABAB"; "Y"];
               ["0105010B0AAAAAA"; "d"; "d2"; "190201000AAABAB"; "Y"];
               ["0001000A0AAAAAA"; "e"; "e2"; "0001000A0AAAAAA"; "N"] ] |}.

Definition sheet_without_old_name : DataFrame :=
  {| columns := ["Current BNF Code"; "dm+d: BNF Description"; "New BNF Code";
                 "BNF Code Changed (Y/N)"];
     rows := [ ["0204000H0AAAAAA"; "b2"; "0301011R0AAAAAA"; "Y"] ] |}.

(** ** Fan-out of the mapping (lines 143-149 and 195-201) *)

(** [collections.Counter]: a dictionary in insertion order. *)
Section Counter.
Context {K : Type} (eqb : K -> K -> bool).

Fixpoint incr (k : K) (c : list (K * nat)) : list (K * nat) :=
  match c with
  | [] => [(k, 1%nat)]
  | (k', n) :: c' =>
      if eqb k k' then (k', S n) :: c' else (k', n) :: incr k c'
  end.

Definition Counter (xs : list K) : list (K * nat) :=
  fold_left (fun c x => incr x c) xs [].

(** [c[k]], zero for a key the counter does not hold. *)
Fixpoint counter_get (k : K) (c : list (K * nat)) : nat :=
  match c with
  | [] => 0%nat
  | (k', n) :: c' => if eqb k k' then n else counter_get k c'
  end.
End Counter.

Definition pair_leb (a b : nat * nat) : bool :=
  (fst a <? fst b)%nat || ((fst a =? fst b)%nat && (snd a <=? snd b)%nat).

(** [sorted(d.items())] for a dictionary from counts to counts. *)
Definition sorted_items (d : list (nat * nat)) : list (nat * nat) :=
  isort pair_leb d.

Inductive direction : Type := old_to_new | new_to_old.

Definition source_field (d : direction) : string :=
  match d with
  | old_to_new => "old_code"
  | new_to_old => "new_code"
  end.

Record FanoutDistribution : Type := {
  code_counts : list (string * nat);
  code_count_distribution : list (nat * nat)
}.

(** [old_code_counts], [old_code_count_distribution] for [old_to_new];
    [new_code_counts], [new_code_count_distribution] for [new_to_old]. *)
Definition fanout (d : direction) (bnf_mapping : DataFrame) : outcome FanoutDistribution :=
  source <- getitem bnf_mapping (source_field d) ;;
  let counts := Counter String.eqb source in
  Ok {| code_counts := counts;
        code_count_distribution := sorted_items (Counter Nat.eqb (map snd counts)) |}.

(** The frame of a list of (old_code, new_code) records. *)
Definition mapping_frame (M : list (string * string)) : DataFrame :=
  {| columns := ["old_code"; "new_code"];
     rows := map (fun r => [fst r; snd r]) M |}.

Definition source_of (d : direction) (r : string * string) : string :=
  match d with
  | old_to_new => fst r
  | new_to_old => snd r
  end.

Definition target_of (d : direction) (r : string * string) : string :=
  match d with
  | old_to_new => snd r
  | new_to_old => fst r
  end.

Definition record_eq_dec (a b : string * string) : {a = b} + {a <> b}.
Proof. decide equality; apply string_dec. Defined.

(** What the notebook's prose reads off the counts: the number of distinct
    target codes that a source code maps to. *)
Definition distinct_targets (d : direction) (M : list (string * string))
    (code : string) : nat :=
  length (nodup string_dec
            (map (target_of d)
                 (filter (fun r => String.eqb (source_of d r) code) M))).

Definition distinct_sources (d : direction) (M : list (string * string)) : nat :=
  length (nodup string_dec (map (source_of d) M)).

Definition distinct_pairs (M : list (string * string)) : nat :=
  length (nodup record_eq_dec M).

Definition sum_nat (l : list nat) : nat := fold_right Nat.add 0%nat l.

Definition weighted_sum (h : list (nat * nat)) : nat :=
  sum_nat (map (fun e => (fst e * snd e)%nat) h).

(** Mapping lists with an exact-duplicate record. *)
Definition duplicated_mapping : list (string * string) :=
  [("A", "X"); ("A", "X")].

Definition duplicated_mapping' : list (string * string) :=
  [("A", "X"); ("A", "Y"); ("B", "X"); ("A", "Y")].

(** The mapping list of the end-to-end scenario. *)
Definition scenario_mapping : list (string * string) :=
  [("A", "X"); ("A", "Y"); ("B", "X")].

(** ** Concentration of a magnitude series (lines 258-290, 326-358) *)

(** The [items] column that the warehouse query returns is a column of
    64-bit integers and the notebook works on it with pandas and numpy:
    sums are int64 sums, which wrap around, and the quantile, the
    comparison with the cutoff and the two divisions are computed in
    binary64.  Both are modelled as they are: an int64 as an integer of
    [Z] with the wrap-around written out, a double as the rational it
    stands for, every operation being the exact operation followed by
    the rounding to nearest, ties to even.  The [net_cost] column is a
    column of doubles that goes through the same expressions; its sums
    add up in the order numpy chooses for floating-point reductions and
    are not modelled. *)

(** *** int64 *)

(** The value of an integer in two's complement on 64 bits. *)
Definition wrap64 (z : Z) : Z := ((z + 2 ^ 63) mod 2 ^ 64 - 2 ^ 63)%Z.

Definition add64 (a b : Z) : Z := wrap64 (a + b).

Definition sub64 (a b : Z) : Z := wrap64 (a - b).

(** [np.add.reduce] on int64. *)
Definition sum64 (xs : list Z) : Z := fold_left add64 xs 0%Z.

(** *** Rounding to binary64 *)

Section Rounding.
Local Open Scope Q_scope.

(** The integer nearest to [x], the even one when [x] lies half way. *)
Definition rne (x : Q) : Z :=
  let f := Qfloor x in
  match Qcompare (x - inject_Z f) (1 # 2) with
  | Lt => f
  | Gt => (f + 1)%Z
  | Eq => if Z.even f then f else (f + 1)%Z
  end.

(** The exponent [e] with [2 ^ e <= a < 2 ^ (e + 1)], for positive [a]. *)
Definition ilog2 (a : Q) : Z :=
  let k := (Z.log2 (Qnum a) - Z.log2 (Zpos (Qden a)))%Z in
  if Qle_bool (2 ^ k) a then k else (k - 1)%Z.

(** The spacing of the doubles around [a]: 52 fraction bits below the
    leading one, and the spacing of the subnormal numbers below
    [2 ^ (-1022)]. *)
Definition ulp (a : Q) : Q := 2 ^ (Z.max (ilog2 a) (-1022) - 52).

Definition rnd_pos (a : Q) : Q := inject_Z (rne (a / ulp a)) * ulp a.

(** Rounding to nearest, ties to even, with an unbounded exponent. *)
Definition rnd (q : Q) : Q :=
  match Qcompare q 0 with
  | Eq => 0
  | Gt => rnd_pos q
  | Lt => - rnd_pos (- q)
  end.

(** The rationals that are doubles, the bound on the exponent aside. *)
Definition binary64 (q : Q) : Prop := rnd q == q.
End Rounding.

(** *** binary64 values *)

(** A double: a finite number ([Fin 0] is the positive zero), the negative
    zero, an infinity or [nan]. *)
Inductive float64 : Type :=
| Fin (q : Q)
| NZero
| PInf
| NInf
| NaN.

(** The result of an operation whose exact value is [q]: the nearest
    double, an infinity from [2 ^ 1024] on, the negative zero when a
    negative value rounds to zero. *)
Definition round64 (q : Q) : float64 :=
  let r := rnd q in
  if Qle_bool (2 ^ 1024) r then PInf
  else if Qle_bool r (- (2 ^ 1024)) then NInf
  else if Qeq_bool r 0 && negb (Qle_bool 0 q) then NZero
  else Fin (Qred r).

(** The double nearest to a rational that is not negative and lies within
    the range of the format. *)
Definition near (q : Q) : float64 := Fin (Qred (rnd q)).

Definition finite_value (x : float64) : option Q :=
  match x with
  | Fin q => Some q
  | NZero => Some 0%Q
  | _ => None
  end.

(** The sign bit. *)
Definition is_negative (x : float64) : bool :=
  match x with
  | Fin q => negb (Qle_bool 0 q)
  | NZero | NInf => true
  | PInf | NaN => false
  end.

Definition zero (negative : bool) : float64 := if negative then NZero else Fin 0.

Definition infinity (negative : bool) : float64 := if negative then NInf else PInf.

Definition fadd (x y : float64) : float64 :=
  match x, y with
  | NaN, _ | _, NaN => NaN
  | PInf, NInf | NInf, PInf => NaN
  | PInf, _ | _, PInf => PInf
  | NInf, _ | _, NInf => NInf
  | NZero, NZero => NZero
  | NZero, Fin b => round64 b
  | Fin a, NZero => round64 a
  | Fin a, Fin b => round64 (a + b)
  end.

Definition fneg (x : float64) : float64 :=
  match x with
  | Fin q => if Qeq_bool q 0 then NZero else Fin (- q)
  | NZero => Fin 0
  | PInf => NInf
  | NInf => PInf
  | NaN => NaN
  end.

Definition fsub (x y : float64) : float64 := fadd x (fneg y).

Definition fmul (x y : float64) : float64 :=
  match x, y with
  | NaN, _ | _, NaN => NaN
  | _, _ =>
      let negative := xorb (is_negative x) (is_negative y) in
      match finite_value x, finite_value y with
      | Some a, Some b =>
          if Qeq_bool (a * b) 0 then zero negative else round64 (a * b)
      | Some a, None => if Qeq_bool a 0 then NaN else infinity negative
      | None, Some b => if Qeq_bool b 0 then NaN else infinity negative
      | None, None => infinity negative
      end
  end.

(** Division does not raise on doubles: [0 / 0] is [nan] and any other
    division by zero an infinity. *)
Definition fdiv (x y : float64) : float64 :=
  match x, y with
  | NaN, _ | _, NaN => NaN
  | _, _ =>
      let negative := xorb (is_negative x) (is_negative y) in
      match finite_value x, finite_value y with
      | Some a, Some b =>
          if Qeq_bool b 0 then (if Qeq_bool a 0 then NaN else infinity negative)
          else if Qeq_bool a 0 then zero negative
          else round64 (a / b)
      | Some _, None => zero negative
      | None, Some _ => infinity negative
      | None, None => NaN
      end
  end.

(** [np.floor]. *)
Definition ffloor (x : float64) : float64 :=
  match x with
  | Fin q => round64 (inject_Z (Qfloor q))
  | _ => x
  end.

(** [x <= y], false as soon as one side is [nan]. *)
Definition fleb (x y : float64) : bool :=
  match x, y with
  | NaN, _ | _, NaN => false
  | NInf, _ | _, PInf => true
  | PInf, _ | _, NInf => false
  | _, _ =>
      match finite_value x, finite_value y with
      | Some a, Some b => Qle_bool a b
      | _, _ => false
      end
  end.

Definition fltb (x y : float64) : bool := fleb x y && negb (fleb y x).

Definition fgeb (x y : float64) : bool := fleb y x.

Definition fgtb (x y : float64) : bool := fltb y x.

(** The conversion of an integer, an int64 or a Python int, to a double. *)
Definition of_int (z : Z) : float64 := round64 (inject_Z z).

(** A decimal literal of the source, such as [0.01]: the nearest double. *)
Definition float_literal (q : Q) : float64 := round64 q.

(** [astype(np.intp)]: the integer part, and the smallest int64 for what is
    not a number. *)
Definition to_intp (x : float64) : Z :=
  match x with
  | Fin q => wrap64 (if Qle_bool 0 q then Qfloor q else Qceiling q)
  | NZero => 0
  | _ => (- 2 ^ 63)%Z
  end.

(** The doubles of the machine, to compare the operations above with. *)
Definition of_hardware (f : PrimFloat.float) : float64 :=
  match FloatOps.Prim2SF f with
  | SpecFloat.S754_zero false => Fin 0
  | SpecFloat.S754_zero true => NZero
  | SpecFloat.S754_infinity false => PInf
  | SpecFloat.S754_infinity true => NInf
  | SpecFloat.S754_nan => NaN
  | SpecFloat.S754_finite negative m e =>
      Fin (Qred ((if negative then - inject_Z (Zpos m) else inject_Z (Zpos m))
                 * 2 ^ e))
  end.

Definition hardware_int (z : Z) : PrimFloat.float :=
  if (z <? 0)%Z then PrimFloat.opp (PrimFloat.of_uint63 (Uint63.of_Z (- z)))
  else PrimFloat.of_uint63 (Uint63.of_Z z).

Definition hardware_div (a b : Z) : PrimFloat.float :=
  PrimFloat.div (hardware_int a) (hardware_int b).

(** *** numpy's quantile, linear method *)

(** [arr[i]], an index below zero counting from the end.  The indexes that
    [get_indexes] gives for a non-empty array are within its bounds. *)
Definition take (arr : list Z) (i : Z) : Z :=
  nth (Z.to_nat (if (i <? 0)%Z then i + Z.of_nat (length arr) else i)) arr 0%Z.

(** [(n - 1) * quantiles]. *)
Definition get_virtual_index (n : Z) (quantiles : float64) : float64 :=
  fmul (of_int (n - 1)) quantiles.

(** [_get_indexes]: the floor of the virtual index and its successor; both
    are the last index, written [-1], from the last position on, and the
    first one below zero. *)
Definition get_indexes (virtual_indexes : float64) (valid_values_count : Z) : Z * Z :=
  let previous_indexes := ffloor virtual_indexes in
  let next_indexes := fadd previous_indexes (Fin 1) in
  let above := fgeb virtual_indexes (of_int (valid_values_count - 1)) in
  let previous_indexes := if above then Fin (-1) else previous_indexes in
  let next_indexes := if above then Fin (-1) else next_indexes in
  let below := fltb virtual_indexes (Fin 0) in
  let previous_indexes := if below then Fin 0 else previous_indexes in
  let next_indexes := if below then Fin 0 else next_indexes in
  (to_intp previous_indexes, to_intp next_indexes).

(** [_get_gamma]: [virtual_indexes - previous_indexes]. *)
Definition get_gamma (virtual_indexes : float64) (previous_indexes : Z) : float64 :=
  fsub virtual_indexes (of_int previous_indexes).

(** [_lerp]: the difference of the neighbours is an int64 difference;
    [a + diff_b_a * t], replaced by [b - diff_b_a * (1 - t)] where
    [t >= 0.5]. *)
Definition lerp (a b : Z) (t : float64) : float64 :=
  let diff_b_a := sub64 b a in
  let lerp_interpolation := fadd (of_int a) (fmul (of_int diff_b_a) t) in
  if fgeb t (Fin (1 # 2))
  then fsub (of_int b) (fmul (of_int diff_b_a) (fsub (Fin 1) t))
  else lerp_interpolation.

(** [_quantile]: the array is partitioned so that the two neighbours are
    the order statistics at their indexes, which sorting it gives too. *)
Definition np_quantile (arr : list Z) (quantiles : float64) : float64 :=
  let values_count := Z.of_nat (length arr) in
  let virtual_indexes := get_virtual_index values_count quantiles in
  let '(previous_indexes, next_indexes) := get_indexes virtual_indexes values_count in
  let arr := isort Z.leb arr in
  let previous := take arr previous_indexes in
  let next := take arr next_indexes in
  let gamma := get_gamma virtual_indexes previous_indexes in
  lerp previous next gamma.

(** [0 <= q <= 1]. *)
Definition in_unit_interval (q : float64) : bool := fleb (Fin 0) q && fleb q (Fin 1).

(** [np.percentile(a, q)]: [q] is divided by 100 and checked. *)
Definition percentile (a : list Z) (q : float64) : outcome float64 :=
  let q := fdiv q (Fin 100) in
  if in_unit_interval q then Ok (np_quantile a q) else Raise ValueError.

(** *** The items of the presentations *)

(** The column [df1['items']]: a column of int64, or the empty column of
    dtype object that a cache file holding only the header is read as. *)
Inductive ItemSeries : Type :=
| Int64Series (rows : list (string * Z))
| EmptyObjectSeries.

Definition rows_of (s : ItemSeries) : list (string * Z) :=
  match s with
  | Int64Series rows => rows
  | EmptyObjectSeries => []
  end.

Definition magnitudes (s : ItemSeries) : list Z := map snd (rows_of s).

(** [s.quantile(q)]: pandas rejects a [q] outside [[0, 1]], answers [nan]
    on an empty series and otherwise hands [q * 100] to [np.percentile]. *)
Definition quantile (s : ItemSeries) (q : float64) : outcome float64 :=
  if in_unit_interval q then
    match magnitudes s with
    | [] => Ok NaN
    | _ :: _ => percentile (magnitudes s) (fmul q (Fin 100))
    end
  else Raise ValueError.

(** [s > cutoff], the boolean mask: each int64 is converted to a double and
    compared. *)
Definition gt_mask (s : ItemSeries) (cutoff : float64) : list bool :=
  map (fun x => fgtb (of_int x) cutoff) (magnitudes s).

(** [s[mask]]. *)
Definition getitem_bool (s : ItemSeries) (mask : list bool) : ItemSeries :=
  match s with
  | Int64Series rows => Int64Series (select rows mask)
  | EmptyObjectSeries => EmptyObjectSeries
  end.

(** What [s.sum()] returns: a numpy int64, or the Python integer 0 for the
    empty column of dtype object. *)
Inductive scalar : Type :=
| np_int64 (z : Z)
| py_zero.

Definition sum (s : ItemSeries) : scalar :=
  match s with
  | Int64Series rows => np_int64 (sum64 (map snd rows))
  | EmptyObjectSeries => py_zero
  end.

Definition to_float (a : scalar) : float64 :=
  match a with
  | np_int64 z => of_int z
  | py_zero => Fin 0
  end.

(** [a / b]: numpy converts both sides to doubles and divides them, Python
    raises when both are its integer 0. *)
Definition truediv (a b : scalar) : outcome float64 :=
  match a, b with
  | py_zero, py_zero => Raise ZeroDivisionError
  | _, _ => Ok (fdiv (to_float a) (to_float b))
  end.

(** The body of the percentile loop (lines 269-270):
    [items1[items1 > items1.quantile(1 - percentile)].sum() / items1.sum()]. *)
Definition captured_share (items1 : ItemSeries) (percentile : float64)
    : outcome float64 :=
  cutoff <- quantile items1 (fsub (Fin 1) percentile) ;;
  truediv (sum (getitem_bool items1 (gt_mask items1 cutoff))) (sum items1).

(** Line 262: [items1.sum() / total_items * 100], [total_items] being a
    double. *)
Definition percent_of_grand_total (total : scalar) (total_items : float64) : float64 :=
  fmul (fdiv (to_float total) total_items) (Fin 100).

Record ConcentrationSummary : Type := {
  total : scalar;
  percent : float64;
  by_percentile : list (float64 * float64)
}.

(** Lines 99, 262 and 269-270.  [grand_total] is the int64 cell of the
    grand totals; [df.iloc[0]] turns the row into doubles. *)
Definition summarize (items1 : ItemSeries) (grand_total : Z)
    (percentiles : list float64) : outcome ConcentrationSummary :=
  let total_items := of_int grand_total in
  let percent := percent_of_grand_total (sum items1) total_items in
  shares <- mapM (fun percentile =>
                    share <- captured_share items1 percentile ;;
                    Ok (percentile, share)) percentiles ;;
  Ok {| total := sum items1; percent := percent; by_percentile := shares |}.

(** *** The top rows *)

(** A numeric series as [sort_values] sees it: index labels with their
    values, in row order. *)
Definition Series : Type := list (string * Q).

Definition values (s : Series) : list Q := map snd s.

Definition index (s : Series) : list string := map fst s.

(** [df.sort_values([column], ascending=False)] on one key: pandas reverses
    the rows, sorts them ascending and reverses the result. *)
Definition sort_values_descending (s : Series) : Series :=
  rev (isort (fun a b => Qle_bool (snd a) (snd b)) (rev s)).

Definition head {A : Type} (n : nat) (l : list A) : list A := firstn n l.

(** Lines 277, 290: the identifiers of
    [df.sort_values([column], ascending=False).head(n)]. *)
Definition top (n : nat) (s : Series) : list string :=
  index (head n (sort_values_descending s)).

(** *** The captured share, spelled out in binary64 *)

(** The position of the quantile among [n] sorted values, as it is
    computed: [q] times 100, divided by 100, times [n - 1], each step
    rounded. *)
Definition position (n : nat) (q : Q) : Q :=
  rnd (inject_Z (Z.of_nat n - 1) * rnd (rnd (q * 100) / 100)).

(** The interpolation between the neighbours [a <= b] at the fraction [g],
    before its last rounding. *)
Definition interpolation (a b : Z) (g : Q) : Q :=
  if Qle_bool (1 # 2) g
  then rnd (inject_Z b) - rnd (rnd (inject_Z (b - a)) * rnd (1 - g))
  else rnd (inject_Z a) + rnd (rnd (inject_Z (b - a)) * g).

(** From the last position on the largest value, otherwise the
    interpolation between the two neighbours of the position. *)
Definition quantile_value (sorted : list Z) (h : Q) : Q :=
  if Qle_bool (inject_Z (Z.of_nat (length sorted) - 1)) h
  then inject_Z (nth (length sorted - 1) sorted 0%Z)
  else interpolation (nth (Z.to_nat (Qfloor h)) sorted 0%Z)
                     (nth (S (Z.to_nat (Qfloor h))) sorted 0%Z)
                     (rnd (h - inject_Z (Qfloor h))).

Definition binary64_quantile (sorted : list Z) (q : Q) : Q :=
  rnd (quantile_value sorted (position (length sorted) q)).

(** The magnitudes whose double is strictly greater than the cutoff. *)
Definition above (cutoff : Q) (xs : list Z) : list Z :=
  filter (fun x => negb (Qle_bool (rnd (inject_Z x)) cutoff)) xs.

(** The sum as a number, without wrap-around. *)
Definition total_of (xs : list Z) : Z := fold_right Z.add 0%Z xs.

(** The double nearest to the quotient of the doubles nearest to two
    sums, [nan] for [0 / 0]. *)
Definition nearest_ratio (part whole : Z) : float64 :=
  if (whole =? 0)%Z then NaN
  else near (rnd (inject_Z part) / rnd (inject_Z whole)).

Definition binary64_captured_share (xs : list Z) (p : Q) : float64 :=
  let cutoff := binary64_quantile (isort Z.leb xs) (rnd (1 - p)) in
  nearest_ratio (total_of (above cutoff xs)) (total_of xs).

(** *** The captured share as the prose defines it *)

(** The linear-interpolation quantile in exact arithmetic: with the values
    in ascending order and [h = (n - 1) * q], the value is
    [lower + (upper - lower) * fraction], where [lower] and [upper] are the
    order statistics around position [h] and [fraction] is the fractional
    part of [h]. *)
Definition exact_quantile (sorted : list Z) (q : Q) : Q :=
  let h := (inject_Z (Z.of_nat (length sorted) - 1) * q)%Q in
  let k := Z.to_nat (Qfloor h) in
  let lower := inject_Z (nth k sorted 0%Z) in
  let upper := inject_Z (nth (Nat.min (S k) (length sorted - 1)) sorted 0%Z) in
  (lower + (upper - lower) * (h - inject_Z (Qfloor h)))%Q.

(** The sum of the magnitudes strictly greater than the (1 - p) quantile,
    divided by the sum of all magnitudes. *)
Definition exact_captured_share (xs : list Z) (p : Q) : Q :=
  let cutoff := exact_quantile (isort Z.leb xs) (1 - p)%Q in
  (inject_Z (total_of (filter (fun x => negb (Qle_bool (inject_Z x) cutoff)) xs))
   / inject_Z (total_of xs))%Q.

(** *** Inputs *)

(** A percentile of the loop: a double in (0, 1]. *)
Definition unit_percentile (p : Q) : Prop := binary64 p /\ (0 < p)%Q /\ (p <= 1)%Q.

(** The percentiles of the loop, [[0.01, 0.05, 0.1, 0.2]], as doubles. *)
Definition loop_percentiles : list Q :=
  map (fun q => Qred (rnd q)) [1 # 100; 5 # 100; 1 # 10; 2 # 10]%Q.

Definition int64_magnitude (x : Z) : Prop := (0 <= x < 2 ^ 63)%Z.

(** A magnitude that its double holds exactly. *)
Definition exact_magnitude (x : Z) : Prop := (0 <= x <= 2 ^ 53)%Z.

(** Rows whose sums do not wrap around: non-negative magnitudes with a sum
    below [2 ^ 63]. *)
Definition without_overflow (rows : list (string * Z)) : Prop :=
  Forall (fun x => 0 <= x)%Z (map snd rows) /\ (total_of (map snd rows) < 2 ^ 63)%Z.

(** A non-empty series of at most [2 ^ 53] rows whose sums do not wrap
    around. *)
Definition magnitude_rows (rows : list (string * Z)) : Prop :=
  rows <> [] /\ (Z.of_nat (length rows) <= 2 ^ 53)%Z /\
  Forall (fun x => 0 <= x)%Z (map snd rows) /\ (total_of (map snd rows) < 2 ^ 63)%Z.

(** Sample series: the end-to-end scenario, the integers 1 to 6, a series
    of zeros, series with ties, series of large magnitudes. *)
Definition scenario_series : list (string * Z) :=
  [("a", 10); ("b", 30); ("c", 60)]%Z.

Definition ramp_series : list (string * Z) :=
  [("a", 1); ("b", 2); ("c", 3); ("d", 4); ("e", 5); ("f", 6)]%Z.

Definition zero_series : list (string * Z) := [("a", 0%Z)].

Definition tied_series : Series := [("b", 5%Q); ("a", 5%Q)].

Definition flat_series : list (string * Z) := [("a", 7); ("b", 7); ("c", 7)]%Z.

Definition wrapping_series : list (string * Z) :=
  [("a", 2 ^ 62); ("b", 2 ^ 62 + 4096); ("c", 2 ^ 62 + 8192);
   ("d", 2 ^ 62 + 12288); ("e", 2 ^ 62 + 16384)]%Z.

Definition huge_flat_series : list (string * Z) :=
  [("a", 2 ^ 62); ("b", 2 ^ 62); ("c", 2 ^ 62); ("d", 2 ^ 62)]%Z.

Definition coarse_series : list (string * Z) :=
  [("a", 2 ^ 56 + 42); ("b", 2 ^ 56 + 64)]%Z.

(** The doubles nearest to 0.2, 0.4, 0.6 and 0.8. *)
Definition double_0_2 : Q := 3602879701896397 # 18014398509481984.

Definition double_0_4 : Q := 3602879701896397 # 9007199254740992.

Definition double_0_6 : Q := 5404319552844595 # 9007199254740992.

Definition double_0_8 : Q := 3602879701896397 # 4503599627370496.

(** ** The remaining cells of the notebook *)

(** *** Distinct codes (lines 139, 191) *)

(** [Series.unique()]: the values in order of first appearance, collected
    by appending each value not seen before. *)
Definition unique (xs : list string) : list string :=
  fold_left (fun seen x => if existsb (String.eqb x) seen then seen else (seen ++ [x])%list)
            xs [].

(** [df[label].nunique()]. *)
Definition nunique (df : DataFrame) (label : string) : outcome nat :=
  column <- getitem df label ;;
  Ok (length (unique column)).

(** *** Codes with a fan-out of two (lines 154-157, 206-209) *)

(** [[code for code, count in counts.items() if count == 2]]. *)
Definition codes_mapping_to_2 (counts : list (string * nat)) : list string :=
  map fst (filter (fun item => Nat.eqb (snd item) 2) counts).

(** [column.isin(codes)]. *)
Definition isin (column codes : list string) : list bool :=
  map (fun c => existsb (String.eqb c) codes) column.

(** Lines 154-157: the rows whose old code maps to two new codes. *)
Definition old_codes_mapping_to_2_new_codes (bnf_mapping : DataFrame)
    : outcome DataFrame :=
  old_code <- getitem bnf_mapping "old_code" ;;
  let old_code_counts := Counter String.eqb old_code in
  let codes := codes_mapping_to_2 old_code_counts in
  old_code' <- getitem bnf_mapping "old_code" ;;
  Ok (getitem_mask bnf_mapping (isin old_code' codes)).

(** Lines 206-209: the rows whose new code is mapped to from two old
    codes, sorted by (new_code, old_code). *)
Definition new_codes_mapping_to_2_new_codes (bnf_mapping : DataFrame)
    : outcome DataFrame :=
  new_code <- getitem bnf_mapping "new_code" ;;
  let new_code_counts := Counter String.eqb new_code in
  let codes := codes_mapping_to_2 new_code_counts in
  new_code' <- getitem bnf_mapping "new_code" ;;
  sort_values (getitem_mask bnf_mapping (isin new_code' codes))
              ["new_code"; "old_code"].

(** *** The most common old code (lines 182-183) *)

(** Indexing a Python list: the item, or [IndexError]. *)
Inductive indexed (A : Type) : Type :=
| Item (a : A)
| IndexError.

Arguments Item {A} a.
Arguments IndexError {A}.

Definition list_getitem {A : Type} (l : list A) (i : nat) : indexed A :=
  match nth_error l i with
  | Some a => Item a
  | None => IndexError
  end.

(** [max(items, key=count)] started from [best]: a later item replaces the
    best one only when its count is strictly larger. *)
Fixpoint max_by_count (best : string * nat) (items : list (string * nat))
    : string * nat :=
  match items with
  | [] => best
  | item :: items' =>
      if (snd best <? snd item)%nat then max_by_count item items'
      else max_by_count best items'
  end.

(** [counts.most_common(1)], which is [heapq.nlargest(1, counts.items(),
    key=count)]: the list of the maximal item, empty for an empty
    counter. *)
Definition most_common_1 (counts : list (string * nat)) : list (string * nat) :=
  match counts with
  | [] => []
  | item :: items => [max_by_count item items]
  end.

(** Line 182: [counts.most_common(1)[0][0]]. *)
Definition most_common_code (counts : list (string * nat)) : indexed string :=
  match list_getitem (most_common_1 counts) 0 with
  | Item item => Item (fst item)
  | IndexError => IndexError
  end.

(** Line 183 (and 164-176, 216-232 without the [head]):
    [df[df[label] == code]]. *)
Definition rows_with_code (df : DataFrame) (label code : string) : outcome DataFrame :=
  column <- getitem df label ;;
  Ok (getitem_mask df (map (fun c => String.eqb c code) column)).

Definition head_frame (n : nat) (df : DataFrame) : DataFrame :=
  {| columns := columns df; rows := head n (rows df) |}.

(** *** The list of codes of the query (lines 237, 305) *)

(** ["'{}'".format(bnf_code)]. *)
Definition quoted (bnf_code : string) : string := "'" ++ bnf_code ++ "'".

(** [sep.join(parts)]. *)
Fixpoint join (sep : string) (parts : list string) : string :=
  match parts with
  | [] => ""
  | part :: parts' =>
      match parts' with
      | [] => part
      | _ :: _ => part ++ sep ++ join sep parts'
      end
  end.

Definition joined_bnf_codes (codes : list string) : string :=
  join ", " (map quoted codes).

(** A code without the quote character. *)
Fixpoint quote_free (code : string) : bool :=
  match code with
  | EmptyString => true
  | String ch code' => negb (Ascii.eqb ch "'"%char) && quote_free code'
  end.

(** *** The cumulative curve (lines 272, 340) *)

(** [items1.sort_values()]: ascending.  Rows of equal magnitude keep their
    order here; the sort of numpy may order them otherwise, which the
    values of the curve do not depend on. *)
Definition sort_values_ascending (rows : list (string * Z)) : list (string * Z) :=
  isort (fun a b => (snd a <=? snd b)%Z) rows.

(** The running totals of an int64 column: each step is an int64
    addition. *)
Fixpoint cumsum_from (acc : Z) (xs : list Z) : list Z :=
  match xs with
  | [] => []
  | x :: xs' => add64 acc x :: cumsum_from (add64 acc x) xs'
  end.

(** [s.cumsum()]: the running totals, under the same index. *)
Definition cumsum (rows : list (string * Z)) : list (string * Z) :=
  combine (map fst rows) (cumsum_from 0 (map snd rows)).

(** The plotted column of [items1.sort_values().cumsum().reset_index()]. *)
Definition cumulative_curve (items1 : ItemSeries) : list Z :=
  map snd (cumsum (sort_values_ascending (rows_of items1))).

(** Samples for the remaining cells. *)
Definition loaded_sample : DataFrame :=
  {| columns := ["old_code"; "old_name"; "new_name"; "new_code"; "changed"];
     rows := [ ["0102000L0AAAJAJ"; "a"; "a1"; "0102000L0AAACAC"; "Y"];
               ["0102000L0AAAJAJ"; "a"; "a2"; "0102000L0AAADAD"; "Y"];
               ["0204000H0AAAAAA"; "b"; "b2"; "0301011R0AAAAAA"; "Y"] ] |}.

Definition sample_codes : list string := ["0102000L0AAAJAJ"; "0204000H0AAAAAA"].

(* ================================================================= *)
(** * Part II: properties                                              *)
(* ================================================================= *)

(** ** Outcomes *)

Lemma bind_Ok {A B : Type} (a : A) (k : A -> outcome B) :
  bind (Ok a) k = k a.
Proof. reflexivity. Qed.

Lemma mapM_Ok {A B : Type} (f : A -> outcome B) (g : A -> B) (xs : list A) :
  (forall x, In x xs -> f x = Ok (g x)) ->
  mapM f xs = Ok (map g xs).
Proof.
  induction xs as [|x xs IH]; intros Hf; simpl.
  - reflexivity.
  - rewrite (Hf x (or_introl eq_refl)). simpl.
    rewrite IH by (intros y Hy; apply Hf; right; exact Hy).
    reflexivity.
Qed.

(** ** The insertion sort *)

Section InsertionSortFacts.
Context {A : Type} (leb : A -> A -> bool).

Lemma insert_perm (x : A) (l : list A) : Permutation (insert leb x l) (x :: l).
Proof.
  induction l as [|y l IH]; simpl.
  - apply Permutation_refl.
  - destruct (leb x y).
    + apply Permutation_refl.
    + apply perm_trans with (y :: x :: l).
      * apply perm_skip. exact IH.
      * apply perm_swap.
Qed.

Lemma isort_perm (l : list A) : Permutation (isort leb l) l.
Proof.
  induction l as [|x l IH]; simpl.
  - apply perm_nil.
  - apply perm_trans with (x :: isort leb l).
    + apply insert_perm.
    + apply perm_skip. exact IH.
Qed.

Lemma isort_length (l : list A) : length (isort leb l) = length l.
Proof. apply Permutation_length, isort_perm. Qed.

Lemma isort_In (l : list A) (x : A) : In x (isort leb l) <-> In x l.
Proof.
  split; apply Permutation_in.
  - apply isort_perm.
  - apply Permutation_sym, isort_perm.
Qed.

Hypothesis leb_total : forall a b, leb a b = true \/ leb b a = true.
Hypothesis leb_trans : forall a b c, leb a b = true -> leb b c = true -> leb a c = true.

Lemma insert_sorted (x : A) (l : list A) :
  StronglySorted (holds leb) l -> StronglySorted (holds leb) (insert leb x l).
Proof.
  induction 1 as [|y l Hl IH Hy]; simpl.
  - constructor; constructor.
  - destruct (leb x y) eqn:Hxy.
    + constructor.
      * constructor; assumption.
      * constructor; [exact Hxy|].
        eapply Forall_impl; [|exact Hy].
        intros z Hz. exact (leb_trans _ _ _ Hxy Hz).
    + constructor; [exact IH|].
      apply (Permutation_Forall (Permutation_sym (insert_perm x l))).
      constructor; [|exact Hy].
      destruct (leb_total x y) as [H|H]; [congruence|exact H].
Qed.

Lemma isort_sorted (l : list A) : StronglySorted (holds leb) (isort leb l).
Proof.
  induction l as [|x l IH]; simpl.
  - constructor.
  - apply insert_sorted. exact IH.
Qed.
End InsertionSortFacts.

(** ** The order on strings and on key tuples *)

Lemma ascii_compare_refl (a : ascii) : Ascii.compare a a = Eq.
Proof. unfold Ascii.compare. apply N.compare_refl. Qed.

Lemma ascii_compare_lt_trans (a b c : ascii) :
  Ascii.compare a b = Lt -> Ascii.compare b c = Lt -> Ascii.compare a c = Lt.
Proof.
  unfold Ascii.compare. rewrite !N.compare_lt_iff. apply N.lt_trans.
Qed.

Lemma string_compare_refl (s : string) : String.compare s s = Eq.
Proof.
  induction s as [|a s IH]; simpl.
  - reflexivity.
  - rewrite ascii_compare_refl. exact IH.
Qed.

Lemma string_compare_lt_trans (s1 : string) :
  forall s2 s3, String.compare s1 s2 = Lt -> String.compare s2 s3 = Lt ->
                String.compare s1 s3 = Lt.
Proof.
  induction s1 as [|a s1 IH]; intros [|b s2] [|c s3]; simpl; try congruence.
  destruct (Ascii.compare a b) eqn:Hab; try discriminate;
    destruct (Ascii.compare b c) eqn:Hbc; try discriminate; intros H12 H23.
  - apply Ascii.compare_eq_iff in Hab, Hbc. subst.
    rewrite ascii_compare_refl. eapply IH; eassumption.
  - apply Ascii.compare_eq_iff in Hab. subst. rewrite Hbc. reflexivity.
  - apply Ascii.compare_eq_iff in Hbc. subst. rewrite Hab. reflexivity.
  - rewrite (ascii_compare_lt_trans _ _ _ Hab Hbc). reflexivity.
Qed.

Lemma lex_compare_refl (k : list string) : lex_compare k k = Eq.
Proof.
  induction k as [|a k IH]; simpl.
  - reflexivity.
  - rewrite string_compare_refl. exact IH.
Qed.

Lemma lex_compare_eq (k1 : list string) :
  forall k2, lex_compare k1 k2 = Eq -> k1 = k2.
Proof.
  induction k1 as [|a k1 IH]; intros [|b k2]; simpl; try congruence.
  destruct (String.compare a b) eqn:Hab; try discriminate.
  intros H. apply String.compare_eq_iff in Hab. subst.
  f_equal. apply IH. exact H.
Qed.

Lemma lex_compare_antisym (k1 : list string) :
  forall k2, lex_compare k1 k2 = CompOpp (lex_compare k2 k1).
Proof.
  induction k1 as [|a k1 IH]; intros [|b k2]; simpl; try reflexivity.
  rewrite (String.compare_antisym a b).
  destruct (String.compare b a); simpl; try reflexivity.
  apply IH.
Qed.

Lemma lex_compare_lt_trans (k1 : list string) :
  forall k2 k3, lex_compare k1 k2 = Lt -> lex_compare k2 k3 = Lt ->
                lex_compare k1 k3 = Lt.
Proof.
  induction k1 as [|a k1 IH]; intros [|b k2] [|c k3]; simpl; try congruence.
  destruct (String.compare a b) eqn:Hab; try discriminate;
    destruct (String.compare b c) eqn:Hbc; try discriminate; intros H12 H23.
  - apply String.compare_eq_iff in Hab, Hbc. subst.
    rewrite string_compare_refl. eapply IH; eassumption.
  - apply String.compare_eq_iff in Hab. subst. rewrite Hbc. reflexivity.
  - apply String.compare_eq_iff in Hbc. subst. rewrite Hab. reflexivity.
  - rewrite (string_compare_lt_trans _ _ _ Hab Hbc). reflexivity.
Qed.

Lemma lex_leb_total (k1 k2 : list string) :
  lex_leb k1 k2 = true \/ lex_leb k2 k1 = true.
Proof.
  unfold lex_leb. rewrite (lex_compare_antisym k2 k1).
  destruct (lex_compare k1 k2); simpl; auto.
Qed.

Lemma lex_leb_trans (k1 k2 k3 : list string) :
  lex_leb k1 k2 = true -> lex_leb k2 k3 = true -> lex_leb k1 k3 = true.
Proof.
  unfold lex_leb.
  destruct (lex_compare k1 k2) eqn:H12; try discriminate;
    destruct (lex_compare k2 k3) eqn:H23; try discriminate; intros _ _.
  - apply lex_compare_eq in H12, H23. subst. rewrite lex_compare_refl. reflexivity.
  - apply lex_compare_eq in H12. subst. rewrite H23. reflexivity.
  - apply lex_compare_eq in H23. subst. rewrite H12. reflexivity.
  - rewrite (lex_compare_lt_trans _ _ _ H12 H23). reflexivity.
Qed.

Lemma lex_leb_pair (a b c d : string) :
  lex_leb [a; b] [c; d] = true -> pair_le (a, b) (c, d).
Proof.
  unfold lex_leb, pair_le; simpl.
  destruct (String.compare a c) eqn:Hac; try discriminate.
  - apply String.compare_eq_iff in Hac. subst. intros H. right. split; [reflexivity|].
    destruct (String.compare b d); try discriminate; congruence.
  - intros _. left. reflexivity.
Qed.

(** ** Frames *)

Lemma get_loc_In (label : string) (cols : list string) :
  In label cols -> exists i, get_loc label cols = Some i.
Proof.
  induction cols as [|c cols IH]; simpl; intros Hin.
  - contradiction.
  - destruct (String.eqb label c) eqn:E.
    + exists 0%nat. reflexivity.
    + destruct Hin as [Hc|Hin].
      * subst. rewrite String.eqb_refl in E. discriminate.
      * destruct (IH Hin) as [i Hi]. exists (S i). rewrite Hi. reflexivity.
Qed.

Lemma get_loc_not_In (label : string) (cols : list string) :
  ~ In label cols -> get_loc label cols = None.
Proof.
  induction cols as [|c cols IH]; simpl; intros Hnin.
  - reflexivity.
  - destruct (String.eqb label c) eqn:E.
    + apply String.eqb_eq in E. subst. exfalso. apply Hnin. left. reflexivity.
    + rewrite IH by (intros H; apply Hnin; right; exact H). reflexivity.
Qed.

Lemma select_map {A : Type} (f : A -> bool) (xs : list A) :
  select xs (map f xs) = filter f xs.
Proof.
  induction xs as [|x xs IH]; simpl.
  - reflexivity.
  - rewrite IH. reflexivity.
Qed.

Lemma filter_filter {A : Type} (f g : A -> bool) (xs : list A) :
  filter g (filter f xs) = filter (fun x => f x && g x) xs.
Proof.
  induction xs as [|x xs IH]; simpl.
  - reflexivity.
  - destruct (f x); simpl; [destruct (g x)|]; rewrite IH; reflexivity.
Qed.

Lemma getitem_located (df : DataFrame) (label : string) (i : nat) :
  get_loc label (columns df) = Some i ->
  getitem df label = Ok (map (iloc i) (rows df)).
Proof. intros H. unfold getitem, locate. rewrite H. reflexivity. Qed.

Lemma getitem_missing (df : DataFrame) (label : string) :
  ~ In label (columns df) -> getitem df label = Raise (KeyError label).
Proof.
  intros H. unfold getitem, locate. rewrite (get_loc_not_In _ _ H). reflexivity.
Qed.

(** ** The loader/filter *)

(** With the three columns it reads in place, the loader is the stable
    sort of the rows that pass the three masks in turn. *)
Lemma load_mapping_located (raw : DataFrame) (ic io inw : nat) :
  get_loc "changed" (columns (canonical raw)) = Some ic ->
  get_loc "old_code" (columns (canonical raw)) = Some io ->
  get_loc "new_code" (columns (canonical raw)) = Some inw ->
  load_mapping raw =
  Ok {| columns := columns (canonical raw);
        rows := isort (code_key_leb io inw)
                  (filter (fun r => String.eqb "Y" (iloc ic r)
                                    && (negb (prefix excluded_prefix (iloc io r))
                                        && negb (prefix excluded_prefix (iloc inw r))))
                          (rows raw)) |}.
Proof.
  intros Hc Ho Hn. unfold load_mapping, sort_values, getitem, locate.
  cbv zeta. rewrite Hc. cbn [bind getitem_mask columns rows].
  rewrite Ho. cbn [bind getitem_mask columns rows mapM].
  rewrite Hn. cbn [bind getitem_mask columns rows mapM].
  rewrite Ho. cbn [bind getitem_mask columns rows mapM].
  rewrite !map_map, !select_map, !filter_filter.
  reflexivity.
Qed.

Lemma kept_located (raw : DataFrame) (ic io inw : nat) (row : list string) :
  get_loc "changed" (columns (canonical raw)) = Some ic ->
  get_loc "old_code" (columns (canonical raw)) = Some io ->
  get_loc "new_code" (columns (canonical raw)) = Some inw ->
  kept (canonical raw) row =
  String.eqb "Y" (iloc ic row)
  && (negb (prefix excluded_prefix (iloc io row))
      && negb (prefix excluded_prefix (iloc inw row))).
Proof.
  intros Hc Ho Hn. unfold kept, cell. rewrite Hc, Ho, Hn.
  symmetry. apply andb_assoc.
Qed.

Lemma kept_cells (df : DataFrame) (row : list string) :
  kept df row = true <->
  cell df "changed" row = "Y"
  /\ prefix excluded_prefix (cell df "old_code" row) = false
  /\ prefix excluded_prefix (cell df "new_code" row) = false.
Proof.
  unfold kept. rewrite !andb_true_iff, !negb_true_iff, String.eqb_eq.
  intuition congruence.
Qed.

Lemma code_key_sorted (df : DataFrame) (io inw : nat) (l : list (list string)) :
  get_loc "old_code" (columns df) = Some io ->
  get_loc "new_code" (columns df) = Some inw ->
  StronglySorted (holds (code_key_leb io inw)) l ->
  StronglySorted (fun r1 r2 => pair_le (code_pair df r1) (code_pair df r2)) l.
Proof.
  intros Ho Hn. induction 1 as [|r l Hl IH Hr]; constructor.
  - exact IH.
  - eapply Forall_impl; [|exact Hr].
    intros r' H. unfold code_pair, cell. rewrite Ho, Hn.
    apply lex_leb_pair. exact H.
Qed.

(** C2 -- the loader returns exactly the rows flagged 'Y' whose old and new
    codes both lie outside the excluded prefix, in ascending order of the
    pair (old_code, new_code): on a frame that carries the three columns it
    reads, under unique labels, [load_mapping] succeeds, keeps the column
    labels, returns a permutation of the rows that pass the filter (so a
    row is returned exactly when it is an input row that passes), and the
    returned rows are sorted. *)
Theorem load_mapping_filters_and_sorts (bnf_mapping_raw : DataFrame) :
  NoDup (columns (canonical bnf_mapping_raw)) ->
  In "changed" (columns (canonical bnf_mapping_raw)) ->
  In "old_code" (columns (canonical bnf_mapping_raw)) ->
  In "new_code" (columns (canonical bnf_mapping_raw)) ->
  exists out,
    load_mapping bnf_mapping_raw = Ok out
    /\ columns out = columns (canonical bnf_mapping_raw)
    /\ Permutation (rows out)
         (filter (kept (canonical bnf_mapping_raw)) (rows bnf_mapping_raw))
    /\ (forall row,
          In row (rows out) <->
          In row (rows bnf_mapping_raw)
          /\ cell (canonical bnf_mapping_raw) "changed" row = "Y"
          /\ prefix excluded_prefix (cell (canonical bnf_mapping_raw) "old_code" row) = false
          /\ prefix excluded_prefix (cell (canonical bnf_mapping_raw) "new_code" row) = false)
    /\ StronglySorted
         (fun r1 r2 => pair_le (code_pair (canonical bnf_mapping_raw) r1)
                               (code_pair (canonical bnf_mapping_raw) r2))
         (rows out).
Proof.
  intros _ Hc Ho Hn.
  destruct (get_loc_In _ _ Hc) as [ic Hic].
  destruct (get_loc_In _ _ Ho) as [io Hio].
  destruct (get_loc_In _ _ Hn) as [inw Hinw].
  eexists. split; [apply (load_mapping_located _ _ _ _ Hic Hio Hinw)|].
  cbn [columns rows].
  assert (Hf : filter (fun r => String.eqb "Y" (iloc ic r)
                                && (negb (prefix excluded_prefix (iloc io r))
                                    && negb (prefix excluded_prefix (iloc inw r))))
                      (rows bnf_mapping_raw)
               = filter (kept (canonical bnf_mapping_raw)) (rows bnf_mapping_raw)).
  { apply filter_ext. intros r. symmetry. apply kept_located; assumption. }
  rewrite Hf.
  split; [reflexivity|]. split; [apply isort_perm|]. split.
  - intros row. rewrite isort_In, filter_In, kept_cells. reflexivity.
  - apply (code_key_sorted _ _ _ _ Hio Hinw).
    apply isort_sorted; unfold code_key_leb; intros.
    + apply lex_leb_total.
    + eapply lex_leb_trans; eassumption.
Qed.

Lemma NoDup_by_nodup (l : list string) : nodup string_dec l = l -> NoDup l.
Proof. intros H. rewrite <- H. apply NoDup_nodup. Qed.

Lemma load_mapping_filters_and_sorts_witness :
  exists out,
    load_mapping sample_sheet = Ok out
    /\ columns out = columns (canonical sample_sheet)
    /\ Permutation (rows out)
         (filter (kept (canonical sample_sheet)) (rows sample_sheet))
    /\ (forall row,
          In row (rows out) <->
          In row (rows sample_sheet)
          /\ cell (canonical sample_sheet) "changed" row = "Y"
          /\ prefix excluded_prefix (cell (canonical sample_sheet) "old_code" row) = false
          /\ prefix excluded_prefix (cell (canonical sample_sheet) "new_code" row) = false)
    /\ StronglySorted
         (fun r1 r2 => pair_le (code_pair (canonical sample_sheet) r1)
                               (code_pair (canonical sample_sheet) r2))
         (rows out).
Proof.
  apply (load_mapping_filters_and_sorts sample_sheet).
  - apply NoDup_by_nodup. reflexivity.
  - simpl. tauto.
  - simpl. tauto.
  - simpl. tauto.
Defined.

(** The loader on the sample sheet: three rows survive, in key order. *)
Example load_mapping_sample :
  load_mapping sample_sheet =
  Ok {| columns := ["old_code"; "old_name"; "new_name"; "new_code"; "changed"];
        rows := [ ["0102000L0AAAJAJ"; "a"; "a1"; "0102000L0AAACAC"; "Y"];
                  ["0102000L0AAAJAJ"; "a"; "a2"; "0102000L0AAADAD"; "Y"];
                  ["0204000H0AAAAAA"; "b"; "b2"; "0301011R0AAAAAA"; "Y"] ] |}.
Proof. reflexivity. Qed.

(** C8, as stated, fails -- a sheet without the expected column
    'MDR: BNF Description' loads without any error. *)
Lemma load_mapping_ignores_absent_name_column :
  In "MDR: BNF Description" (map fst column_names)
  /\ ~ In "MDR: BNF Description" (columns sheet_without_old_name)
  /\ NoDup (columns (canonical sheet_without_old_name))
  /\ load_mapping sheet_without_old_name =
     Ok {| columns := ["old_code"; "new_name"; "new_code"; "changed"];
           rows := [ ["0204000H0AAAAAA"; "b2"; "0301011R0AAAAAA"; "Y"] ] |}.
Proof.
  split; [simpl; tauto|]. split; [|split; [|reflexivity]].
  - simpl. intros H. repeat (destruct H as [H|H]; [discriminate H|]). exact H.
  - apply NoDup_by_nodup. reflexivity.
Qed.

Lemma canonical_label (raw : DataFrame) (source name : string) :
  dict_get source column_names = Some name ->
  In source (columns raw) -> In name (columns (canonical raw)).
Proof.
  intros Hget Hin. unfold canonical, rename. cbn [columns].
  apply in_map_iff. exists source. rewrite Hget. split; [reflexivity|exact Hin].
Qed.

(** C8 (amended) -- the loader does not check the expected source columns:
    renaming skips the absent ones.  When the column labels are unique after
    the renaming, it fails, with the [KeyError] of the first missing label,
    exactly when the renamed frame
    lacks one of the three columns it reads ('changed', 'old_code',
    'new_code', read in that order); it succeeds when the three are there,
    and so whenever every expected source column is present. *)
Theorem load_mapping_schema (bnf_mapping_raw : DataFrame) :
  NoDup (columns (canonical bnf_mapping_raw)) ->
  (~ In "changed" (columns (canonical bnf_mapping_raw)) ->
   load_mapping bnf_mapping_raw = Raise (KeyError "changed"))
  /\ (In "changed" (columns (canonical bnf_mapping_raw)) ->
      ~ In "old_code" (columns (canonical bnf_mapping_raw)) ->
      load_mapping bnf_mapping_raw = Raise (KeyError "old_code"))
  /\ (In "changed" (columns (canonical bnf_mapping_raw)) ->
      In "old_code" (columns (canonical bnf_mapping_raw)) ->
      ~ In "new_code" (columns (canonical bnf_mapping_raw)) ->
      load_mapping bnf_mapping_raw = Raise (KeyError "new_code"))
  /\ (In "changed" (columns (canonical bnf_mapping_raw)) ->
      In "old_code" (columns (canonical bnf_mapping_raw)) ->
      In "new_code" (columns (canonical bnf_mapping_raw)) ->
      exists out, load_mapping bnf_mapping_raw = Ok out
                  /\ columns out = columns (canonical bnf_mapping_raw))
  /\ (incl (map fst column_names) (columns bnf_mapping_raw) ->
      exists out, load_mapping bnf_mapping_raw = Ok out
                  /\ columns out = columns (canonical bnf_mapping_raw)).
Proof.
  intros Hnodup.
  assert (Hok : In "changed" (columns (canonical bnf_mapping_raw)) ->
                In "old_code" (columns (canonical bnf_mapping_raw)) ->
                In "new_code" (columns (canonical bnf_mapping_raw)) ->
                exists out, load_mapping bnf_mapping_raw = Ok out
                  /\ columns out = columns (canonical bnf_mapping_raw)).
  { intros Hc Ho Hn.
    destruct (get_loc_In _ _ Hc) as [ic Hic].
    destruct (get_loc_In _ _ Ho) as [io Hio].
    destruct (get_loc_In _ _ Hn) as [inw Hinw].
    eexists. split; [apply (load_mapping_located _ _ _ _ Hic Hio Hinw)|reflexivity]. }
  repeat split.
  - intros Hc. unfold load_mapping. cbv zeta.
    rewrite (getitem_missing _ _ Hc). reflexivity.
  - intros Hc Ho. destruct (get_loc_In _ _ Hc) as [ic Hic].
    unfold load_mapping, getitem, locate. cbv zeta.
    rewrite Hic. cbn [bind getitem_mask columns rows].
    rewrite (get_loc_not_In _ _ Ho). reflexivity.
  - intros Hc Ho Hn. destruct (get_loc_In _ _ Hc) as [ic Hic].
    destruct (get_loc_In _ _ Ho) as [io Hio].
    unfold load_mapping, getitem, locate. cbv zeta.
    rewrite Hic. cbn [bind getitem_mask columns rows].
    rewrite Hio. cbn [bind getitem_mask columns rows].
    rewrite (get_loc_not_In _ _ Hn). reflexivity.
  - exact Hok.
  - intros Hall. apply Hok.
    + apply (canonical_label _ "BNF Code Changed (Y/N)"); [reflexivity|].
      apply Hall. simpl. tauto.
    + apply (canonical_label _ "Current BNF Code"); [reflexivity|].
      apply Hall. simpl. tauto.
    + apply (canonical_label _ "New BNF Code"); [reflexivity|].
      apply Hall. simpl. tauto.
Qed.

Lemma load_mapping_schema_witness :
  exists out, load_mapping sample_sheet = Ok out
              /\ columns out = columns (canonical sample_sheet).
Proof.
  apply (load_mapping_schema sample_sheet).
  - apply NoDup_by_nodup. reflexivity.
  - intros label Hin. exact Hin.
Defined.

(** ** Counters *)

Lemma sum_nat_perm (l l' : list nat) :
  Permutation l l' -> sum_nat l = sum_nat l'.
Proof.
  induction 1; simpl; lia.
Qed.

Section CounterFacts.
Context {K : Type} (eqb : K -> K -> bool).
Hypothesis eqb_spec : forall a b, eqb a b = true <-> a = b.

Lemma eqb_false_neq (a b : K) : eqb a b = false <-> a <> b.
Proof.
  split.
  - intros E H. apply eqb_spec in H. congruence.
  - intros H. destruct (eqb a b) eqn:E; [|reflexivity].
    apply eqb_spec in E. contradiction.
Qed.

Lemma incr_keys (k k' : K) (c : list (K * nat)) :
  In k' (map fst (incr eqb k c)) <-> k' = k \/ In k' (map fst c).
Proof.
  induction c as [|[k0 n] c IH]; simpl.
  - intuition.
  - destruct (eqb k k0) eqn:E; simpl.
    + apply eqb_spec in E. subst. intuition.
    + rewrite IH. intuition.
Qed.

Lemma incr_NoDup (k : K) (c : list (K * nat)) :
  NoDup (map fst c) -> NoDup (map fst (incr eqb k c)).
Proof.
  induction c as [|[k0 n] c IH]; simpl; intros Hnd.
  - constructor; [intros []|constructor].
  - inversion Hnd as [|? ? Hnin Hnd']; subst.
    destruct (eqb k k0) eqn:E; simpl.
    + constructor; assumption.
    + constructor; [|apply IH; exact Hnd'].
      rewrite incr_keys. intros [H|H]; [|contradiction].
      apply eqb_false_neq in E. congruence.
Qed.

Lemma incr_total (k : K) (c : list (K * nat)) :
  sum_nat (map snd (incr eqb k c)) = S (sum_nat (map snd c)).
Proof.
  induction c as [|[k0 n] c IH]; simpl.
  - reflexivity.
  - destruct (eqb k k0); simpl; [|rewrite IH]; lia.
Qed.

Lemma incr_get_same (k : K) (c : list (K * nat)) :
  counter_get eqb k (incr eqb k c) = S (counter_get eqb k c).
Proof.
  assert (Hkk : eqb k k = true) by (apply eqb_spec; reflexivity).
  induction c as [|[k0 n] c IH]; simpl.
  - rewrite Hkk. reflexivity.
  - destruct (eqb k k0) eqn:E; simpl; rewrite E; [reflexivity|exact IH].
Qed.

Lemma incr_get_other (k k' : K) (c : list (K * nat)) :
  k' <> k -> counter_get eqb k' (incr eqb k c) = counter_get eqb k' c.
Proof.
  intros Hne. apply eqb_false_neq in Hne.
  induction c as [|[k0 n] c IH]; simpl.
  - rewrite Hne. reflexivity.
  - destruct (eqb k k0) eqn:E; simpl.
    + apply eqb_spec in E. subst. rewrite Hne. reflexivity.
    + rewrite IH. reflexivity.
Qed.

Lemma fold_incr_keys (xs : list K) :
  forall acc k,
    In k (map fst (fold_left (fun c x => incr eqb x c) xs acc)) <->
    In k (map fst acc) \/ In k xs.
Proof.
  induction xs as [|x xs IH]; intros acc k; simpl.
  - intuition.
  - rewrite IH, incr_keys. intuition.
Qed.

Lemma fold_incr_NoDup (xs : list K) :
  forall acc, NoDup (map fst acc) ->
              NoDup (map fst (fold_left (fun c x => incr eqb x c) xs acc)).
Proof.
  induction xs as [|x xs IH]; intros acc Hnd; simpl.
  - exact Hnd.
  - apply IH, incr_NoDup, Hnd.
Qed.

Lemma fold_incr_total (xs : list K) :
  forall acc,
    sum_nat (map snd (fold_left (fun c x => incr eqb x c) xs acc)) =
    (sum_nat (map snd acc) + length xs)%nat.
Proof.
  induction xs as [|x xs IH]; intros acc; simpl.
  - lia.
  - rewrite IH, incr_total. lia.
Qed.

Lemma Counter_keys (xs : list K) (k : K) :
  In k (map fst (Counter eqb xs)) <-> In k xs.
Proof. unfold Counter. rewrite fold_incr_keys. simpl. intuition. Qed.

Lemma Counter_NoDup (xs : list K) : NoDup (map fst (Counter eqb xs)).
Proof. apply fold_incr_NoDup. constructor. Qed.

(** The counts of a counter add up to the number of items counted. *)
Lemma Counter_total (xs : list K) :
  sum_nat (map snd (Counter eqb xs)) = length xs.
Proof. unfold Counter. rewrite fold_incr_total. reflexivity. Qed.

(** A counter holds one entry per distinct item. *)
Lemma Counter_length (dec : forall a b : K, {a = b} + {a <> b}) (xs : list K) :
  length (Counter eqb xs) = length (nodup dec xs).
Proof.
  rewrite <- (length_map fst).
  apply Permutation_length, NoDup_Permutation.
  - apply Counter_NoDup.
  - apply NoDup_nodup.
  - intros k. rewrite Counter_keys, nodup_In. reflexivity.
Qed.

(** The count of a key is the number of its occurrences. *)
Lemma Counter_get (dec : forall a b : K, {a = b} + {a <> b}) (xs : list K) (k : K) :
  counter_get eqb k (Counter eqb xs) = count_occ dec xs k.
Proof.
  unfold Counter.
  assert (H : forall acc,
             counter_get eqb k (fold_left (fun c x => incr eqb x c) xs acc) =
             (counter_get eqb k acc + count_occ dec xs k)%nat).
  { induction xs as [|x xs IH]; intros acc; simpl.
    - lia.
    - rewrite IH. destruct (dec x k) as [->|Hne].
      + rewrite incr_get_same. lia.
      + rewrite incr_get_other by congruence. reflexivity. }
  rewrite H. reflexivity.
Qed.
End CounterFacts.

Lemma incr_weighted (v : nat) (c : list (nat * nat)) :
  weighted_sum (incr Nat.eqb v c) = (v + weighted_sum c)%nat.
Proof.
  unfold weighted_sum.
  induction c as [|[v0 n] c IH]; simpl.
  - lia.
  - destruct (Nat.eqb v v0) eqn:E; simpl.
    + apply Nat.eqb_eq in E. subst. lia.
    + rewrite IH. lia.
Qed.

(** Counting the values of a list and weighting each by its count gives
    back the sum of the list. *)
Lemma Counter_weighted (vs : list nat) :
  weighted_sum (Counter Nat.eqb vs) = sum_nat vs.
Proof.
  unfold Counter.
  assert (H : forall acc,
             weighted_sum (fold_left (fun c x => incr Nat.eqb x c) vs acc) =
             (weighted_sum acc + sum_nat vs)%nat).
  { induction vs as [|v vs IH]; intros acc; simpl.
    - lia.
    - rewrite IH, incr_weighted. lia. }
  rewrite H. reflexivity.
Qed.

(** ** Fan-out *)

Lemma string_eqb_spec (a b : string) : String.eqb a b = true <-> a = b.
Proof. apply String.eqb_eq. Qed.

Lemma fanout_mapping_frame (d : direction) (M : list (string * string)) :
  fanout d (mapping_frame M) =
  Ok {| code_counts := Counter String.eqb (map (source_of d) M);
        code_count_distribution :=
          sorted_items
            (Counter Nat.eqb
               (map snd (Counter String.eqb (map (source_of d) M)))) |}.
Proof.
  destruct d; unfold fanout, getitem, locate, mapping_frame; simpl;
    rewrite map_map; reflexivity.
Qed.

Lemma count_occ_sources (d : direction) (M : list (string * string)) (code : string) :
  count_occ string_dec (map (source_of d) M) code =
  length (filter (fun r => String.eqb (source_of d r) code) M).
Proof.
  induction M as [|r M IH]; simpl.
  - reflexivity.
  - destruct (string_dec (source_of d r) code) as [E|E].
    + rewrite E, String.eqb_refl. simpl. rewrite IH. reflexivity.
    + apply String.eqb_neq in E. rewrite E. exact IH.
Qed.

Lemma distinct_targets_NoDup (d : direction) (M : list (string * string)) (code : string) :
  NoDup M ->
  distinct_targets d M code =
  length (filter (fun r => String.eqb (source_of d r) code) M).
Proof.
  intros Hnd. unfold distinct_targets.
  rewrite nodup_fixed_point; [apply length_map|].
  apply Finite.Injective_map_NoDup_in; [|apply NoDup_filter; exact Hnd].
  intros [a b] [a' b'] Hx Hy.
  apply filter_In in Hx, Hy. destruct Hx as [_ Hx], Hy as [_ Hy].
  apply String.eqb_eq in Hx, Hy. destruct d; simpl in *; congruence.
Qed.

Lemma histogram_values_sum (d : direction) (M : list (string * string)) :
  sum_nat (map snd (sorted_items
                      (Counter Nat.eqb
                         (map snd (Counter String.eqb (map (source_of d) M))))))
  = distinct_sources d M.
Proof.
  unfold sorted_items.
  rewrite (sum_nat_perm _ _ (Permutation_map snd (isort_perm pair_leb _))).
  rewrite (Counter_total Nat.eqb), length_map.
  apply (Counter_length _ string_eqb_spec).
Qed.

Lemma histogram_weighted_sum (d : direction) (M : list (string * string)) :
  weighted_sum (sorted_items
                  (Counter Nat.eqb
                     (map snd (Counter String.eqb (map (source_of d) M)))))
  = length M.
Proof.
  unfold sorted_items, weighted_sum.
  rewrite (sum_nat_perm _ _ (Permutation_map _ (isort_perm pair_leb _))).
  fold (weighted_sum (Counter Nat.eqb
                        (map snd (Counter String.eqb (map (source_of d) M))))).
  rewrite Counter_weighted, (Counter_total String.eqb), length_map.
  reflexivity.
Qed.

(** C3, at a list with an exact-duplicate record -- the counter counts the
    rows of a source code, not its distinct targets: 'A' maps to the one
    target 'X' and is given the count 2, and the list without the duplicate
    gives it the count 1. *)
Theorem fanout_counts_duplicate_rows :
  fanout old_to_new (mapping_frame duplicated_mapping) =
    Ok {| code_counts := [("A", 2%nat)];
          code_count_distribution := [(2%nat, 1%nat)] |}
  /\ distinct_targets old_to_new duplicated_mapping "A" = 1%nat
  /\ fanout old_to_new (mapping_frame (nodup record_eq_dec duplicated_mapping)) =
       Ok {| code_counts := [("A", 1%nat)];
             code_count_distribution := [(1%nat, 1%nat)] |}.
Proof. repeat split; reflexivity. Qed.

(** C4, at a list with an exact-duplicate record -- the weighted sum of
    the histogram is the number of rows (4), not the number of distinct
    (source, target) pairs (3); the plain sum of its values is the number
    of distinct source codes (2). *)
Theorem fanout_histogram_duplicate_rows :
  fanout old_to_new (mapping_frame duplicated_mapping') =
    Ok {| code_counts := [("A", 3%nat); ("B", 1%nat)];
          code_count_distribution := [(1%nat, 1%nat); (3%nat, 1%nat)] |}
  /\ weighted_sum [(1%nat, 1%nat); (3%nat, 1%nat)] = 4%nat
  /\ distinct_pairs duplicated_mapping' = 3%nat
  /\ sum_nat (map snd [(1%nat, 1%nat); (3%nat, 1%nat)]) = 2%nat
  /\ distinct_sources old_to_new duplicated_mapping' = 2%nat.
Proof. repeat split; reflexivity. Qed.

(** The end-to-end scenario of the mapping list [A->X, A->Y, B->X]. *)
Example fanout_scenario :
  fanout old_to_new (mapping_frame scenario_mapping) =
    Ok {| code_counts := [("A", 2%nat); ("B", 1%nat)];
          code_count_distribution := [(1%nat, 1%nat); (2%nat, 1%nat)] |}
  /\ fanout new_to_old (mapping_frame scenario_mapping) =
    Ok {| code_counts := [("X", 2%nat); ("Y", 1%nat)];
          code_count_distribution := [(1%nat, 1%nat); (2%nat, 1%nat)] |}.
Proof. split; reflexivity. Qed.

(** What the counter does on every mapping list, in either direction: it
    holds each source code once, and gives it the number of rows that carry
    it. *)
Theorem fanout_counts_rows (d : direction) (M : list (string * string)) :
  exists dist,
    fanout d (mapping_frame M) = Ok dist
    /\ NoDup (map fst (code_counts dist))
    /\ (forall code, In code (map fst (code_counts dist)) <->
                     In code (map (source_of d) M))
    /\ (forall code,
          counter_get String.eqb code (code_counts dist) =
          length (filter (fun r => String.eqb (source_of d r) code) M)).
Proof.
  eexists. split; [apply fanout_mapping_frame|]. cbn [code_counts].
  split; [apply Counter_NoDup, string_eqb_spec|].
  split.
  - intros code. apply Counter_keys, string_eqb_spec.
  - intros code. rewrite (Counter_get _ string_eqb_spec string_dec).
    apply count_occ_sources.
Qed.

(** The two sums of the histogram on every mapping list: its values add up
    to the number of distinct source codes, and the fan-out counts weighted
    by them add up to the number of rows. *)
Theorem fanout_histogram_sums (d : direction) (M : list (string * string)) :
  exists dist,
    fanout d (mapping_frame M) = Ok dist
    /\ sum_nat (map snd (code_count_distribution dist)) = distinct_sources d M
    /\ weighted_sum (code_count_distribution dist) = length M.
Proof.
  eexists. split; [apply fanout_mapping_frame|]. cbn [code_count_distribution].
  split; [apply histogram_values_sum|apply histogram_weighted_sum].
Qed.

(** On a mapping list without exact-duplicate records the counts are the
    numbers of distinct targets and the weighted sum of the histogram is
    the number of distinct pairs. *)
Theorem fanout_without_duplicates (d : direction) (M : list (string * string)) :
  NoDup M ->
  exists dist,
    fanout d (mapping_frame M) = Ok dist
    /\ (forall code,
          counter_get String.eqb code (code_counts dist) = distinct_targets d M code)
    /\ sum_nat (map snd (code_count_distribution dist)) = distinct_sources d M
    /\ weighted_sum (code_count_distribution dist) = distinct_pairs M.
Proof.
  intros Hnd.
  eexists. split; [apply fanout_mapping_frame|].
  cbn [code_counts code_count_distribution]. split; [|split].
  - intros code. rewrite (Counter_get _ string_eqb_spec string_dec).
    rewrite count_occ_sources. symmetry. apply distinct_targets_NoDup, Hnd.
  - apply histogram_values_sum.
  - rewrite histogram_weighted_sum. unfold distinct_pairs.
    rewrite nodup_fixed_point by exact Hnd. reflexivity.
Qed.

Lemma fanout_without_duplicates_witness :
  exists dist,
    fanout old_to_new (mapping_frame scenario_mapping) = Ok dist
    /\ (forall code,
          counter_get String.eqb code (code_counts dist) =
          distinct_targets old_to_new scenario_mapping code)
    /\ sum_nat (map snd (code_count_distribution dist)) =
       distinct_sources old_to_new scenario_mapping
    /\ weighted_sum (code_count_distribution dist) = distinct_pairs scenario_mapping.
Proof.
  apply (fanout_without_duplicates old_to_new scenario_mapping).
  assert (H : nodup record_eq_dec scenario_mapping = scenario_mapping) by reflexivity.
  rewrite <- H. apply NoDup_nodup.
Defined.

(** ** The concentration figures *)

Section ConcentrationFacts.
Local Open Scope Q_scope.

Lemma Qle_bool_total (a b : Q) : Qle_bool a b = true \/ Qle_bool b a = true.
Proof.
  rewrite !Qle_bool_iff. destruct (Qlt_le_dec a b) as [H|H].
  - left. apply Qlt_le_weak, H.
  - right. exact H.
Qed.

Lemma Qle_bool_trans (a b c : Q) :
  Qle_bool a b = true -> Qle_bool b c = true -> Qle_bool a c = true.
Proof. rewrite !Qle_bool_iff. apply Qle_trans. Qed.

Lemma Qle_bool_false (a b : Q) : Qle_bool a b = false <-> b < a.
Proof.
  split.
  - intros E. apply Qnot_le_lt. intros H. apply Qle_bool_iff in H. congruence.
  - intros H. destruct (Qle_bool a b) eqn:E; [|reflexivity].
    apply Qle_bool_iff in E. exfalso. apply (Qlt_not_le _ _ H E).
Qed.

Lemma filter_none {A : Type} (f : A -> bool) (l : list A) :
  Forall (fun x => f x = false) l -> filter f l = [].
Proof.
  induction 1 as [|x l Hx Hl IH]; simpl.
  - reflexivity.
  - rewrite Hx. exact IH.
Qed.

(** *** Rounding to the nearest double *)

Lemma rne_floor (x : Q) : (Qfloor x <= rne x <= Qfloor x + 1)%Z.
Proof.
  unfold rne. destruct (Qcompare _ _); [destruct (Z.even _)| |]; lia.
Qed.

Lemma rne_le (x y : Q) : x <= y -> (rne x <= rne y)%Z.
Proof.
  intros Hxy. pose proof (Qfloor_resp_le _ _ Hxy) as Hf.
  destruct (Z.eq_dec (Qfloor x) (Qfloor y)) as [E|E].
  - unfold rne. rewrite E.
    destruct (Qcompare_spec (x - inject_Z (Qfloor y)) (1 # 2)) as [H1|H1|H1];
      destruct (Qcompare_spec (y - inject_Z (Qfloor y)) (1 # 2)) as [H2|H2|H2];
      try destruct (Z.even (Qfloor y)); try lia; exfalso; lra.
  - pose proof (rne_floor x). pose proof (rne_floor y). lia.
Qed.

Lemma rne_Z (k : Z) : rne (inject_Z k) = k.
Proof.
  unfold rne. rewrite Qfloor_Z.
  destruct (Qcompare_spec (inject_Z k - inject_Z k) (1 # 2)) as [H|H|H];
    try reflexivity; exfalso; lra.
Qed.

Lemma pow2_pos (e : Z) : 0 < 2 ^ e.
Proof. apply Qpower_0_lt. reflexivity. Qed.

Lemma pow2_plus (a b : Z) : 2 ^ (a + b) == 2 ^ a * 2 ^ b.
Proof. apply Qpower_plus. discriminate. Qed.

Lemma pow2_le (a b : Z) : (a <= b)%Z -> 2 ^ a <= 2 ^ b.
Proof. intros H. apply Qpower_le_compat_l; [exact H|discriminate]. Qed.

Lemma pow2_lt (a b : Z) : (a < b)%Z -> 2 ^ a < 2 ^ b.
Proof. intros H. apply Qpower_lt_compat_l; [exact H|reflexivity]. Qed.

Lemma pow2_lt_inv (a b : Z) : 2 ^ a < 2 ^ b -> (a < b)%Z.
Proof. intros H. apply (Qpower_lt_compat_l_inv 2); [exact H|reflexivity]. Qed.

Lemma pow2_split (a b : Z) : 2 ^ a == 2 ^ (a - b) * 2 ^ b.
Proof.
  rewrite <- pow2_plus. apply Qpower_comp; [reflexivity|lia].
Qed.

Lemma pow2_Z (n : Z) : (0 <= n)%Z -> 2 ^ n == inject_Z (2 ^ n).
Proof. intros H. rewrite Zpower_Qpower by exact H. reflexivity. Qed.

Lemma ilog2_spec (a : Q) : 0 < a -> 2 ^ ilog2 a <= a /\ a < 2 ^ (ilog2 a + 1).
Proof.
  intros Ha. destruct a as [n d]. unfold ilog2. cbn [Qnum Qden].
  assert (Hn : (0 < n)%Z).
  { unfold Qlt in Ha. simpl in Ha. lia. }
  pose proof (Z.log2_spec n Hn) as [Hn1 Hn2].
  pose proof (Z.log2_spec (Zpos d) (Pos2Z.is_pos d)) as [Hd1 Hd2].
  pose proof (Z.log2_nonneg n) as Hln. pose proof (Z.log2_nonneg (Zpos d)) as Hld.
  set (ln := Z.log2 n) in *. set (ld := Z.log2 (Zpos d)) in *.
  assert (Hq : n # d == inject_Z n / inject_Z (Zpos d)) by apply Qmake_Qdiv.
  assert (Hdpos : 0 < inject_Z (Zpos d)).
  { change 0 with (inject_Z 0). rewrite <- Zlt_Qlt. lia. }
  (* upper bound: n/d < 2^(ln - ld + 1) *)
  assert (Hup : n # d < 2 ^ (ln - ld + 1)).
  { rewrite Hq. apply Qlt_shift_div_r; [exact Hdpos|].
    replace (ln - ld + 1)%Z with ((ln + 1) + - ld)%Z by lia.
    rewrite pow2_plus, Qpower_opp.
    apply Qlt_le_trans with (2 ^ (ln + 1)).
    - rewrite pow2_Z by lia. rewrite <- Zlt_Qlt. replace (ln + 1)%Z with (Z.succ ln) by lia. exact Hn2.
    - assert (H : 2 ^ ld <= inject_Z (Zpos d)).
      { rewrite pow2_Z by lia. rewrite <- Zle_Qle. exact Hd1. }
      pose proof (pow2_pos (ln + 1)). pose proof (pow2_pos ld).
      setoid_replace (2 ^ (ln + 1)) with (2 ^ (ln + 1) * / 2 ^ ld * 2 ^ ld) at 1
        by (field; intros E; rewrite E in H1; lra).
      apply Qmult_le_l; [|exact H].
      apply Qmult_lt_0_compat; [exact H0|]. apply Qinv_lt_0_compat. exact H1. }
  assert (Hlow : 2 ^ (ln - ld - 1) <= n # d).
  { rewrite Hq. apply Qle_shift_div_l; [exact Hdpos|].
    replace (ln - ld - 1)%Z with (ln + - (ld + 1))%Z by lia.
    rewrite pow2_plus, Qpower_opp.
    apply Qle_trans with (2 ^ ln).
    - assert (H : inject_Z (Zpos d) <= 2 ^ (ld + 1)).
      { rewrite pow2_Z by lia. rewrite <- Zle_Qle. lia. }
      pose proof (pow2_pos ln). pose proof (pow2_pos (ld + 1)).
      setoid_replace (2 ^ ln) with (2 ^ ln * / 2 ^ (ld + 1) * 2 ^ (ld + 1)) at 2
        by (field; intros E; rewrite E in H1; lra).
      apply Qmult_le_l; [|exact H].
      apply Qmult_lt_0_compat; [exact H0|]. apply Qinv_lt_0_compat. exact H1.
    - rewrite pow2_Z by lia. rewrite <- Zle_Qle. exact Hn1. }
  destruct (Qle_bool (2 ^ (ln - ld)) (n # d)) eqn:E.
  - apply Qle_bool_iff in E. split; assumption.
  - replace (ln - ld - 1 + 1)%Z with (ln - ld)%Z by lia. split; [exact Hlow|].
    apply Qnot_le_lt. intros H. apply Qle_bool_iff in H. congruence.
Qed.

Lemma ilog2_unique (a : Q) (e : Z) :
  0 < a -> 2 ^ e <= a -> a < 2 ^ (e + 1) -> ilog2 a = e.
Proof.
  intros Ha H1 H2. destruct (ilog2_spec a Ha) as [H3 H4].
  assert (2 ^ ilog2 a < 2 ^ (e + 1)) by lra.
  assert (2 ^ e < 2 ^ (ilog2 a + 1)) by lra.
  apply pow2_lt_inv in H, H0. lia.
Qed.

Lemma ilog2_comp (a b : Q) : 0 < a -> a == b -> ilog2 a = ilog2 b.
Proof.
  intros Ha E. assert (Hb : 0 < b) by (rewrite <- E; exact Ha).
  destruct (ilog2_spec b Hb) as [H1 H2].
  apply ilog2_unique; [exact Ha|rewrite E; exact H1|rewrite E; exact H2].
Qed.

Lemma ilog2_le (a b : Q) : 0 < a -> a <= b -> (ilog2 a <= ilog2 b)%Z.
Proof.
  intros Ha Hab. assert (Hb : 0 < b) by lra.
  destruct (ilog2_spec a Ha) as [H1 _]. destruct (ilog2_spec b Hb) as [_ H2].
  assert (H : 2 ^ ilog2 a < 2 ^ (ilog2 b + 1)) by lra.
  apply pow2_lt_inv in H. lia.
Qed.

Lemma rne_comp (x y : Q) : x == y -> rne x = rne y.
Proof.
  intros E. unfold rne. rewrite (Qfloor_comp _ _ E).
  rewrite (Qcompare_comp (x - inject_Z (Qfloor y)) (y - inject_Z (Qfloor y))
             ltac:(rewrite E; reflexivity) (1 # 2) (1 # 2) ltac:(reflexivity)).
  reflexivity.
Qed.

Lemma ulp_pos (a : Q) : 0 < ulp a.
Proof. apply pow2_pos. Qed.

Lemma rnd_pos_nonneg (a : Q) : 0 <= a -> 0 <= rnd_pos a.
Proof.
  intros Ha. unfold rnd_pos. apply Qmult_le_0_compat; [|apply Qlt_le_weak, ulp_pos].
  change 0 with (inject_Z 0). rewrite <- Zle_Qle. rewrite <- (rne_Z 0).
  apply rne_le. change (inject_Z 0) with 0.
  apply Qle_shift_div_l; [apply ulp_pos|]. lra.
Qed.

Lemma div_ulp_le (a b u : Q) : 0 < u -> a <= b -> a / u <= b / u.
Proof.
  intros Hu Hab. unfold Qdiv. apply Qmult_le_compat_r; [exact Hab|].
  apply Qlt_le_weak, Qinv_lt_0_compat, Hu.
Qed.

(** Below the next power of two, a value rounds at most to it. *)
Lemma rnd_pos_upper (a : Q) :
  0 < a -> rnd_pos a <= 2 ^ (Z.max (ilog2 a) (-1022) + 1).
Proof.
  intros Ha. destruct (ilog2_spec a Ha) as [_ Hup]. unfold rnd_pos, ulp.
  set (E := Z.max (ilog2 a) (-1022)).
  assert (Hle : a <= 2 ^ (E + 1)).
  { apply Qlt_le_weak. eapply Qlt_le_trans; [exact Hup|]. apply pow2_le. lia. }
  assert (Hdiv : a / 2 ^ (E - 52) <= inject_Z (2 ^ 53)).
  { apply Qle_shift_div_r; [apply pow2_pos|].
    rewrite <- (pow2_Z 53) by lia. rewrite <- pow2_plus.
    replace (53 + (E - 52))%Z with (E + 1)%Z by lia. exact Hle. }
  apply rne_le in Hdiv. rewrite rne_Z in Hdiv.
  replace (E + 1)%Z with (53 + (E - 52))%Z by lia. rewrite pow2_plus.
  apply Qmult_le_compat_r; [|apply Qlt_le_weak, pow2_pos].
  rewrite (pow2_Z 53) by lia. rewrite <- Zle_Qle. exact Hdiv.
Qed.

(** From a power of two on, a value rounds at least to it. *)
Lemma rnd_pos_lower (a : Q) :
  0 < a -> (-1022 <= ilog2 a)%Z -> 2 ^ ilog2 a <= rnd_pos a.
Proof.
  intros Ha He. destruct (ilog2_spec a Ha) as [Hlow _]. unfold rnd_pos, ulp.
  replace (Z.max (ilog2 a) (-1022)) with (ilog2 a) by lia.
  set (e := ilog2 a) in *.
  assert (Hdiv : inject_Z (2 ^ 52) <= a / 2 ^ (e - 52)).
  { apply Qle_shift_div_l; [apply pow2_pos|].
    rewrite <- (pow2_Z 52) by lia. rewrite <- pow2_plus.
    replace (52 + (e - 52))%Z with e by lia. exact Hlow. }
  apply rne_le in Hdiv. rewrite rne_Z in Hdiv.
  replace e with (52 + (e - 52))%Z at 1 by lia. rewrite pow2_plus.
  apply Qmult_le_compat_r; [|apply Qlt_le_weak, pow2_pos].
  rewrite (pow2_Z 52) by lia. rewrite <- Zle_Qle. exact Hdiv.
Qed.

Lemma rnd_pos_le (a b : Q) : 0 < a -> a <= b -> rnd_pos a <= rnd_pos b.
Proof.
  intros Ha Hab. assert (Hb : 0 < b) by lra.
  pose proof (ilog2_le a b Ha Hab) as Hlog.
  destruct (Z.eq_dec (Z.max (ilog2 a) (-1022)) (Z.max (ilog2 b) (-1022))) as [E|E].
  - unfold rnd_pos, ulp. rewrite E.
    apply Qmult_le_compat_r; [|apply Qlt_le_weak, pow2_pos].
    rewrite <- Zle_Qle. apply rne_le, div_ulp_le; [apply pow2_pos|exact Hab].
  - eapply Qle_trans; [apply rnd_pos_upper, Ha|].
    eapply Qle_trans; [|apply rnd_pos_lower; [exact Hb|lia]].
    apply pow2_le. lia.
Qed.

(** A value with at most 53 significant bits above the smallest exponent
    is its own rounding. *)
Lemma rnd_pos_exact (m e : Z) :
  (0 < m <= 2 ^ 53)%Z -> (-1074 <= e)%Z ->
  rnd_pos (inject_Z m * 2 ^ e) == inject_Z m * 2 ^ e.
Proof.
  intros Hm He.
  assert (Hmq : 0 < inject_Z m).
  { change 0 with (inject_Z 0). rewrite <- Zlt_Qlt. lia. }
  assert (Ha : 0 < inject_Z m * 2 ^ e).
  { apply Qmult_lt_0_compat; [exact Hmq|apply pow2_pos]. }
  pose proof (Z.log2_spec m ltac:(lia)) as [Hl1 Hl2].
  pose proof (Z.log2_nonneg m) as Hl0.
  set (lm := Z.log2 m) in *.
  assert (Hlog : ilog2 (inject_Z m * 2 ^ e) = (lm + e)%Z).
  { apply ilog2_unique; [exact Ha| |].
    - rewrite pow2_plus. apply Qmult_le_compat_r; [|apply Qlt_le_weak, pow2_pos].
      rewrite (pow2_Z lm) by lia. rewrite <- Zle_Qle. exact Hl1.
    - replace (lm + e + 1)%Z with ((lm + 1) + e)%Z by lia. rewrite pow2_plus.
      apply Qmult_lt_compat_r; [apply pow2_pos|].
      rewrite (pow2_Z (lm + 1)) by lia. rewrite <- Zlt_Qlt. lia. }
  unfold rnd_pos, ulp. rewrite Hlog.
  set (E := Z.max (lm + e) (-1022)).
  assert (Hlm : (lm <= 53)%Z).
  { destruct (Z_lt_le_dec 53 lm) as [H|H]; [|exact H].
    exfalso. assert (2 ^ 54 <= 2 ^ lm)%Z by (apply Z.pow_le_mono_r; lia). lia. }
  destruct (Z_lt_le_dec lm 53) as [Hlt|Hge].
  - (* fewer than 54 bits: the quotient by the unit is an integer *)
    assert (Hs : (0 <= e - (E - 52))%Z) by lia.
    pose proof (pow2_split e (E - 52)) as Hsplit.
    pose proof (pow2_pos (E - 52)) as Hu.
    assert (Hq : inject_Z m * 2 ^ e / 2 ^ (E - 52) == inject_Z (m * 2 ^ (e - (E - 52)))).
    { rewrite inject_Z_mult, <- (pow2_Z (e - (E - 52))) by lia.
      rewrite Hsplit. field. intros H. lra. }
    rewrite (rne_comp _ _ Hq), rne_Z.
    rewrite inject_Z_mult, <- (pow2_Z (e - (E - 52))) by lia.
    rewrite Hsplit. ring.
  - (* m = 2^53 *)
    assert (Em : m = (2 ^ 53)%Z).
    { assert (lm = 53%Z) by lia. assert (2 ^ 53 <= m)%Z by (rewrite <- H; exact Hl1). lia. }
    assert (HE : (E - 52 = e + 1)%Z) by lia.
    rewrite HE, Em.
    pose proof (pow2_pos e) as Hpe.
    pose proof (pow2_plus e 1) as Hp.
    assert (H21 : 2 ^ 1 == 2) by reflexivity.
    assert (H53 : inject_Z (2 ^ 53) == inject_Z (2 ^ 52) * 2) by reflexivity.
    assert (Hq : inject_Z (2 ^ 53) * 2 ^ e / 2 ^ (e + 1) == inject_Z (2 ^ 52)).
    { rewrite Hp, H21, H53. field. intros H. lra. }
    rewrite (rne_comp _ _ Hq), rne_Z.
    rewrite Hp, H21, H53. ring.
Qed.

Lemma rnd_pos_comp (a b : Q) : 0 < a -> a == b -> rnd_pos a == rnd_pos b.
Proof.
  intros Ha E. unfold rnd_pos, ulp. rewrite (ilog2_comp a b Ha E).
  rewrite (rne_comp (a / 2 ^ (Z.max (ilog2 b) (-1022) - 52))
                    (b / 2 ^ (Z.max (ilog2 b) (-1022) - 52)))
    by (rewrite E; reflexivity).
  reflexivity.
Qed.

Lemma rnd_comp (q q' : Q) : q == q' -> rnd q == rnd q'.
Proof.
  intros E. unfold rnd.
  assert (Hc : Qcompare q 0 = Qcompare q' 0).
  { apply Qcompare_comp; [exact E|reflexivity]. }
  rewrite Hc. destruct (Qcompare_spec q' 0) as [H|H|H].
  - reflexivity.
  - apply Qopp_comp, rnd_pos_comp; [rewrite E; lra|rewrite E; reflexivity].
  - apply rnd_pos_comp; [rewrite E; exact H|exact E].
Qed.

#[local] Instance rnd_Proper : Proper (Qeq ==> Qeq) rnd.
Proof. intros q q' E. apply rnd_comp, E. Qed.

Lemma rnd_0 : rnd 0 == 0.
Proof. reflexivity. Qed.

Lemma rnd_positive (q : Q) : 0 < q -> rnd q = rnd_pos q.
Proof.
  intros H. unfold rnd. destruct (Qcompare_spec q 0) as [E|E|E];
    [exfalso; lra|exfalso; lra|reflexivity].
Qed.

Lemma rnd_negative (q : Q) : q < 0 -> rnd q = - rnd_pos (- q).
Proof.
  intros H. unfold rnd. destruct (Qcompare_spec q 0) as [E|E|E];
    [exfalso; lra|reflexivity|exfalso; lra].
Qed.

Lemma rnd_nonneg (q : Q) : 0 <= q -> 0 <= rnd q.
Proof.
  intros H. unfold rnd. destruct (Qcompare_spec q 0) as [E|E|E].
  - lra.
  - exfalso; lra.
  - apply rnd_pos_nonneg. lra.
Qed.

Lemma rnd_opp (q : Q) : rnd (- q) == - rnd q.
Proof.
  destruct (Qcompare_spec q 0) as [E|E|E].
  - rewrite E. reflexivity.
  - rewrite (rnd_negative q E), (rnd_positive (- q)) by lra. lra.
  - rewrite (rnd_positive q E), (rnd_negative (- q)) by lra.
    rewrite (rnd_pos_comp (- - q) q) by lra. reflexivity.
Qed.

Lemma rnd_nonpos (q : Q) : q <= 0 -> rnd q <= 0.
Proof.
  intros H. assert (H' : 0 <= rnd (- q)) by (apply rnd_nonneg; lra).
  rewrite rnd_opp in H'. lra.
Qed.

(** Rounding is monotone. *)
Lemma rnd_le (q q' : Q) : q <= q' -> rnd q <= rnd q'.
Proof.
  intros H. destruct (Qlt_le_dec 0 q) as [Hq|Hq].
  - rewrite (rnd_positive q Hq), (rnd_positive q') by lra.
    apply rnd_pos_le; assumption.
  - destruct (Qlt_le_dec q' 0) as [Hq'|Hq'].
    + rewrite (rnd_negative q), (rnd_negative q' Hq') by lra.
      apply Qopp_le_compat, rnd_pos_le; lra.
    + apply Qle_trans with 0; [apply rnd_nonpos, Hq|apply rnd_nonneg, Hq'].
Qed.

(** The values of the format: at most 53 significant bits, exponent at
    least that of the smallest subnormal number. *)
Lemma rnd_exact (m e : Z) :
  (Z.abs m <= 2 ^ 53)%Z -> (-1074 <= e)%Z ->
  rnd (inject_Z m * 2 ^ e) == inject_Z m * 2 ^ e.
Proof.
  intros Hm He. pose proof (pow2_pos e) as Hp.
  destruct (Z.lt_trichotomy m 0) as [H|[H|H]].
  - assert (Hneg : inject_Z m * 2 ^ e < 0).
    { setoid_replace (inject_Z m * 2 ^ e) with (- (inject_Z (- m) * 2 ^ e))
        by (rewrite inject_Z_opp; ring).
      assert (0 < inject_Z (- m) * 2 ^ e).
      { apply Qmult_lt_0_compat; [|exact Hp].
        change 0 with (inject_Z 0). rewrite <- Zlt_Qlt. lia. }
      lra. }
    rewrite (rnd_negative _ Hneg).
    rewrite (rnd_pos_comp (- (inject_Z m * 2 ^ e)) (inject_Z (- m) * 2 ^ e)).
    + rewrite rnd_pos_exact by lia. rewrite inject_Z_opp. ring.
    + lra.
    + rewrite inject_Z_opp. ring.
  - subst m. setoid_replace (inject_Z 0 * 2 ^ e) with 0 by ring. reflexivity.
  - assert (Hpos : 0 < inject_Z m * 2 ^ e).
    { apply Qmult_lt_0_compat; [|exact Hp].
      change 0 with (inject_Z 0). rewrite <- Zlt_Qlt. lia. }
    rewrite (rnd_positive _ Hpos). apply rnd_pos_exact; lia.
Qed.

Lemma rnd_Z (z : Z) : (Z.abs z <= 2 ^ 53)%Z -> rnd (inject_Z z) == inject_Z z.
Proof.
  intros H. setoid_replace (inject_Z z) with (inject_Z z * 2 ^ 0) by (cbn; ring).
  apply rnd_exact; [exact H|lia].
Qed.

(** Every rounded value is a value of the format. *)
Lemma rnd_pos_repr (a : Q) :
  0 < a ->
  exists m e, (0 <= m <= 2 ^ 53)%Z /\ (-1074 <= e)%Z /\
              rnd_pos a == inject_Z m * 2 ^ e.
Proof.
  intros Ha. destruct (ilog2_spec a Ha) as [_ Hup].
  set (E := Z.max (ilog2 a) (-1022)).
  exists (rne (a / ulp a)), (E - 52)%Z. split; [|split; [lia|reflexivity]].
  unfold ulp. fold E.
  assert (Hle : a <= 2 ^ (E + 1)).
  { apply Qlt_le_weak. eapply Qlt_le_trans; [exact Hup|]. apply pow2_le. lia. }
  split.
  - rewrite <- (rne_Z 0). apply rne_le. change (inject_Z 0) with 0.
    apply Qle_shift_div_l; [apply pow2_pos|]. lra.
  - rewrite <- (rne_Z (2 ^ 53)). apply rne_le.
    apply Qle_shift_div_r; [apply pow2_pos|].
    rewrite <- (pow2_Z 53) by lia. rewrite <- pow2_plus.
    replace (53 + (E - 52))%Z with (E + 1)%Z by lia. exact Hle.
Qed.

Lemma rnd_repr (q : Q) :
  exists m e, (Z.abs m <= 2 ^ 53)%Z /\ (-1074 <= e)%Z /\
              rnd q == inject_Z m * 2 ^ e.
Proof.
  destruct (Qcompare_spec q 0) as [E|E|E].
  - exists 0%Z, 0%Z. split; [lia|split; [lia|]]. rewrite E. reflexivity.
  - destruct (rnd_pos_repr (- q)) as (m & e & Hm & He & Hr); [lra|].
    exists (- m)%Z, e. split; [lia|split; [exact He|]].
    rewrite (rnd_negative q E), Hr, inject_Z_opp. ring.
  - destruct (rnd_pos_repr q E) as (m & e & Hm & He & Hr).
    exists m, e. split; [lia|split; [exact He|]].
    rewrite (rnd_positive q E). exact Hr.
Qed.

(** Rounding twice is rounding once. *)
Lemma rnd_idem (q : Q) : rnd (rnd q) == rnd q.
Proof.
  destruct (rnd_repr q) as (m & e & Hm & He & Hr).
  rewrite Hr. apply rnd_exact; assumption.
Qed.

Lemma binary64_rnd (q : Q) : binary64 (rnd q).
Proof. apply rnd_idem. Qed.

Lemma binary64_Z (z : Z) : (Z.abs z <= 2 ^ 53)%Z -> binary64 (inject_Z z).
Proof. apply rnd_Z. Qed.

Lemma rnd_lower (a q : Q) : binary64 a -> a <= q -> a <= rnd q.
Proof. intros Ha H. unfold binary64 in Ha. rewrite <- Ha. apply rnd_le, H. Qed.

Lemma rnd_upper (b q : Q) : binary64 b -> q <= b -> rnd q <= b.
Proof. intros Hb H. unfold binary64 in Hb. rewrite <- Hb. apply rnd_le, H. Qed.

(** A value of the format below a rounded number is below the number. *)
Lemma binary64_lt_rnd (v x : Q) : binary64 v -> v < rnd x -> v < x.
Proof.
  intros Hv H. unfold binary64 in Hv. apply Qnot_le_lt. intros Hle.
  apply rnd_le in Hle. rewrite Hv in Hle. lra.
Qed.

Lemma binary64_floor (q : Q) : binary64 q -> binary64 (inject_Z (Qfloor q)).
Proof.
  intros Hq. unfold binary64 in Hq. destruct (rnd_repr q) as (m & e & Hm & He & Hr).
  rewrite Hq in Hr.
  destruct (Z_lt_le_dec e 0) as [Hneg|Hpos].
  - apply binary64_Z.
    assert (Hb : - inject_Z (2 ^ 53) <= q /\ q <= inject_Z (2 ^ 53)).
    { rewrite Hr.
      assert (H1 : 2 ^ e <= 1) by (apply (pow2_le e 0); lia).
      pose proof (pow2_pos e) as H0.
      assert (Hlo : inject_Z (- 2 ^ 53) <= inject_Z m) by (rewrite <- Zle_Qle; lia).
      assert (Hhi : inject_Z m <= inject_Z (2 ^ 53)) by (rewrite <- Zle_Qle; lia).
      rewrite inject_Z_opp in Hlo.
      set (M := inject_Z (2 ^ 53)) in *.
      assert (HM : 0 <= M) by (unfold M; change 0 with (inject_Z 0); rewrite <- Zle_Qle; lia).
      split; nra. }
    destruct Hb as [Hlo Hhi].
    apply Qfloor_resp_le in Hlo, Hhi.
    rewrite <- inject_Z_opp, Qfloor_Z in Hlo. rewrite Qfloor_Z in Hhi. lia.
  - assert (Hint : q == inject_Z (m * 2 ^ e)).
    { rewrite Hr, inject_Z_mult, <- (pow2_Z e) by lia. reflexivity. }
    unfold binary64. rewrite (Qfloor_comp _ _ Hint), Qfloor_Z, <- Hint. exact Hq.
Qed.

Lemma near_comp (x y : Q) : x == y -> near x = near y.
Proof.
  intros E. unfold near. f_equal. apply Qred_complete, rnd_comp, E.
Qed.

Lemma Qeq_bool_false (a b : Q) : ~ a == b -> Qeq_bool a b = false.
Proof.
  intros H. destruct (Qeq_bool a b) eqn:E; [|reflexivity].
  apply Qeq_bool_iff in E. contradiction.
Qed.

Lemma Qeq_bool_true (a b : Q) : a == b -> Qeq_bool a b = true.
Proof. intros H. apply Qeq_bool_iff, H. Qed.

Lemma binary64_pow2 (e : Z) : (-1074 <= e)%Z -> binary64 (2 ^ e).
Proof.
  intros He. unfold binary64.
  setoid_replace (2 ^ e) with (inject_Z 1 * 2 ^ e) by ring.
  apply rnd_exact; [cbn; lia|exact He].
Qed.

Lemma round64_near (q : Q) : 0 <= q -> q <= 2 ^ 1023 -> round64 q = near q.
Proof.
  intros H0 Hq. unfold round64, near.
  assert (Hr0 : 0 <= rnd q) by apply rnd_nonneg, H0.
  assert (Hr1 : rnd q <= 2 ^ 1023) by (apply rnd_upper; [apply binary64_pow2; lia|exact Hq]).
  pose proof (pow2_lt 1023 1024 ltac:(lia)) as Hlt.
  pose proof (pow2_pos 1024) as Hpos.
  assert (E1 : Qle_bool (2 ^ 1024) (rnd q) = false) by (apply Qle_bool_false; lra).
  assert (E2 : Qle_bool (rnd q) (- 2 ^ 1024) = false) by (apply Qle_bool_false; lra).
  assert (E3 : Qle_bool 0 q = true) by (apply Qle_bool_iff, H0).
  rewrite E1, E2, E3, andb_false_r. reflexivity.
Qed.

Lemma near_0 (q : Q) : q == 0 -> near q = Fin 0.
Proof. intros E. rewrite (near_comp q 0 E). reflexivity. Qed.

(** *** The operations on finite non-negative operands *)

Lemma fadd_Fin (a b : Q) :
  0 <= a + b -> a + b <= 2 ^ 1023 -> fadd (Fin a) (Fin b) = near (a + b).
Proof. intros H0 H1. simpl. apply round64_near; assumption. Qed.

Lemma fsub_Fin (a b : Q) :
  0 <= a - b -> a - b <= 2 ^ 1023 -> fsub (Fin a) (Fin b) = near (a - b).
Proof.
  intros H0 H1. unfold fsub, fneg. destruct (Qeq_bool b 0) eqn:E.
  - apply Qeq_bool_iff in E. simpl.
    rewrite round64_near by lra. apply near_comp. rewrite E. ring.
  - simpl. rewrite round64_near by lra. apply near_comp. ring.
Qed.

Lemma fmul_Fin (a b : Q) :
  0 <= a -> 0 <= b -> a * b <= 2 ^ 1023 -> fmul (Fin a) (Fin b) = near (a * b).
Proof.
  intros Ha Hb H1. unfold fmul. cbn [finite_value is_negative].
  assert (Ea : Qle_bool 0 a = true) by (apply Qle_bool_iff, Ha).
  assert (Eb : Qle_bool 0 b = true) by (apply Qle_bool_iff, Hb).
  rewrite Ea, Eb. cbn [negb xorb zero].
  destruct (Qeq_bool (a * b) 0) eqn:E.
  - apply Qeq_bool_iff in E. symmetry. apply near_0, E.
  - apply round64_near; [apply Qmult_le_0_compat; assumption|exact H1].
Qed.

Lemma fdiv_Fin (a b : Q) :
  0 <= a -> 0 < b -> a / b <= 2 ^ 1023 -> fdiv (Fin a) (Fin b) = near (a / b).
Proof.
  intros Ha Hb H1. unfold fdiv. cbn [finite_value is_negative].
  assert (Ea : Qle_bool 0 a = true) by (apply Qle_bool_iff, Ha).
  assert (Eb : Qle_bool 0 b = true) by (apply Qle_bool_iff; lra).
  rewrite Ea, Eb. cbn [negb xorb zero].
  rewrite (Qeq_bool_false b 0) by lra.
  destruct (Qeq_bool a 0) eqn:E.
  - apply Qeq_bool_iff in E. symmetry. apply near_0. rewrite E. field. lra.
  - apply round64_near; [|exact H1].
    apply Qle_shift_div_l; [exact Hb|lra].
Qed.

Lemma fleb_Fin (a b : Q) : fleb (Fin a) (Fin b) = Qle_bool a b.
Proof. reflexivity. Qed.

Lemma of_int_near (z : Z) : (0 <= z <= 2 ^ 64)%Z -> of_int z = near (inject_Z z).
Proof.
  intros Hz. unfold of_int. apply round64_near.
  - change 0 with (inject_Z 0). rewrite <- Zle_Qle. lia.
  - apply Qle_trans with (2 ^ 64); [|apply pow2_le; lia].
    rewrite (pow2_Z 64) by lia. rewrite <- Zle_Qle. lia.
Qed.

Lemma Qred_near (q : Q) : Qred (rnd q) == rnd q.
Proof. apply Qred_correct. Qed.

Lemma near_rnd (x y : Q) : x == rnd y -> near x = near y.
Proof.
  intros E. unfold near. f_equal. apply Qred_complete.
  rewrite E. apply rnd_idem.
Qed.

Lemma inject_Z_nonneg (z : Z) : (0 <= z)%Z -> 0 <= inject_Z z.
Proof. intros H. change 0 with (inject_Z 0). rewrite <- Zle_Qle. exact H. Qed.

Lemma inject_Z_le_pow2 (z k : Z) : (0 <= k)%Z -> (z <= 2 ^ k)%Z -> inject_Z z <= 2 ^ k.
Proof. intros Hk H. rewrite (pow2_Z k) by exact Hk. rewrite <- Zle_Qle. exact H. Qed.

Lemma rnd_Z_nonneg (z : Z) : (0 <= z)%Z -> 0 <= rnd (inject_Z z).
Proof. intros H. apply rnd_nonneg, inject_Z_nonneg, H. Qed.

Lemma rnd_Z_le_pow2 (z k : Z) :
  (0 <= k)%Z -> (z <= 2 ^ k)%Z -> rnd (inject_Z z) <= 2 ^ k.
Proof.
  intros Hk H. apply rnd_upper; [apply binary64_pow2; lia|].
  apply inject_Z_le_pow2; assumption.
Qed.

Lemma binary64_1 : binary64 1.
Proof. apply (binary64_Z 1). cbn. lia. Qed.

Lemma binary64_100 : binary64 100.
Proof. apply (binary64_Z 100). cbn. lia. Qed.

Lemma binary64_half : binary64 (1 # 2).
Proof. apply (binary64_pow2 (-1)). lia. Qed.

Lemma pow2_63_le : 2 ^ 63 <= 2 ^ 1023.
Proof. apply pow2_le. lia. Qed.

Lemma pow2_64_le : 2 ^ 64 <= 2 ^ 1023.
Proof. apply pow2_le. lia. Qed.

Lemma one_le_pow2_63 : 1 <= 2 ^ 63.
Proof. apply (pow2_le 0 63). lia. Qed.

(** *** int64 without overflow *)

Lemma wrap64_id (z : Z) : (- 2 ^ 63 <= z < 2 ^ 63)%Z -> wrap64 z = z.
Proof.
  intros H. unfold wrap64. rewrite Z.mod_small; lia.
Qed.

Lemma total_of_nonneg (xs : list Z) :
  Forall (fun x => 0 <= x)%Z xs -> (0 <= total_of xs)%Z.
Proof. induction 1 as [|x xs Hx _ IH]; simpl; lia. Qed.

Lemma sum64_from (xs : list Z) :
  Forall (fun x => 0 <= x)%Z xs ->
  forall acc, (0 <= acc)%Z -> (acc + total_of xs < 2 ^ 63)%Z ->
  fold_left add64 xs acc = (acc + total_of xs)%Z.
Proof.
  induction 1 as [|x xs Hx Hxs IH]; intros acc Hacc Hsum; simpl in *.
  - lia.
  - pose proof (total_of_nonneg xs Hxs) as Ht.
    unfold add64 at 2. rewrite wrap64_id by lia.
    rewrite IH by lia. lia.
Qed.

Lemma sum64_exact (xs : list Z) :
  Forall (fun x => 0 <= x)%Z xs -> (total_of xs < 2 ^ 63)%Z ->
  sum64 xs = total_of xs.
Proof.
  intros Hxs Hsum. unfold sum64. rewrite (sum64_from xs Hxs 0%Z); lia.
Qed.

Lemma total_of_filter (f : Z -> bool) (xs : list Z) :
  Forall (fun x => 0 <= x)%Z xs ->
  (0 <= total_of (filter f xs) <= total_of xs)%Z.
Proof.
  induction 1 as [|x xs Hx _ IH]; simpl.
  - lia.
  - destruct (f x); simpl; lia.
Qed.

Lemma Forall_filter {A : Type} (P : A -> Prop) (f : A -> bool) (l : list A) :
  Forall P l -> Forall P (filter f l).
Proof.
  induction 1 as [|x l Hx _ IH]; simpl; [constructor|].
  destruct (f x); [constructor; assumption|assumption].
Qed.

Lemma select_map_snd (f : Z -> bool) (rows : list (string * Z)) :
  map snd (select rows (map f (map snd rows))) = filter f (map snd rows).
Proof.
  induction rows as [|[label x] rows IH]; simpl; [reflexivity|].
  destruct (f x); simpl; rewrite IH; reflexivity.
Qed.

Lemma total_of_member (xs : list Z) (x : Z) :
  Forall (fun x => 0 <= x)%Z xs -> In x xs -> (x <= total_of xs)%Z.
Proof.
  induction 1 as [|y xs Hy Hxs IH]; intros Hin; simpl in *; [contradiction|].
  pose proof (total_of_nonneg xs Hxs). destruct Hin as [->|Hin]; [lia|].
  specialize (IH Hin). lia.
Qed.

Lemma upto_64 (x : Q) : x <= 2 ^ 64 -> x <= 2 ^ 1023.
Proof. intros H. eapply Qle_trans; [exact H|apply pow2_64_le]. Qed.

Lemma upto_63 (x : Q) : x <= 2 ^ 63 -> x <= 2 ^ 64.
Proof. intros H. eapply Qle_trans; [exact H|apply pow2_le; lia]. Qed.

Lemma hundred_le : 100 <= 2 ^ 64.
Proof. apply (inject_Z_le_pow2 100 64); [lia|]. apply Z.leb_le. reflexivity. Qed.

Lemma one_le : 1 <= 2 ^ 64.
Proof. apply (pow2_le 0 64). lia. Qed.

Lemma in_unit_interval_Fin (q : Q) :
  0 <= q -> q <= 1 -> in_unit_interval (Fin q) = true.
Proof.
  intros H0 H1. unfold in_unit_interval. rewrite !fleb_Fin.
  rewrite (proj2 (Qle_bool_iff 0 q) H0), (proj2 (Qle_bool_iff q 1) H1).
  reflexivity.
Qed.

Lemma scaled_quantile_bounds (q : Q) :
  0 <= q -> q <= 1 -> 0 <= rnd (rnd (q * 100) / 100) /\ rnd (rnd (q * 100) / 100) <= 1.
Proof.
  intros H0 H1.
  assert (Ha : 0 <= rnd (q * 100)) by (apply rnd_nonneg; lra).
  assert (Hb : rnd (q * 100) <= 100) by (apply rnd_upper; [apply binary64_100|lra]).
  split.
  - apply rnd_nonneg. apply Qle_shift_div_l; lra.
  - apply rnd_upper; [apply binary64_1|]. apply Qle_shift_div_r; lra.
Qed.

Lemma percent_scaling (q : Q) :
  0 <= q -> q <= 1 ->
  fdiv (fmul (Fin q) (Fin 100)) (Fin 100) = near (rnd (q * 100) / 100).
Proof.
  intros H0 H1. pose proof hundred_le as H100.
  assert (Ha : 0 <= rnd (q * 100)) by (apply rnd_nonneg; lra).
  assert (Hb : rnd (q * 100) <= 100) by (apply rnd_upper; [apply binary64_100|lra]).
  rewrite fmul_Fin; [|lra|lra|apply upto_64; lra].
  unfold near at 1. rewrite fdiv_Fin.
  - apply near_comp. rewrite Qred_correct. reflexivity.
  - rewrite Qred_correct. exact Ha.
  - lra.
  - rewrite Qred_correct. apply upto_64.
    apply Qle_trans with 1; [apply Qle_shift_div_r; lra|apply one_le].
Qed.

(** *** The virtual index *)

Lemma of_int_exact (z : Z) :
  (0 <= z <= 2 ^ 53)%Z -> exists v, of_int z = Fin v /\ v == inject_Z z.
Proof.
  intros Hz. exists (Qred (rnd (inject_Z z))). split.
  - apply of_int_near. lia.
  - rewrite Qred_correct. apply rnd_Z. lia.
Qed.

Lemma get_virtual_index_near (n : nat) (q : Q) :
  (1 <= n)%nat -> (Z.of_nat n <= 2 ^ 53)%Z -> 0 <= q -> q <= 1 ->
  get_virtual_index (Z.of_nat n) (Fin q) = near (inject_Z (Z.of_nat n - 1) * q).
Proof.
  intros Hn Hn53 H0 H1. unfold get_virtual_index.
  destruct (of_int_exact (Z.of_nat n - 1)) as (v & -> & Hv); [lia|].
  assert (Hv0 : 0 <= v) by (rewrite Hv; apply inject_Z_nonneg; lia).
  assert (Hv1 : v <= 2 ^ 64).
  { rewrite Hv. apply inject_Z_le_pow2; lia. }
  rewrite fmul_Fin; [|exact Hv0|exact H0|].
  - apply near_comp. rewrite Hv. reflexivity.
  - apply upto_64. apply Qle_trans with (v * 1); [nra|lra].
Qed.

(** *** The neighbouring indexes *)

Lemma to_intp_exact (x : Q) (z : Z) :
  x == inject_Z z -> (0 <= z < 2 ^ 63)%Z -> to_intp (Fin x) = z.
Proof.
  intros E Hz. unfold to_intp.
  assert (H0 : Qle_bool 0 x = true).
  { apply Qle_bool_iff. rewrite E. apply inject_Z_nonneg. lia. }
  rewrite H0, (Qfloor_comp _ _ E), Qfloor_Z. apply wrap64_id. lia.
Qed.

Lemma fltb_zero (v : Q) : 0 <= v -> fltb (Fin v) (Fin 0) = false.
Proof.
  intros H. unfold fltb. rewrite !fleb_Fin.
  rewrite (proj2 (Qle_bool_iff 0 v) H). apply andb_false_r.
Qed.

Lemma get_indexes_above (v : Q) (n : nat) :
  (1 <= n)%nat -> (Z.of_nat n <= 2 ^ 53)%Z -> 0 <= v ->
  inject_Z (Z.of_nat n - 1) <= v ->
  get_indexes (Fin v) (Z.of_nat n) = ((-1)%Z, (-1)%Z).
Proof.
  intros Hn Hn53 H0 Hv. unfold get_indexes.
  destruct (of_int_exact (Z.of_nat n - 1)) as (w & -> & Hw); [lia|].
  assert (Ha : fgeb (Fin v) (Fin w) = true).
  { unfold fgeb. rewrite fleb_Fin. apply Qle_bool_iff. rewrite Hw. exact Hv. }
  rewrite Ha, (fltb_zero v H0). reflexivity.
Qed.

Lemma floor_bounds (v : Q) (n : nat) :
  0 <= v -> v < inject_Z (Z.of_nat n - 1) ->
  (0 <= Qfloor v /\ Qfloor v + 1 <= Z.of_nat n - 1)%Z.
Proof.
  intros H0 Hv. split.
  - rewrite <- (Qfloor_Z 0). apply Qfloor_resp_le. exact H0.
  - pose proof (Qfloor_le v) as Hf.
    assert (H : inject_Z (Qfloor v) < inject_Z (Z.of_nat n - 1)) by lra.
    rewrite <- Zlt_Qlt in H. lia.
Qed.

Lemma get_indexes_within (v : Q) (n : nat) :
  (Z.of_nat n <= 2 ^ 53)%Z -> 0 <= v -> v < inject_Z (Z.of_nat n - 1) ->
  get_indexes (Fin v) (Z.of_nat n) = (Qfloor v, (Qfloor v + 1)%Z).
Proof.
  intros Hn53 H0 Hv. destruct (floor_bounds v n H0 Hv) as [Hk0 Hk1].
  unfold get_indexes.
  destruct (of_int_exact (Z.of_nat n - 1)) as (w & -> & Hw); [lia|].
  assert (Ha : fgeb (Fin v) (Fin w) = false).
  { unfold fgeb. rewrite fleb_Fin. apply Qle_bool_false. rewrite Hw. exact Hv. }
  rewrite Ha, (fltb_zero v H0).
  set (k := Qfloor v) in *.
  assert (Hfloor : ffloor (Fin v) = near (inject_Z k)).
  { unfold ffloor. fold k. apply round64_near.
    - apply inject_Z_nonneg, Hk0.
    - apply upto_64, inject_Z_le_pow2; lia. }
  rewrite Hfloor. unfold near at 1 2.
  assert (Ek : Qred (rnd (inject_Z k)) == inject_Z k).
  { rewrite Qred_correct. apply rnd_Z. lia. }
  rewrite fadd_Fin.
  - f_equal.
    + apply to_intp_exact; [exact Ek|lia].
    + apply to_intp_exact; [|lia]. unfold near. cbn [finite_value].
      rewrite Qred_correct, Ek.
      setoid_replace (inject_Z k + 1) with (inject_Z (k + 1))
        by (rewrite inject_Z_plus; reflexivity).
      apply rnd_Z. lia.
  - rewrite Ek. pose proof (inject_Z_nonneg k Hk0). lra.
  - rewrite Ek. apply upto_64.
    setoid_replace (inject_Z k + 1) with (inject_Z (k + 1))
      by (rewrite inject_Z_plus; reflexivity).
    apply inject_Z_le_pow2; lia.
Qed.

(** *** The fraction *)

Lemma get_gamma_within (v : Q) :
  0 <= v -> v <= 2 ^ 53 ->
  get_gamma (Fin v) (Qfloor v) = near (v - inject_Z (Qfloor v)).
Proof.
  intros H0 H1. unfold get_gamma.
  assert (Hk0 : (0 <= Qfloor v)%Z).
  { rewrite <- (Qfloor_Z 0). apply Qfloor_resp_le. exact H0. }
  assert (Hk1 : (Qfloor v <= 2 ^ 53)%Z).
  { rewrite <- (Qfloor_Z (2 ^ 53)). apply Qfloor_resp_le.
    rewrite <- (pow2_Z 53) by lia. exact H1. }
  destruct (of_int_exact (Qfloor v)) as (w & -> & Hw); [lia|].
  pose proof (Qfloor_le v) as Hle.
  rewrite fsub_Fin.
  - apply near_comp. rewrite Hw. reflexivity.
  - rewrite Hw. lra.
  - rewrite Hw. apply Qle_trans with (2 ^ 53); [|apply pow2_le; lia].
    pose proof (inject_Z_nonneg _ Hk0). lra.
Qed.

Lemma fraction_bounds (v : Q) :
  0 <= rnd (v - inject_Z (Qfloor v)) /\ rnd (v - inject_Z (Qfloor v)) <= 1.
Proof.
  pose proof (Qfloor_le v) as H0. pose proof (Qlt_floor v) as H1.
  rewrite inject_Z_plus in H1. change (inject_Z 1) with 1 in H1.
  split.
  - apply rnd_nonneg. lra.
  - apply rnd_upper; [apply binary64_1|lra].
Qed.

(** *** The interpolation *)

Lemma sub64_exact (a b : Z) : (0 <= a <= b)%Z -> (b < 2 ^ 63)%Z -> sub64 b a = (b - a)%Z.
Proof. intros H Hb. unfold sub64. apply wrap64_id. lia. Qed.

Lemma of_int_value (z : Z) :
  (0 <= z <= 2 ^ 63)%Z ->
  exists v, of_int z = Fin v /\ v == rnd (inject_Z z) /\ 0 <= v /\ v <= 2 ^ 63.
Proof.
  intros Hz. exists (Qred (rnd (inject_Z z))). split; [|split; [|split]].
  - apply of_int_near. lia.
  - apply Qred_correct.
  - rewrite Qred_correct. apply rnd_Z_nonneg. lia.
  - rewrite Qred_correct. apply rnd_Z_le_pow2; lia.
Qed.

Lemma lerp_near (a b : Z) (t : Q) :
  (0 <= a <= b)%Z -> (b < 2 ^ 63)%Z -> 0 <= t -> t <= 1 ->
  lerp a b (Fin t) = near (interpolation a b t).
Proof.
  intros Hab Hb Ht0 Ht1. unfold lerp, interpolation.
  rewrite (sub64_exact a b Hab Hb).
  destruct (of_int_value a) as (A & -> & EA & HA0 & HA1); [lia|].
  destruct (of_int_value b) as (B & -> & EB & HB0 & HB1); [lia|].
  destruct (of_int_value (b - a)) as (D & -> & ED & HD0 & HD1); [lia|].
  assert (HDB : D <= B).
  { rewrite ED, EB. apply rnd_le. rewrite <- Zle_Qle. lia. }
  pose proof pow2_63_le as H63. pose proof (pow2_le 63 64 ltac:(lia)) as H6364.
  unfold fgeb. rewrite fleb_Fin.
  destruct (Qle_bool (1 # 2) t) eqn:Ehalf.
  - (* the upper formula *)
    rewrite fsub_Fin; [|lra|apply upto_64; apply Qle_trans with 1; [lra|apply one_le]].
    unfold near at 1.
    assert (Hu0 : 0 <= rnd (1 - t)) by (apply rnd_nonneg; lra).
    assert (Hu1 : rnd (1 - t) <= 1) by (apply rnd_upper; [apply binary64_1|lra]).
    rewrite fmul_Fin.
    + unfold near at 1.
      assert (Hm : rnd (D * Qred (rnd (1 - t))) <= D).
      { apply rnd_upper.
        - unfold binary64. rewrite ED. apply rnd_idem.
        - rewrite Qred_correct. nra. }
      assert (Hm0 : 0 <= rnd (D * Qred (rnd (1 - t)))).
      { apply rnd_nonneg. rewrite Qred_correct. nra. }
      rewrite fsub_Fin.
      * apply near_comp. rewrite !Qred_correct, EB, ED. reflexivity.
      * rewrite Qred_correct. lra.
      * rewrite Qred_correct. lra.
    + exact HD0.
    + rewrite Qred_correct. exact Hu0.
    + rewrite Qred_correct. apply Qle_trans with (D * 1); [nra|lra].
  - (* the lower formula *)
    rewrite fmul_Fin; [|exact HD0|exact Ht0|apply Qle_trans with (D * 1); [nra|lra]].
    unfold near at 1.
    assert (Hm : rnd (D * t) <= D).
    { apply rnd_upper.
      - unfold binary64. rewrite ED. apply rnd_idem.
      - nra. }
    assert (Hm0 : 0 <= rnd (D * t)) by (apply rnd_nonneg; nra).
    rewrite fadd_Fin.
    + apply near_comp. rewrite !Qred_correct, EA, ED. reflexivity.
    + rewrite Qred_correct. lra.
    + rewrite Qred_correct. apply upto_64. lra.
Qed.

Lemma binary64_opp (q : Q) : binary64 q -> binary64 (- q).
Proof. unfold binary64. intros H. rewrite rnd_opp, H. reflexivity. Qed.

(** Within the range of the format, rounding gives a finite double. *)
Lemma round64_finite (x : Q) :
  - 2 ^ 1023 <= x -> x <= 2 ^ 1023 ->
  round64 x = NZero \/ exists r, round64 x = Fin r.
Proof.
  intros Hlo Hhi. unfold round64.
  assert (H1 : rnd x <= 2 ^ 1023) by (apply rnd_upper; [apply binary64_pow2; lia|exact Hhi]).
  assert (H2 : - 2 ^ 1023 <= rnd x).
  { apply rnd_lower; [apply binary64_opp, binary64_pow2; lia|exact Hlo]. }
  pose proof (pow2_lt 1023 1024 ltac:(lia)) as Hlt.
  assert (E1 : Qle_bool (2 ^ 1024) (rnd x) = false) by (apply Qle_bool_false; lra).
  assert (E2 : Qle_bool (rnd x) (- 2 ^ 1024) = false) by (apply Qle_bool_false; lra).
  rewrite E1, E2. destruct (Qeq_bool (rnd x) 0 && negb (Qle_bool 0 x)).
  - left. reflexivity.
  - right. eexists. reflexivity.
Qed.

Lemma fmul_zero_finite (y : float64) :
  y = NZero \/ (exists r, y = Fin r) -> exists negative, fmul (Fin 0) y = zero negative.
Proof.
  intros [->|[r ->]].
  - exists true. reflexivity.
  - exists (negb (Qle_bool 0 r)). unfold fmul. cbn [finite_value is_negative].
    rewrite (Qeq_bool_true (0 * r) 0) by ring. reflexivity.
Qed.

Lemma fsub_zero (a : Q) (negative : bool) :
  0 <= a -> a <= 2 ^ 1023 -> fsub (Fin a) (zero negative) = near a.
Proof.
  intros H0 H1. destruct negative; unfold fsub; simpl.
  - rewrite round64_near by lra. apply near_comp. ring.
  - apply round64_near; assumption.
Qed.

(** Between two equal neighbours the interpolation is their value,
    whatever the fraction. *)
Lemma lerp_equal (a : Z) (t : Q) :
  (0 <= a < 2 ^ 63)%Z -> 0 <= t -> t <= 2 ^ 64 ->
  lerp a a (Fin t) = near (inject_Z a).
Proof.
  intros Ha Ht0 Ht1. unfold lerp.
  assert (E0 : of_int (sub64 a a) = Fin 0).
  { unfold sub64. rewrite Z.sub_diag. vm_compute. reflexivity. }
  rewrite E0.
  destruct (of_int_value a) as (A & -> & EA & HA0 & HA1); [lia|].
  pose proof pow2_63_le as H63. pose proof pow2_64_le as H64.
  unfold fgeb. rewrite fleb_Fin.
  destruct (Qle_bool (1 # 2) t) eqn:Ehalf.
  - apply Qle_bool_iff in Ehalf.
    assert (Hy : fsub (Fin 1) (Fin t) = NZero \/ exists r, fsub (Fin 1) (Fin t) = Fin r).
    { unfold fsub, fneg. rewrite (Qeq_bool_false t 0) by lra.
      cbn [fadd]. apply round64_finite.
      - pose proof (pow2_pos 1023). pose proof one_le. lra.
      - pose proof (pow2_pos 1023). pose proof one_le. lra. }
    destruct (fmul_zero_finite _ Hy) as [negative ->].
    rewrite fsub_zero by lra. apply near_rnd, EA.
  - rewrite fmul_Fin; [|lra|exact Ht0|].
    + rewrite (near_0 (0 * t)) by ring.
      rewrite fadd_Fin by lra. apply near_rnd. rewrite EA. ring.
    + pose proof (pow2_pos 1023). lra.
Qed.

(** *** Order statistics of int64 values *)

Lemma Zleb_total (a b : Z) : (a <=? b)%Z = true \/ (b <=? a)%Z = true.
Proof. rewrite !Z.leb_le. lia. Qed.

Lemma Zleb_trans (a b c : Z) :
  (a <=? b)%Z = true -> (b <=? c)%Z = true -> (a <=? c)%Z = true.
Proof. rewrite !Z.leb_le. lia. Qed.

Lemma isort_Z_sorted (xs : list Z) : StronglySorted (holds Z.leb) (isort Z.leb xs).
Proof. apply isort_sorted; [exact Zleb_total|exact Zleb_trans]. Qed.

Lemma sorted_nth_Z (l : list Z) :
  StronglySorted (holds Z.leb) l ->
  forall i j, (i <= j < length l)%nat -> (nth i l 0 <= nth j l 0)%Z.
Proof.
  induction 1 as [|a l Hl IH Ha]; intros i j Hij; simpl in Hij.
  - lia.
  - destruct i as [|i], j as [|j]; simpl; try lia.
    + apply Z.leb_le. rewrite Forall_forall in Ha. apply Ha, nth_In. lia.
    + apply IH. lia.
Qed.

Lemma Forall_nth_Z (P : Z -> Prop) (l : list Z) (i : nat) :
  Forall P l -> (i < length l)%nat -> P (nth i l 0%Z).
Proof.
  intros H Hi. rewrite Forall_forall in H. apply H, nth_In, Hi.
Qed.

Lemma isort_Forall (P : Z -> Prop) (xs : list Z) :
  Forall P xs -> Forall P (isort Z.leb xs).
Proof.
  intros H. apply (Permutation_Forall (Permutation_sym (isort_perm Z.leb xs))), H.
Qed.

Lemma interpolation_comp (a b : Z) (g g' : Q) :
  g == g' -> interpolation a b g == interpolation a b g'.
Proof.
  intros E. unfold interpolation.
  assert (Eb : Qle_bool (1 # 2) g = Qle_bool (1 # 2) g') by (rewrite E; reflexivity).
  rewrite Eb. destruct (Qle_bool (1 # 2) g'); rewrite E; reflexivity.
Qed.

Lemma of_int_minus_one : of_int (-1) = Fin (-1).
Proof. vm_compute. reflexivity. Qed.

(** *** numpy's quantile *)

Lemma np_quantile_near (xs : list Z) (q : Q) :
  (1 <= length xs)%nat -> (Z.of_nat (length xs) <= 2 ^ 53)%Z ->
  Forall int64_magnitude xs -> 0 <= q -> q <= 1 ->
  np_quantile xs (Fin q) =
  near (quantile_value (isort Z.leb xs)
          (rnd (inject_Z (Z.of_nat (length xs) - 1) * q))).
Proof.
  intros Hn Hn53 Hxs H0 H1. unfold np_quantile.
  rewrite (get_virtual_index_near (length xs) q Hn Hn53 H0 H1).
  set (top := inject_Z (Z.of_nat (length xs) - 1)).
  assert (Htop0 : 0 <= top) by (apply inject_Z_nonneg; lia).
  assert (Htop1 : top <= 2 ^ 53) by (apply inject_Z_le_pow2; lia).
  assert (Htop : binary64 top) by (apply binary64_Z; lia).
  set (h := rnd (top * q)).
  assert (Hh0 : 0 <= h) by (apply rnd_nonneg; nra).
  assert (Hh1 : h <= top) by (apply rnd_upper; [exact Htop|nra]).
  change (near (top * q)) with (Fin (Qred h)).
  assert (Eh : Qred h == h) by apply Qred_correct.
  pose proof (isort_Z_sorted xs) as Hsorted.
  pose proof (isort_Forall _ xs Hxs) as Hbounds.
  pose proof (isort_length Z.leb xs) as Hlen.
  set (sorted := isort Z.leb xs) in *.
  unfold quantile_value. rewrite Hlen. fold top.
  pose proof (pow2_le 53 64 ltac:(lia)) as H5364.
  destruct (Qle_bool top h) eqn:Eabove.
  - (* at the last position *)
    apply Qle_bool_iff in Eabove.
    rewrite (get_indexes_above (Qred h) (length xs)); [|exact Hn|exact Hn53|lra|fold top; lra].
    unfold take. change (-1 <? 0)%Z with true. cbv iota.
    replace (Z.to_nat (-1 + Z.of_nat (length sorted))) with (length xs - 1)%nat by lia.
    unfold get_gamma. rewrite of_int_minus_one. unfold fsub, fneg.
    change (Qeq_bool (-1) 0) with false. cbv iota.
    rewrite fadd_Fin; [|lra|apply upto_64; lra].
    unfold near at 1. apply lerp_equal.
    + apply (Forall_nth_Z int64_magnitude); [exact Hbounds|lia].
    + rewrite Qred_correct. apply rnd_nonneg. lra.
    + rewrite Qred_correct. apply rnd_upper; [apply binary64_pow2; lia|lra].
  - (* between two neighbours *)
    apply Qle_bool_false in Eabove.
    assert (Hlt : Qred h < inject_Z (Z.of_nat (length xs) - 1)) by (fold top; lra).
    assert (Hq0 : 0 <= Qred h) by lra.
    destruct (floor_bounds (Qred h) (length xs) Hq0 Hlt) as [Hk0 Hk1].
    rewrite (get_indexes_within (Qred h) (length xs) Hn53 Hq0 Hlt).
    rewrite (get_gamma_within (Qred h)) by lra.
    rewrite (Qfloor_comp _ _ Eh) in *.
    set (k := Qfloor h) in *.
    unfold take.
    replace (k <? 0)%Z with false by (symmetry; apply Z.ltb_ge; lia).
    replace (k + 1 <? 0)%Z with false by (symmetry; apply Z.ltb_ge; lia).
    replace (Z.to_nat (k + 1)) with (S (Z.to_nat k)) by lia.
    unfold near at 1.
    rewrite lerp_near.
    + apply near_comp, interpolation_comp. rewrite Qred_correct, Eh. reflexivity.
    + split.
      * apply (Forall_nth_Z int64_magnitude); [exact Hbounds|lia].
      * apply sorted_nth_Z; [exact Hsorted|lia].
    + apply (Forall_nth_Z int64_magnitude); [exact Hbounds|lia].
    + rewrite Qred_correct, Eh. apply fraction_bounds.
    + rewrite Qred_correct, Eh. apply fraction_bounds.
Qed.

Lemma quantile_value_comp (sorted : list Z) (h h' : Q) :
  h == h' -> quantile_value sorted h == quantile_value sorted h'.
Proof.
  intros E. unfold quantile_value.
  assert (Eb : Qle_bool (inject_Z (Z.of_nat (length sorted) - 1)) h
               = Qle_bool (inject_Z (Z.of_nat (length sorted) - 1)) h')
    by (rewrite E; reflexivity).
  rewrite Eb, (Qfloor_comp _ _ E).
  destruct (Qle_bool _ h'); [reflexivity|].
  apply interpolation_comp. rewrite E. reflexivity.
Qed.

Lemma position_comp (n : nat) (q q' : Q) : q == q' -> position n q == position n q'.
Proof. intros E. unfold position. rewrite E. reflexivity. Qed.

Lemma binary64_quantile_comp (sorted : list Z) (q q' : Q) :
  q == q' -> binary64_quantile sorted q == binary64_quantile sorted q'.
Proof.
  intros E. unfold binary64_quantile.
  apply rnd_comp, quantile_value_comp, position_comp, E.
Qed.

(** *** pandas' quantile *)

Lemma magnitude_rows_int64 (rows : list (string * Z)) :
  magnitude_rows rows -> Forall int64_magnitude (map snd rows).
Proof.
  intros (_ & _ & Hnonneg & Htotal). rewrite Forall_forall in *.
  intros x Hx. split; [apply Hnonneg, Hx|].
  pose proof (total_of_member (map snd rows) x) as H.
  rewrite Forall_forall in H. specialize (H Hnonneg Hx). lia.
Qed.

Lemma quantile_near (rows : list (string * Z)) (q : Q) :
  magnitude_rows rows -> 0 <= q -> q <= 1 ->
  quantile (Int64Series rows) (Fin q) =
  Ok (Fin (Qred (binary64_quantile (isort Z.leb (map snd rows)) q))).
Proof.
  intros Hrows H0 H1. pose proof (magnitude_rows_int64 rows Hrows) as Hint.
  destruct Hrows as (Hne & Hn53 & Hnonneg & Htotal).
  unfold quantile. rewrite (in_unit_interval_Fin q H0 H1).
  unfold magnitudes, rows_of.
  destruct (map snd rows) as [|x xs] eqn:Exs.
  { destruct rows; [contradiction|discriminate]. }
  rewrite <- Exs in *. clear x xs Exs.
  assert (Hlen : length (map snd rows) = length rows) by apply length_map.
  assert (Hn : (1 <= length (map snd rows))%nat).
  { rewrite Hlen. destruct rows; [contradiction|simpl; lia]. }
  unfold percentile. rewrite (percent_scaling q H0 H1).
  destruct (scaled_quantile_bounds q H0 H1) as [Hs0 Hs1].
  unfold near at 1 2.
  rewrite in_unit_interval_Fin by (rewrite Qred_correct; assumption).
  rewrite np_quantile_near; [|exact Hn|rewrite Hlen; exact Hn53|exact Hint
                             |rewrite Qred_correct; exact Hs0|rewrite Qred_correct; exact Hs1].
  unfold near, binary64_quantile. do 2 f_equal. apply Qred_complete.
  apply rnd_comp, quantile_value_comp. unfold position.
  rewrite isort_length, Qred_correct. reflexivity.
Qed.

(** *** The captured share *)

Lemma gt_mask_above (rows : list (string * Z)) (c : Q) :
  Forall int64_magnitude (map snd rows) ->
  map snd (select rows (gt_mask (Int64Series rows) (Fin c)))
  = above c (map snd rows).
Proof.
  intros Hint. unfold gt_mask, magnitudes, rows_of, above.
  rewrite select_map_snd. apply filter_ext_in. intros x Hx.
  rewrite Forall_forall in Hint. specialize (Hint x Hx). destruct Hint as [Hx0 Hx1].
  destruct (of_int_value x) as (X & -> & EX & _ & _); [lia|].
  unfold fgtb, fltb. rewrite !fleb_Fin.
  assert (E : Qle_bool X c = Qle_bool (rnd (inject_Z x)) c) by (rewrite EX; reflexivity).
  rewrite <- E. destruct (Qle_bool X c) eqn:Ele; simpl.
  - apply andb_false_r.
  - apply Qle_bool_false in Ele. rewrite andb_true_r.
    apply Qle_bool_iff. lra.
Qed.

Lemma above_comp (c c' : Q) (xs : list Z) : c == c' -> above c xs = above c' xs.
Proof.
  intros E. unfold above. apply filter_ext. intros x. rewrite E. reflexivity.
Qed.

Lemma true_divide_near (part whole : Z) :
  (0 <= part <= whole)%Z -> (whole < 2 ^ 63)%Z ->
  fdiv (of_int part) (of_int whole) = nearest_ratio part whole.
Proof.
  intros Hp Hw. unfold nearest_ratio. destruct (Z.eqb_spec whole 0) as [E|E].
  - subst whole. assert (part = 0%Z) by lia. subst part. vm_compute. reflexivity.
  - destruct (of_int_value part) as (P & -> & EP & HP0 & HP1); [lia|].
    destruct (of_int_value whole) as (W & -> & EW & HW0 & HW1); [lia|].
    assert (HW : 1 <= W).
    { rewrite EW. apply rnd_lower; [apply binary64_1|].
      change 1 with (inject_Z 1). rewrite <- Zle_Qle. lia. }
    rewrite fdiv_Fin; [|exact HP0|lra|].
    + apply near_comp. rewrite EP, EW. reflexivity.
    + apply upto_64, upto_63. apply Qle_shift_div_r; [lra|].
      apply Qle_trans with (2 ^ 63 * 1); [lra|]. pose proof (pow2_pos 63). nra.
Qed.

Lemma captured_share_near (rows : list (string * Z)) (p : Q) :
  magnitude_rows rows -> 0 < p -> p <= 1 ->
  captured_share (Int64Series rows) (Fin p)
  = Ok (binary64_captured_share (map snd rows) p).
Proof.
  intros Hrows Hp0 Hp1. pose proof (magnitude_rows_int64 rows Hrows) as Hint.
  unfold captured_share.
  rewrite fsub_Fin; [|lra|apply upto_64; apply Qle_trans with 1; [lra|apply one_le]].
  assert (Hq0 : 0 <= rnd (1 - p)) by (apply rnd_nonneg; lra).
  assert (Hq1 : rnd (1 - p) <= 1) by (apply rnd_upper; [apply binary64_1|lra]).
  unfold near.
  rewrite (quantile_near rows _ Hrows)
    by (rewrite Qred_correct; assumption).
  cbn [bind]. destruct Hrows as (Hne & Hn53 & Hnonneg & Htotal).
  unfold getitem_bool, sum, truediv.
  rewrite gt_mask_above by exact Hint.
  set (c := Qred (binary64_quantile (isort Z.leb (map snd rows)) (Qred (rnd (1 - p))))).
  assert (Ec : c == binary64_quantile (isort Z.leb (map snd rows)) (rnd (1 - p))).
  { unfold c. rewrite Qred_correct. apply binary64_quantile_comp, Qred_correct. }
  pose proof (total_of_filter (fun x => negb (Qle_bool (rnd (inject_Z x)) c))
                (map snd rows) Hnonneg) as Hpart.
  fold (above c (map snd rows)) in Hpart.
  rewrite (sum64_exact (above c (map snd rows)))
    by (try apply Forall_filter; try exact Hnonneg; lia).
  rewrite (sum64_exact (map snd rows)) by assumption.
  unfold to_float. rewrite true_divide_near by lia.
  unfold binary64_captured_share. rewrite (above_comp _ _ _ Ec). reflexivity.
Qed.

(** *** Agreement with the doubles of the machine *)

(** The operations of the model give, on the operands that the examples
    below meet, the doubles that the machine computes: 8 / 10 is the
    literal 0.8, 1 - 0.8 is 0.19999999999999996, 7 / 100 * 100 is
    7.000000000000001; a zero divided by a negative number is the negative
    zero, 0 / 0 is [nan] and 5 / 0 the positive infinity. *)
Example hardware_agreement :
  of_hardware (hardware_div 8 10) = float_literal (8 # 10)
  /\ of_hardware (PrimFloat.sub (hardware_int 1) (hardware_div 8 10))
     = fsub (Fin 1) (float_literal (8 # 10))
  /\ of_hardware (hardware_div 20 21) = fdiv (of_int 20) (of_int 21)
  /\ of_hardware (PrimFloat.mul (hardware_div 7 100) (hardware_int 100))
     = fmul (fdiv (of_int 7) (of_int 100)) (Fin 100)
  /\ of_hardware (hardware_int (2 ^ 56 + 42)) = of_int (2 ^ 56 + 42)
  /\ of_hardware (hardware_div (- 2 ^ 63 + 28672) (2 ^ 62 + 40960))
     = fdiv (of_int (- 2 ^ 63 + 28672)) (of_int (2 ^ 62 + 40960))
  /\ of_hardware (hardware_div 0 (-3)) = fdiv (of_int 0) (of_int (-3))
  /\ of_hardware (hardware_div 0 0) = fdiv (of_int 0) (of_int 0)
  /\ of_hardware (hardware_div 5 0) = fdiv (of_int 5) (of_int 0).
Proof. vm_compute. repeat split; reflexivity. Qed.

(** *** The share that is reported *)

Lemma captured_shares_near (rows : list (string * Z)) (percentiles : list Q) :
  magnitude_rows rows ->
  Forall unit_percentile percentiles ->
  mapM (fun percentile =>
          share <- captured_share (Int64Series rows) percentile ;;
          Ok (percentile, share)) (map Fin percentiles)
  = Ok (map (fun p => (Fin p, binary64_captured_share (map snd rows) p)) percentiles).
Proof.
  intros Hrows Hps.
  rewrite (mapM_Ok _ (fun x => (x, match x with
                                    | Fin p => binary64_captured_share (map snd rows) p
                                    | _ => NaN
                                    end))).
  - rewrite map_map. reflexivity.
  - intros x Hx. apply in_map_iff in Hx. destruct Hx as (p & <- & Hp).
    rewrite Forall_forall in Hps. destruct (Hps p Hp) as (_ & Hp0 & Hp1).
    rewrite (captured_share_near rows p Hrows Hp0 Hp1). reflexivity.
Qed.

Example loop_percentiles_doubles :
  map float_literal [1 # 100; 5 # 100; 1 # 10; 2 # 10] = map Fin loop_percentiles
  /\ Forall unit_percentile loop_percentiles.
Proof.
  split; [vm_compute; reflexivity|].
  repeat constructor; try (vm_compute; reflexivity); vm_compute; discriminate.
Qed.

(** C1, as stated, fails -- the share that is reported is not the share of
    the prose.  On the items 1 to 6 the loop reports 0.2857... (the double
    nearest to 6/21) for the percentile 0.2 and 0.9523... (the double
    nearest to 20/21) for 0.8.  The percentile of the loop is the double
    nearest to 0.2, for which the prose gives 11/21: the position
    5 * (1 - p) lies just below 4, the exact cutoff just below 5, and 5 and
    6 are above it, while the rounded position is 4 and the cutoff 5.  And
    read with the decimal 0.8 the prose gives 6/7: the cutoff is 2, while
    the loop, whose 1 - 0.8 is the double 0.19999999999999996, has the
    cutoff 1.9999999999999998 and counts the 2. *)
Lemma summarize_share_is_not_the_exact_share :
  float_literal (2 # 10) = Fin double_0_2
  /\ float_literal (8 # 10) = Fin double_0_8
  /\ summarize (Int64Series ramp_series) 21 [Fin double_0_2; Fin double_0_8]
     = Ok {| total := np_int64 21;
             percent := Fin 100;
             by_percentile :=
               [(Fin double_0_2, Fin (2573485501354569 # 9007199254740992));
                (Fin double_0_8, Fin (4289142502257615 # 4503599627370496))] |}
  /\ exact_captured_share (map snd ramp_series) double_0_2 == 11 # 21
  /\ ~ (2573485501354569 # 9007199254740992) == 11 # 21
  /\ exact_captured_share (map snd ramp_series) (8 # 10) == 6 # 7
  /\ ~ (4289142502257615 # 4503599627370496) == 6 # 7.
Proof.
  split; [vm_compute; reflexivity|]. split; [vm_compute; reflexivity|].
  split; [vm_compute; reflexivity|]. split; [vm_compute; reflexivity|].
  split; [intros H; vm_compute in H; discriminate|].
  split; [vm_compute; reflexivity|].
  intros H; vm_compute in H; discriminate.
Qed.

(** C1 (amended) -- on a non-empty series of non-negative int64 magnitudes
    with at most 2 ^ 53 rows and a sum below 2 ^ 63, for percentiles that
    are doubles in (0, 1], [summarize] reports for each percentile p the
    captured share computed in binary64: the double nearest to the
    quotient of the doubles nearest to the sum of the magnitudes above the
    cutoff and to the sum of all magnitudes ([nan] when that sum is 0).  A
    magnitude is above the cutoff when its double is strictly greater, and
    the cutoff is the linear-interpolation quantile at the double nearest
    to 1 - p with every step rounded: the position is q times 100, divided
    by 100, times N - 1; from the last position on the cutoff is the
    largest magnitude, before it the lower neighbour plus the difference
    of the neighbours times the fraction of the position, or, for a
    fraction of at least a half, the upper neighbour minus the difference
    times one minus the fraction. *)
Theorem summarize_reports_tail_share (rows : list (string * Z)) (grand_total : Z)
    (percentiles : list Q) :
  magnitude_rows rows ->
  Forall unit_percentile percentiles ->
  exists summary,
    summarize (Int64Series rows) grand_total (map Fin percentiles) = Ok summary
    /\ total summary = np_int64 (total_of (map snd rows))
    /\ by_percentile summary =
       map (fun p => (Fin p, binary64_captured_share (map snd rows) p)) percentiles.
Proof.
  intros Hrows Hps. unfold summarize.
  rewrite (captured_shares_near rows percentiles Hrows Hps). cbn [bind].
  eexists. split; [reflexivity|]. cbn [total by_percentile].
  split; [|reflexivity].
  destruct Hrows as (_ & _ & Hnonneg & Htotal).
  unfold sum. rewrite sum64_exact by assumption. reflexivity.
Qed.

Lemma summarize_reports_tail_share_witness :
  exists summary,
    summarize (Int64Series scenario_series) 1000 (map Fin loop_percentiles) = Ok summary
    /\ total summary = np_int64 (total_of (map snd scenario_series))
    /\ by_percentile summary =
       map (fun p => (Fin p, binary64_captured_share (map snd scenario_series) p))
           loop_percentiles.
Proof.
  apply (summarize_reports_tail_share scenario_series 1000 loop_percentiles).
  - split; [discriminate|]. split; [vm_compute; discriminate|].
    split; [repeat constructor; vm_compute; discriminate|vm_compute; reflexivity].
  - repeat constructor; try (vm_compute; reflexivity); vm_compute; discriminate.
Defined.

(** The end-to-end scenario of the series a:10, b:30, c:60 against a grand
    total of 1000: the total is 100, the percentage 10.0; the cutoff for
    the percentile 0.33 is the 0.67 quantile, 40.2, and the one magnitude
    above it is 60 out of 100, reported as the double nearest to 0.6. *)
Example summarize_scenario :
  quantile (Int64Series scenario_series) (fsub (Fin 1) (float_literal (33 # 100)))
  = Ok (float_literal (402 # 10))
  /\ summarize (Int64Series scenario_series) 1000 [float_literal (33 # 100)]
     = Ok {| total := np_int64 100;
             percent := Fin 10;
             by_percentile := [(float_literal (33 # 100), float_literal (6 # 10))] |}.
Proof. split; vm_compute; reflexivity. Qed.

(** *** Bounds *)

Lemma nearest_ratio_unit (part whole : Z) :
  (0 <= part <= whole)%Z -> (0 < whole < 2 ^ 63)%Z ->
  exists x, nearest_ratio part whole = Fin x /\ 0 <= x /\ x <= 1.
Proof.
  intros Hp Hw. unfold nearest_ratio.
  destruct (Z.eqb_spec whole 0) as [E|_]; [lia|].
  assert (HP0 : 0 <= rnd (inject_Z part)) by (apply rnd_Z_nonneg; lia).
  assert (HPW : rnd (inject_Z part) <= rnd (inject_Z whole)).
  { apply rnd_le. rewrite <- Zle_Qle. lia. }
  assert (HW : 1 <= rnd (inject_Z whole)).
  { apply rnd_lower; [apply binary64_1|].
    change 1 with (inject_Z 1). rewrite <- Zle_Qle. lia. }
  eexists. split; [reflexivity|]. rewrite Qred_correct. split.
  - apply rnd_nonneg. apply Qle_shift_div_l; lra.
  - apply rnd_upper; [apply binary64_1|]. apply Qle_shift_div_r; lra.
Qed.

Lemma captured_share_unit (xs : list Z) (p : Q) :
  Forall (fun x => 0 <= x)%Z xs -> (0 < total_of xs < 2 ^ 63)%Z ->
  exists x, binary64_captured_share xs p = Fin x /\ 0 <= x /\ x <= 1.
Proof.
  intros Hnonneg Htotal. unfold binary64_captured_share.
  apply nearest_ratio_unit; [|exact Htotal].
  apply total_of_filter, Hnonneg.
Qed.

Lemma percent_bounds (part grand_total : Z) :
  (0 < part <= grand_total)%Z -> (grand_total < 2 ^ 63)%Z ->
  exists x, percent_of_grand_total (np_int64 part) (of_int grand_total) = Fin x
            /\ 0 <= x /\ x <= 100.
Proof.
  intros Hp Hg. unfold percent_of_grand_total, to_float.
  rewrite true_divide_near by lia.
  destruct (nearest_ratio_unit part grand_total) as (r & -> & Hr0 & Hr1); [lia|lia|].
  rewrite fmul_Fin; [|exact Hr0|lra|apply upto_64; pose proof hundred_le; lra].
  eexists. split; [reflexivity|]. rewrite Qred_correct. split.
  - apply rnd_nonneg. lra.
  - apply rnd_upper; [apply binary64_100|lra].
Qed.

(** C9, as stated, fails -- on five non-negative magnitudes around 2 ^ 62
    the int64 sums wrap around: the total that is reported is positive,
    2 ^ 62 + 40960, and the share for the percentile 0.5 is about -2, below
    zero.  And the percentage is not 100 * total / grand_total: 7 out of
    100 gives 7.000000000000001, the quotient being rounded before the
    multiplication. *)
Lemma concentration_bounds_break :
  (Forall (fun x => 0 <= x)%Z (map snd wrapping_series)
   /\ sum (Int64Series wrapping_series) = np_int64 (2 ^ 62 + 40960)
   /\ (0 < 2 ^ 62 + 40960)%Z
   /\ captured_share (Int64Series wrapping_series) (Fin (1 # 2))
      = Ok (Fin (-2251799813685221 # 1125899906842624))
   /\ fleb (Fin 0) (Fin (-2251799813685221 # 1125899906842624)) = false)
  /\ (percent_of_grand_total (np_int64 7) (of_int 100)
      = Fin (7881299347898369 # 1125899906842624)
      /\ ~ (7881299347898369 # 1125899906842624) == 100 * 7 / 100).
Proof.
  split.
  - split; [repeat constructor; vm_compute; discriminate|].
    repeat split; vm_compute; reflexivity.
  - split; [vm_compute; reflexivity|].
    intros H. vm_compute in H. discriminate.
Qed.

(** C9 (amended) -- on a non-empty series of non-negative int64 magnitudes
    with at most 2 ^ 53 rows and a sum that is positive and below 2 ^ 63,
    for percentiles that are doubles in (0, 1], every captured share that
    [summarize] reports is a number in [0, 1]; and whenever the total is at
    most the grand total, an int64 too, the percentage of the grand total,
    computed in binary64 as total / grand_total * 100, is a number in
    [0, 100]. *)
Theorem concentration_bounds (rows : list (string * Z)) (grand_total : Z)
    (percentiles : list Q) :
  magnitude_rows rows ->
  (0 < total_of (map snd rows))%Z ->
  Forall unit_percentile percentiles ->
  (total_of (map snd rows) <= grand_total < 2 ^ 63)%Z ->
  exists summary,
    summarize (Int64Series rows) grand_total (map Fin percentiles) = Ok summary
    /\ Forall (fun entry => exists x, snd entry = Fin x /\ 0 <= x /\ x <= 1)
              (by_percentile summary)
    /\ exists x, percent summary = Fin x /\ 0 <= x /\ x <= 100.
Proof.
  intros Hrows Hpos Hps Hg. unfold summarize.
  rewrite (captured_shares_near rows percentiles Hrows Hps). cbn [bind].
  destruct Hrows as (_ & _ & Hnonneg & Htotal).
  eexists. split; [reflexivity|]. cbn [by_percentile percent]. split.
  - apply Forall_forall. intros entry Hentry.
    apply in_map_iff in Hentry. destruct Hentry as (p & <- & _). cbn [snd].
    apply captured_share_unit; [exact Hnonneg|lia].
  - unfold sum. rewrite sum64_exact by assumption.
    apply percent_bounds; lia.
Qed.

Lemma concentration_bounds_witness :
  exists summary,
    summarize (Int64Series scenario_series) 1000 (map Fin loop_percentiles) = Ok summary
    /\ Forall (fun entry => exists x, snd entry = Fin x /\ 0 <= x /\ x <= 1)
              (by_percentile summary)
    /\ exists x, percent summary = Fin x /\ 0 <= x /\ x <= 100.
Proof.
  apply (concentration_bounds scenario_series 1000 loop_percentiles).
  - split; [discriminate|]. split; [vm_compute; discriminate|].
    split; [repeat constructor; vm_compute; discriminate|vm_compute; reflexivity].
  - vm_compute. reflexivity.
  - repeat constructor; try (vm_compute; reflexivity); vm_compute; discriminate.
  - split; [vm_compute; discriminate|vm_compute; reflexivity].
Defined.

(** *** Equal magnitudes *)

Lemma interpolation_equal (v : Z) (g : Q) :
  rnd (interpolation v v g) == rnd (inject_Z v).
Proof.
  unfold interpolation. rewrite Z.sub_diag.
  change (rnd (inject_Z 0)) with 0.
  destruct (Qle_bool (1 # 2) g).
  - rewrite (rnd_comp (0 * rnd (1 - g)) 0) by ring.
    rewrite (rnd_comp (rnd (inject_Z v) - rnd 0) (rnd (inject_Z v))) by (rewrite rnd_0; ring).
    apply rnd_idem.
  - rewrite (rnd_comp (0 * g) 0) by ring.
    rewrite (rnd_comp (rnd (inject_Z v) + rnd 0) (rnd (inject_Z v))) by (rewrite rnd_0; ring).
    apply rnd_idem.
Qed.

Lemma nth_all_equal (l : list Z) (v : Z) (i : nat) :
  Forall (fun x => x = v) l -> (i < length l)%nat -> nth i l 0%Z = v.
Proof.
  intros Hl Hi. rewrite Forall_forall in Hl. apply Hl, nth_In, Hi.
Qed.

Lemma quantile_value_all_equal (sorted : list Z) (v : Z) (h : Q) :
  Forall (fun x => x = v) sorted -> (1 <= length sorted)%nat -> 0 <= h ->
  rnd (quantile_value sorted h) == rnd (inject_Z v).
Proof.
  intros Hall Hn Hh. unfold quantile_value.
  destruct (Qle_bool (inject_Z (Z.of_nat (length sorted) - 1)) h) eqn:E.
  - rewrite (nth_all_equal sorted v) by (try exact Hall; lia). reflexivity.
  - apply Qle_bool_false in E.
    destruct (floor_bounds h (length sorted) Hh E) as [Hk0 Hk1].
    rewrite !(nth_all_equal sorted v) by (try exact Hall; lia).
    apply interpolation_equal.
Qed.

Lemma position_nonneg (n : nat) (q : Q) : (1 <= n)%nat -> 0 <= q -> 0 <= position n q.
Proof.
  intros Hn Hq. unfold position. apply rnd_nonneg.
  assert (H1 : 0 <= inject_Z (Z.of_nat n - 1)) by (apply inject_Z_nonneg; lia).
  assert (H2 : 0 <= rnd (rnd (q * 100) / 100)).
  { apply rnd_nonneg. apply Qle_shift_div_l; [lra|].
    assert (0 <= rnd (q * 100)) by (apply rnd_nonneg; lra). lra. }
  nra.
Qed.

Lemma total_of_positive (xs : list Z) (c : Z) :
  xs <> [] -> (0 < c)%Z -> Forall (fun x => x = c) xs -> (0 < total_of xs)%Z.
Proof.
  intros Hne Hc Hall. destruct Hall as [|x xs Hx Hxs]; [congruence|].
  simpl. assert (0 <= total_of xs)%Z.
  { apply total_of_nonneg. eapply Forall_impl; [|exact Hxs]. intros y ->. lia. }
  lia.
Qed.

(** C10, as stated, fails -- four magnitudes equal to 2 ^ 62 are equal
    and positive, their int64 sum wraps around to 0 and the captured share
    is 0 / 0, that is [nan], not 0. *)
Lemma captured_share_of_huge_equal_magnitudes :
  Forall (fun row => snd row = 2 ^ 62)%Z huge_flat_series
  /\ (0 < 2 ^ 62)%Z
  /\ unit_percentile (1 # 2)
  /\ sum (Int64Series huge_flat_series) = np_int64 0
  /\ captured_share (Int64Series huge_flat_series) (Fin (1 # 2)) = Ok NaN.
Proof.
  split; [repeat constructor|]. split; [reflexivity|].
  split; [split; [vm_compute; reflexivity|split; [vm_compute; reflexivity|vm_compute; discriminate]]|].
  split; vm_compute; reflexivity.
Qed.

(** C10 (amended) -- on a non-empty series of at most 2 ^ 53 rows whose
    magnitudes all equal a positive int64 value, with a sum below 2 ^ 63,
    the captured share of every percentile that is a double in (0, 1] is
    exactly zero: the cutoff is the double nearest to the common value and
    the double of no magnitude exceeds it. *)
Theorem captured_share_of_equal_magnitudes (rows : list (string * Z)) (c : Z) (p : Q) :
  magnitude_rows rows ->
  Forall (fun row => snd row = c) rows ->
  (0 < c)%Z ->
  unit_percentile p ->
  quantile (Int64Series rows) (fsub (Fin 1) (Fin p)) = Ok (near (inject_Z c))
  /\ captured_share (Int64Series rows) (Fin p) = Ok (Fin 0).
Proof.
  intros Hrows Hall Hc (_ & Hp0 & Hp1).
  assert (Hxs : Forall (fun x => x = c) (map snd rows)).
  { apply Forall_map. exact Hall. }
  assert (Hne : map snd rows <> []).
  { destruct Hrows as (Hne & _). destruct rows; [contradiction|discriminate]. }
  assert (Hcut : forall q, 0 <= q ->
                 binary64_quantile (isort Z.leb (map snd rows)) q == rnd (inject_Z c)).
  { intros q Hq. unfold binary64_quantile. apply quantile_value_all_equal.
    - apply isort_Forall, Hxs.
    - rewrite isort_length. destruct (map snd rows); [contradiction|simpl; lia].
    - apply position_nonneg; [|exact Hq].
      rewrite isort_length. destruct (map snd rows); [contradiction|simpl; lia]. }
  assert (Hq0 : 0 <= rnd (1 - p)) by (apply rnd_nonneg; lra).
  assert (Hq1 : rnd (1 - p) <= 1) by (apply rnd_upper; [apply binary64_1|lra]).
  split.
  - rewrite fsub_Fin; [|lra|apply upto_64; apply Qle_trans with 1; [lra|apply one_le]].
    unfold near at 1.
    rewrite (quantile_near rows _ Hrows) by (rewrite Qred_correct; assumption).
    unfold near. do 2 f_equal. apply Qred_complete, Hcut.
    rewrite Qred_correct. exact Hq0.
  - rewrite (captured_share_near rows p Hrows Hp0 Hp1).
    unfold binary64_captured_share. rewrite (above_comp _ _ _ (Hcut _ Hq0)).
    unfold above. rewrite filter_none.
    + unfold nearest_ratio. cbn [total_of fold_right].
      pose proof (total_of_positive _ c Hne Hc Hxs) as Hpos.
      destruct (Z.eqb_spec (total_of (map snd rows)) 0) as [E|_]; [lia|].
      reflexivity.
    + eapply Forall_impl; [|exact Hxs]. intros x ->.
      apply negb_false_iff, Qle_bool_iff, Qle_refl.
Qed.

Lemma captured_share_of_equal_magnitudes_witness :
  quantile (Int64Series flat_series) (fsub (Fin 1) (Fin (1 # 4))) = Ok (near (inject_Z 7))
  /\ captured_share (Int64Series flat_series) (Fin (1 # 4)) = Ok (Fin 0).
Proof.
  apply (captured_share_of_equal_magnitudes flat_series 7 (1 # 4)).
  - split; [discriminate|]. split; [vm_compute; discriminate|].
    split; [repeat constructor; vm_compute; discriminate|vm_compute; reflexivity].
  - repeat constructor.
  - reflexivity.
  - split; [vm_compute; reflexivity|split; [vm_compute; reflexivity|vm_compute; discriminate]].
Defined.

(** *** Monotonicity of the cutoff *)

Lemma binary64_half_Z (d : Z) : (0 <= d <= 2 ^ 53)%Z -> binary64 (inject_Z d / 2).
Proof.
  intros Hd. unfold binary64.
  setoid_replace (inject_Z d / 2) with (inject_Z d * 2 ^ (-1)) by reflexivity.
  apply rnd_exact; lia.
Qed.

Section Interpolation.
Variables a b : Z.
Hypothesis a_exact : exact_magnitude a.
Hypothesis b_exact : exact_magnitude b.
Hypothesis a_le_b : (a <= b)%Z.

Lemma neighbours_exact :
  rnd (inject_Z a) == inject_Z a /\ rnd (inject_Z b) == inject_Z b
  /\ rnd (inject_Z (b - a)) == inject_Z b - inject_Z a
  /\ 0 <= inject_Z a /\ inject_Z a <= inject_Z b.
Proof.
  destruct a_exact as [Ha0 Ha1], b_exact as [Hb0 Hb1].
  split; [apply rnd_Z; lia|]. split; [apply rnd_Z; lia|].
  split; [|split].
  - rewrite rnd_Z by lia. unfold Z.sub. rewrite inject_Z_plus, inject_Z_opp. ring.
  - apply inject_Z_nonneg, Ha0.
  - rewrite <- Zle_Qle. exact a_le_b.
Qed.

Lemma interpolation_bracket (g : Q) :
  0 <= g -> g <= 1 ->
  inject_Z a <= rnd (interpolation a b g) /\ rnd (interpolation a b g) <= inject_Z b.
Proof.
  intros Hg0 Hg1. destruct neighbours_exact as (EA & EB & ED & HA & HAB).
  assert (BA : binary64 (inject_Z a)) by exact EA.
  assert (BB : binary64 (inject_Z b)) by exact EB.
  assert (BD : binary64 (inject_Z b - inject_Z a)).
  { unfold binary64. rewrite <- ED. apply rnd_idem. }
  unfold interpolation.
  destruct (Qle_bool (1 # 2) g); rewrite ?EA, ?EB, ED;
    set (A := inject_Z a) in *; set (B := inject_Z b) in *.
  - assert (Hr0 : 0 <= rnd (1 - g)) by (apply rnd_nonneg; lra).
    assert (Hr1 : rnd (1 - g) <= 1) by (apply rnd_upper; [apply binary64_1|lra]).
    assert (Hm0 : 0 <= rnd ((B - A) * rnd (1 - g))) by (apply rnd_nonneg; nra).
    assert (Hm1 : rnd ((B - A) * rnd (1 - g)) <= B - A) by (apply rnd_upper; [exact BD|nra]).
    split; [apply rnd_lower|apply rnd_upper]; try assumption; lra.
  - assert (Hm0 : 0 <= rnd ((B - A) * g)) by (apply rnd_nonneg; nra).
    assert (Hm1 : rnd ((B - A) * g) <= B - A) by (apply rnd_upper; [exact BD|nra]).
    split; [apply rnd_lower|apply rnd_upper]; try assumption; lra.
Qed.

Lemma interpolation_monotone (g g' : Q) :
  0 <= g -> g <= g' -> g' <= 1 ->
  rnd (interpolation a b g) <= rnd (interpolation a b g').
Proof.
  intros Hg0 Hgg Hg1. destruct neighbours_exact as (EA & EB & ED & HA & HAB).
  assert (BH : binary64 ((inject_Z b - inject_Z a) * (1 # 2))).
  { destruct a_exact, b_exact.
    pose proof (binary64_half_Z (b - a) ltac:(lia)) as Hh. unfold binary64 in Hh.
    assert (E : (inject_Z b - inject_Z a) * (1 # 2) == inject_Z (b - a) / 2).
    { unfold Z.sub. rewrite inject_Z_plus, inject_Z_opp. reflexivity. }
    unfold binary64. rewrite (rnd_comp _ _ E), Hh. symmetry. exact E. }
  unfold interpolation.
  destruct (Qle_bool (1 # 2) g) eqn:E; destruct (Qle_bool (1 # 2) g') eqn:E';
    rewrite ?EA, ?EB, !ED;
    set (A := inject_Z a) in *; set (B := inject_Z b) in *; apply rnd_le.
  - assert (H : rnd (1 - g') <= rnd (1 - g)) by (apply rnd_le; lra).
    assert (Hr0 : 0 <= rnd (1 - g')) by (apply rnd_nonneg; lra).
    assert (rnd ((B - A) * rnd (1 - g')) <= rnd ((B - A) * rnd (1 - g)))
      by (apply rnd_le; nra).
    lra.
  - apply Qle_bool_iff in E. apply Qle_bool_false in E'. exfalso. lra.
  - apply Qle_bool_false in E. apply Qle_bool_iff in E'.
    assert (H1 : rnd ((B - A) * g) <= (B - A) * (1 # 2))
      by (apply rnd_upper; [exact BH|nra]).
    assert (Hr0 : 0 <= rnd (1 - g')) by (apply rnd_nonneg; lra).
    assert (Hr1 : rnd (1 - g') <= 1 # 2) by (apply rnd_upper; [apply binary64_half|lra]).
    assert (H2 : rnd ((B - A) * rnd (1 - g')) <= (B - A) * (1 # 2))
      by (apply rnd_upper; [exact BH|nra]).
    lra.
  - assert (rnd ((B - A) * g) <= rnd ((B - A) * g')) by (apply rnd_le; nra).
    lra.
Qed.
End Interpolation.

Lemma quantile_value_monotone (sorted : list Z) (h h' : Q) :
  StronglySorted (holds Z.leb) sorted ->
  Forall exact_magnitude sorted ->
  (1 <= length sorted)%nat ->
  0 <= h -> h <= h' ->
  rnd (quantile_value sorted h) <= rnd (quantile_value sorted h').
Proof.
  intros Hsorted Hexact Hn Hh0 Hhh. unfold quantile_value.
  set (top := inject_Z (Z.of_nat (length sorted) - 1)).
  assert (Hlast : exact_magnitude (nth (length sorted - 1) sorted 0%Z)).
  { apply (Forall_nth_Z exact_magnitude); [exact Hexact|lia]. }
  assert (Hrl : rnd (inject_Z (nth (length sorted - 1) sorted 0%Z))
                == inject_Z (nth (length sorted - 1) sorted 0%Z)).
  { apply rnd_Z. destruct Hlast. lia. }
  destruct (Qle_bool top h') eqn:E'.
  - destruct (Qle_bool top h) eqn:E; [apply Qle_refl|].
    apply Qle_bool_false in E.
    destruct (floor_bounds h (length sorted) Hh0 E) as [Hk0 Hk1].
    rewrite Hrl.
    eapply Qle_trans.
    + apply interpolation_bracket.
      * apply (Forall_nth_Z exact_magnitude); [exact Hexact|lia].
      * apply (Forall_nth_Z exact_magnitude); [exact Hexact|lia].
      * apply sorted_nth_Z; [exact Hsorted|lia].
      * apply fraction_bounds.
      * apply fraction_bounds.
    + rewrite <- Zle_Qle. apply sorted_nth_Z; [exact Hsorted|lia].
  - apply Qle_bool_false in E'.
    assert (E : Qle_bool top h = false) by (apply Qle_bool_false; lra).
    rewrite E. apply Qle_bool_false in E.
    assert (Hh0' : 0 <= h') by lra.
    destruct (floor_bounds h (length sorted) Hh0 E) as [Hk0 Hk1].
    destruct (floor_bounds h' (length sorted) Hh0' E') as [Hk0' Hk1'].
    pose proof (Qfloor_resp_le _ _ Hhh) as Hkk.
    destruct (Z.eq_dec (Qfloor h) (Qfloor h')) as [Ek|Ek].
    + rewrite <- Ek. apply interpolation_monotone.
      * apply (Forall_nth_Z exact_magnitude); [exact Hexact|lia].
      * apply (Forall_nth_Z exact_magnitude); [exact Hexact|lia].
      * apply sorted_nth_Z; [exact Hsorted|lia].
      * apply fraction_bounds.
      * apply rnd_le. rewrite Ek. lra.
      * rewrite Ek. apply fraction_bounds.
    + apply Qle_trans with (inject_Z (nth (S (Z.to_nat (Qfloor h))) sorted 0%Z)).
      * apply interpolation_bracket.
        -- apply (Forall_nth_Z exact_magnitude); [exact Hexact|lia].
        -- apply (Forall_nth_Z exact_magnitude); [exact Hexact|lia].
        -- apply sorted_nth_Z; [exact Hsorted|lia].
        -- apply fraction_bounds.
        -- apply fraction_bounds.
      * apply Qle_trans with (inject_Z (nth (Z.to_nat (Qfloor h')) sorted 0%Z)).
        -- rewrite <- Zle_Qle. apply sorted_nth_Z; [exact Hsorted|lia].
        -- apply interpolation_bracket.
           ++ apply (Forall_nth_Z exact_magnitude); [exact Hexact|lia].
           ++ apply (Forall_nth_Z exact_magnitude); [exact Hexact|lia].
           ++ apply sorted_nth_Z; [exact Hsorted|lia].
           ++ apply fraction_bounds.
           ++ apply fraction_bounds.
Qed.

Lemma position_monotone (n : nat) (q q' : Q) :
  (1 <= n)%nat -> 0 <= q -> q <= q' -> position n q <= position n q'.
Proof.
  intros Hn Hq0 Hqq. unfold position. apply rnd_le.
  assert (Htop : 0 <= inject_Z (Z.of_nat n - 1)) by (apply inject_Z_nonneg; lia).
  assert (H1 : rnd (q * 100) <= rnd (q' * 100)) by (apply rnd_le; lra).
  assert (H2 : rnd (rnd (q * 100) / 100) <= rnd (rnd (q' * 100) / 100)).
  { apply rnd_le. apply div_ulp_le; [lra|exact H1]. }
  nra.
Qed.

Lemma binary64_quantile_monotone (sorted : list Z) (q q' : Q) :
  StronglySorted (holds Z.leb) sorted ->
  Forall exact_magnitude sorted ->
  (1 <= length sorted)%nat ->
  0 <= q -> q <= q' ->
  binary64_quantile sorted q <= binary64_quantile sorted q'.
Proof.
  intros Hsorted Hexact Hn Hq0 Hqq. unfold binary64_quantile.
  apply quantile_value_monotone; try assumption.
  - apply position_nonneg; assumption.
  - apply position_monotone; assumption.
Qed.

(** *** Monotonicity of the captured share *)

Lemma total_of_filter_mono (f g : Z -> bool) (xs : list Z) :
  Forall (fun x => 0 <= x)%Z xs ->
  (forall x, f x = true -> g x = true) ->
  (total_of (filter f xs) <= total_of (filter g xs))%Z.
Proof.
  intros Hxs Hfg. induction Hxs as [|x xs Hx _ IH]; simpl; [lia|].
  destruct (f x) eqn:Ef.
  - rewrite (Hfg x Ef). simpl. lia.
  - destruct (g x); simpl; lia.
Qed.

Lemma nearest_ratio_monotone (part part' whole : Z) :
  (0 <= part <= part')%Z -> (0 < whole)%Z ->
  exists x x', nearest_ratio part whole = Fin x
               /\ nearest_ratio part' whole = Fin x' /\ x <= x'.
Proof.
  intros Hp Hw. unfold nearest_ratio.
  destruct (Z.eqb_spec whole 0) as [E|_]; [lia|].
  do 2 eexists. split; [reflexivity|]. split; [reflexivity|].
  rewrite !Qred_correct. apply rnd_le.
  assert (HW : 1 <= rnd (inject_Z whole)).
  { apply rnd_lower; [apply binary64_1|].
    change 1 with (inject_Z 1). rewrite <- Zle_Qle. lia. }
  apply div_ulp_le; [lra|]. apply rnd_le. rewrite <- Zle_Qle. lia.
Qed.

(** C5, as stated, fails -- on a series of zeros the total is zero, every
    captured share is 0 / 0, that is [nan], and [nan <= nan] is false.  It
    also fails on totals that are positive: on the two magnitudes
    2 ^ 56 + 42 and 2 ^ 56 + 64, where the doubles are 16 apart, the share
    for 0.4 is about a half and the share for 0.6 is zero; and on five magnitudes
    around 2 ^ 62, whose sums wrap around, the share for 0.25 is about 1
    and the share for 0.5 about -2. *)
Lemma captured_share_not_monotone :
  (Forall (fun x => 0 <= x)%Z (map snd zero_series)
   /\ captured_share (Int64Series zero_series) (Fin (1 # 4)) = Ok NaN
   /\ captured_share (Int64Series zero_series) (Fin (1 # 2)) = Ok NaN
   /\ fleb NaN NaN = false)
  /\ (Forall (fun x => 0 <= x)%Z (map snd coarse_series)
      /\ (0 < total_of (map snd coarse_series) < 2 ^ 63)%Z
      /\ unit_percentile double_0_4 /\ unit_percentile double_0_6
      /\ double_0_4 < double_0_6
      /\ captured_share (Int64Series coarse_series) (Fin double_0_4)
         = Ok (Fin (4503599627370497 # 9007199254740992))
      /\ captured_share (Int64Series coarse_series) (Fin double_0_6) = Ok (Fin 0)
      /\ fleb (Fin (4503599627370497 # 9007199254740992)) (Fin 0) = false)
  /\ (Forall (fun x => 0 <= x)%Z (map snd wrapping_series)
      /\ sum (Int64Series wrapping_series) = np_int64 (2 ^ 62 + 40960)
      /\ captured_share (Int64Series wrapping_series) (Fin (1 # 4))
         = Ok (Fin (562949953421309 # 562949953421312))
      /\ captured_share (Int64Series wrapping_series) (Fin (1 # 2))
         = Ok (Fin (-2251799813685221 # 1125899906842624))
      /\ fleb (Fin (562949953421309 # 562949953421312))
              (Fin (-2251799813685221 # 1125899906842624)) = false).
Proof.
  split; [|split].
  - split; [repeat constructor; vm_compute; discriminate|].
    repeat split; vm_compute; reflexivity.
  - split; [repeat constructor; vm_compute; discriminate|].
    split; [split; vm_compute; reflexivity|].
    split; [split; [vm_compute; reflexivity|split; [vm_compute; reflexivity|vm_compute; discriminate]]|].
    split; [split; [vm_compute; reflexivity|split; [vm_compute; reflexivity|vm_compute; discriminate]]|].
    repeat split; vm_compute; reflexivity.
  - split; [repeat constructor; vm_compute; discriminate|].
    repeat split; vm_compute; reflexivity.
Qed.

(** C5 (amended) -- on a non-empty series of at most 2 ^ 53 rows whose
    magnitudes are non-negative int64 of at most 2 ^ 53 each, with a sum
    that is positive and below 2 ^ 63, for two percentiles p1 < p2 that are
    doubles in (0, 1], both captured shares are numbers and the share for
    p1 is at most the share for p2. *)
Theorem captured_share_monotone (rows : list (string * Z)) (p1 p2 : Q) :
  magnitude_rows rows ->
  Forall (fun x => x <= 2 ^ 53)%Z (map snd rows) ->
  (0 < total_of (map snd rows))%Z ->
  unit_percentile p1 -> unit_percentile p2 -> p1 < p2 ->
  exists x1 x2,
    captured_share (Int64Series rows) (Fin p1) = Ok (Fin x1)
    /\ captured_share (Int64Series rows) (Fin p2) = Ok (Fin x2)
    /\ x1 <= x2.
Proof.
  intros Hrows Hexact Hpos (_ & Hp10 & Hp11) (_ & Hp20 & Hp21) Hlt.
  rewrite (captured_share_near rows p1 Hrows Hp10 Hp11).
  rewrite (captured_share_near rows p2 Hrows Hp20 Hp21).
  destruct Hrows as (Hne & Hn53 & Hnonneg & Htotal).
  unfold binary64_captured_share.
  set (xs := map snd rows) in *.
  assert (Hcut : binary64_quantile (isort Z.leb xs) (rnd (1 - p2))
                 <= binary64_quantile (isort Z.leb xs) (rnd (1 - p1))).
  { apply binary64_quantile_monotone.
    - apply isort_Z_sorted.
    - apply isort_Forall. rewrite Forall_forall in *. intros x Hx.
      split; [apply Hnonneg, Hx|apply Hexact, Hx].
    - rewrite isort_length. unfold xs. rewrite length_map.
      destruct rows; [contradiction|simpl; lia].
    - apply rnd_nonneg. lra.
    - apply rnd_le. lra. }
  destruct (nearest_ratio_monotone
              (total_of (above (binary64_quantile (isort Z.leb xs) (rnd (1 - p1))) xs))
              (total_of (above (binary64_quantile (isort Z.leb xs) (rnd (1 - p2))) xs))
              (total_of xs)) as (x1 & x2 & E1 & E2 & Hle).
  - split; [apply total_of_filter, Hnonneg|].
    apply total_of_filter_mono; [exact Hnonneg|].
    intros x. rewrite !negb_true_iff, !Qle_bool_false. intros Hx. lra.
  - exact Hpos.
  - exists x1, x2. rewrite E1, E2. split; [reflexivity|]. split; [reflexivity|exact Hle].
Qed.

Lemma captured_share_monotone_witness :
  exists x1 x2,
    captured_share (Int64Series scenario_series) (Fin (1 # 4)) = Ok (Fin x1)
    /\ captured_share (Int64Series scenario_series) (Fin (1 # 2)) = Ok (Fin x2)
    /\ x1 <= x2.
Proof.
  apply (captured_share_monotone scenario_series (1 # 4) (1 # 2)).
  - split; [discriminate|]. split; [vm_compute; discriminate|].
    split; [repeat constructor; vm_compute; discriminate|vm_compute; reflexivity].
  - repeat constructor; vm_compute; discriminate.
  - vm_compute. reflexivity.
  - split; [vm_compute; reflexivity|split; [vm_compute; reflexivity|vm_compute; discriminate]].
  - split; [vm_compute; reflexivity|split; [vm_compute; reflexivity|vm_compute; discriminate]].
  - vm_compute. reflexivity.
Defined.

(** *** Empty input *)







(** *** The cutoff lies within the magnitudes *)

Lemma binary64_quantile_bracket (sorted : list Z) (q : Q) :
  StronglySorted (holds Z.leb) sorted ->
  Forall exact_magnitude sorted ->
  (1 <= length sorted)%nat ->
  0 <= q ->
  inject_Z (nth 0 sorted 0%Z) <= binary64_quantile sorted q
  /\ binary64_quantile sorted q <= inject_Z (nth (length sorted - 1) sorted 0%Z).
Proof.
  intros Hsorted Hexact Hn Hq. unfold binary64_quantile, quantile_value.
  pose proof (position_nonneg (length sorted) q Hn Hq) as Hh.
  set (h := position (length sorted) q) in *.
  assert (Hlast : rnd (inject_Z (nth (length sorted - 1) sorted 0%Z))
                  == inject_Z (nth (length sorted - 1) sorted 0%Z)).
  { apply rnd_Z.
    destruct (Forall_nth_Z exact_magnitude sorted (length sorted - 1) Hexact); lia. }
  destruct (Qle_bool (inject_Z (Z.of_nat (length sorted) - 1)) h) eqn:E.
  - rewrite Hlast. split; [|apply Qle_refl].
    rewrite <- Zle_Qle. apply sorted_nth_Z; [exact Hsorted|lia].
  - apply Qle_bool_false in E.
    destruct (floor_bounds h (length sorted) Hh E) as [Hk0 Hk1].
    destruct (interpolation_bracket
                (nth (Z.to_nat (Qfloor h)) sorted 0%Z)
                (nth (S (Z.to_nat (Qfloor h))) sorted 0%Z)) with
      (g := rnd (h - inject_Z (Qfloor h))) as [Hlo Hhi].
    + apply (Forall_nth_Z exact_magnitude); [exact Hexact|lia].
    + apply (Forall_nth_Z exact_magnitude); [exact Hexact|lia].
    + apply sorted_nth_Z; [exact Hsorted|lia].
    + apply fraction_bounds.
    + apply fraction_bounds.
    + split.
      * eapply Qle_trans; [|exact Hlo].
        rewrite <- Zle_Qle. apply sorted_nth_Z; [exact Hsorted|lia].
      * eapply Qle_trans; [exact Hhi|].
        rewrite <- Zle_Qle. apply sorted_nth_Z; [exact Hsorted|lia].
Qed.

Lemma total_of_filter_excluding (f : Z -> bool) (xs : list Z) (m : Z) :
  Forall (fun x => 0 <= x)%Z xs -> In m xs -> f m = false ->
  (total_of (filter f xs) + m <= total_of xs)%Z.
Proof.
  intros Hxs. induction Hxs as [|x xs Hx Hxs IH]; intros Hin Hm; [contradiction|].
  pose proof (total_of_filter f xs Hxs) as Hf.
  destruct Hin as [->|Hin].
  - simpl. rewrite Hm. lia.
  - specialize (IH Hin Hm). simpl. destruct (f x); simpl; lia.
Qed.

Lemma binary64_below_one : binary64 (1 - 2 ^ (-53)).
Proof. unfold binary64. vm_compute. reflexivity. Qed.

(** Lines 270 and 338 -- on magnitudes that their doubles hold exactly the
    cutoff lies between the smallest and the largest magnitude, and it
    does not decrease when the quantile grows. *)
Theorem quantile_within_magnitudes (rows : list (string * Z)) (q q' : Q) :
  magnitude_rows rows ->
  Forall (fun x => x <= 2 ^ 53)%Z (map snd rows) ->
  0 <= q -> q <= q' -> q' <= 1 ->
  exists c c',
    quantile (Int64Series rows) (Fin q) = Ok (Fin c)
    /\ quantile (Int64Series rows) (Fin q') = Ok (Fin c')
    /\ inject_Z (nth 0 (isort Z.leb (map snd rows)) 0%Z) <= c
    /\ c <= c'
    /\ c' <= inject_Z (nth (length rows - 1) (isort Z.leb (map snd rows)) 0%Z).
Proof.
  intros Hrows Hexact Hq0 Hqq Hq1.
  rewrite (quantile_near rows q Hrows) by lra.
  rewrite (quantile_near rows q' Hrows) by lra.
  destruct Hrows as (Hne & Hn53 & Hnonneg & Htotal).
  assert (Hlen : length (isort Z.leb (map snd rows)) = length rows).
  { rewrite isort_length. apply length_map. }
  assert (Hn : (1 <= length (isort Z.leb (map snd rows)))%nat).
  { rewrite Hlen. destruct rows; [contradiction|simpl; lia]. }
  assert (Hsorted : Forall exact_magnitude (isort Z.leb (map snd rows))).
  { apply isort_Forall. rewrite Forall_forall in *. intros x Hx.
    split; [apply Hnonneg, Hx|apply Hexact, Hx]. }
  do 2 eexists. split; [reflexivity|]. split; [reflexivity|].
  rewrite !Qred_correct, <- Hlen. split; [|split].
  - apply binary64_quantile_bracket; try assumption. apply isort_Z_sorted.
  - apply binary64_quantile_monotone; try assumption. apply isort_Z_sorted.
  - apply binary64_quantile_bracket; try assumption; [apply isort_Z_sorted|lra].
Qed.

Lemma quantile_within_magnitudes_witness :
  exists c c',
    quantile (Int64Series scenario_series) (Fin (1 # 4)) = Ok (Fin c)
    /\ quantile (Int64Series scenario_series) (Fin (3 # 4)) = Ok (Fin c')
    /\ inject_Z (nth 0 (isort Z.leb (map snd scenario_series)) 0%Z) <= c
    /\ c <= c'
    /\ c' <= inject_Z (nth (length scenario_series - 1)
                           (isort Z.leb (map snd scenario_series)) 0%Z).
Proof.
  apply (quantile_within_magnitudes scenario_series (1 # 4) (3 # 4)).
  - split; [discriminate|]. split; [vm_compute; discriminate|].
    split; [repeat constructor; vm_compute; discriminate|vm_compute; reflexivity].
  - repeat constructor; vm_compute; discriminate.
  - vm_compute. discriminate.
  - vm_compute. discriminate.
  - vm_compute. discriminate.
Defined.

(** Lines 270 and 338 -- on a series of positive magnitudes whose sum is
    at most 2 ^ 53 the captured share of a percentile in (0, 1] is a
    number below one: the rows of the smallest magnitude are never above
    the cutoff. *)
Theorem captured_share_below_one (rows : list (string * Z)) (p : Q) :
  magnitude_rows rows ->
  Forall (fun x => 0 < x)%Z (map snd rows) ->
  (total_of (map snd rows) <= 2 ^ 53)%Z ->
  unit_percentile p ->
  exists x, captured_share (Int64Series rows) (Fin p) = Ok (Fin x)
            /\ 0 <= x /\ x < 1.
Proof.
  intros Hrows Hpos H53 (_ & Hp0 & Hp1).
  rewrite (captured_share_near rows p Hrows Hp0 Hp1).
  destruct Hrows as (Hne & Hn53 & Hnonneg & Htotal).
  unfold binary64_captured_share. set (xs := map snd rows) in *.
  assert (Hlen : (1 <= length xs)%nat).
  { unfold xs. rewrite length_map. destruct rows; [contradiction|simpl; lia]. }
  assert (Hexact : Forall exact_magnitude xs).
  { rewrite Forall_forall in *. intros x Hx. split; [apply Hnonneg, Hx|].
    pose proof (total_of_member xs x) as H. rewrite Forall_forall in H.
    specialize (H Hnonneg Hx). lia. }
  set (c := binary64_quantile (isort Z.leb xs) (rnd (1 - p))).
  set (m := nth 0 (isort Z.leb xs) 0%Z).
  assert (Hm : In m xs).
  { apply (isort_In Z.leb). apply nth_In. rewrite isort_length. lia. }
  assert (Hmc : inject_Z m <= c).
  { apply binary64_quantile_bracket.
    - apply isort_Z_sorted.
    - apply isort_Forall, Hexact.
    - rewrite isort_length. exact Hlen.
    - apply rnd_nonneg. lra. }
  assert (Hm1 : (1 <= m)%Z).
  { rewrite Forall_forall in Hpos. specialize (Hpos m Hm). lia. }
  assert (Hex : (total_of (above c xs) + m <= total_of xs)%Z).
  { apply total_of_filter_excluding; [exact Hnonneg|exact Hm|].
    apply negb_false_iff, Qle_bool_iff.
    rewrite rnd_Z; [exact Hmc|].
    rewrite Forall_forall in Hexact. destruct (Hexact m Hm). lia. }
  pose proof (total_of_filter (fun x => negb (Qle_bool (rnd (inject_Z x)) c)) xs Hnonneg)
    as Hpart. fold (above c xs) in Hpart.
  set (part := total_of (above c xs)) in *. set (whole := total_of xs) in *.
  unfold nearest_ratio. destruct (Z.eqb_spec whole 0) as [E|_]; [lia|].
  eexists. split; [reflexivity|]. rewrite Qred_correct.
  rewrite (rnd_Z part), (rnd_Z whole) by lia.
  assert (HW : 1 <= inject_Z whole).
  { change 1 with (inject_Z 1). rewrite <- Zle_Qle. lia. }
  assert (HP : 0 <= inject_Z part) by (apply inject_Z_nonneg; lia).
  split.
  - apply rnd_nonneg. apply Qle_shift_div_l; lra.
  - apply Qle_lt_trans with (1 - 2 ^ (-53)).
    + apply rnd_upper; [apply binary64_below_one|].
      apply Qle_shift_div_r; [lra|].
      assert (H1 : inject_Z part + 1 <= inject_Z whole).
      { change 1 with (inject_Z 1). rewrite <- inject_Z_plus, <- Zle_Qle. lia. }
      assert (H2 : inject_Z whole <= 2 ^ 53) by (apply inject_Z_le_pow2; lia).
      assert (H3 : 2 ^ 53 * 2 ^ (-53) == 1) by reflexivity.
      pose proof (pow2_pos (-53)) as H4. nra.
    + pose proof (pow2_pos (-53)). lra.
Qed.

Lemma captured_share_below_one_witness :
  exists x, captured_share (Int64Series scenario_series) (Fin (1 # 2)) = Ok (Fin x)
            /\ 0 <= x /\ x < 1.
Proof.
  apply (captured_share_below_one scenario_series (1 # 2)).
  - split; [discriminate|]. split; [vm_compute; discriminate|].
    split; [repeat constructor; vm_compute; discriminate|vm_compute; reflexivity].
  - repeat constructor.
  - vm_compute. discriminate.
  - split; [vm_compute; reflexivity|split; [vm_compute; reflexivity|vm_compute; discriminate]].
Defined.

(** *** The top rows *)

Lemma StronglySorted_snoc {A : Type} (R : A -> A -> Prop) (l : list A) (x : A) :
  StronglySorted R l -> Forall (fun y => R y x) l -> StronglySorted R (l ++ [x]).
Proof.
  induction 1 as [|a l Hl IH Ha]; intros Hx; simpl.
  - constructor; constructor.
  - inversion Hx as [|? ? Hax Hlx]; subst. constructor.
    + apply IH. exact Hlx.
    + apply Forall_app. split; [exact Ha|]. constructor; [exact Hax|constructor].
Qed.

Lemma StronglySorted_rev {A : Type} (R : A -> A -> Prop) (l : list A) :
  StronglySorted R l -> StronglySorted (fun a b => R b a) (rev l).
Proof.
  induction 1 as [|a l Hl IH Ha]; simpl.
  - constructor.
  - apply StronglySorted_snoc; [exact IH|].
    apply Forall_rev. exact Ha.
Qed.

Lemma StronglySorted_impl {A : Type} (R R' : A -> A -> Prop) (l : list A) :
  (forall a b, R a b -> R' a b) -> StronglySorted R l -> StronglySorted R' l.
Proof.
  intros HR. induction 1 as [|a l Hl IH Ha]; constructor.
  - exact IH.
  - eapply Forall_impl; [|exact Ha]. intros b. apply HR.
Qed.

Lemma StronglySorted_app_between {A : Type} (R : A -> A -> Prop) (l1 l2 : list A) :
  StronglySorted R (l1 ++ l2) ->
  forall a b, In a l1 -> In b l2 -> R a b.
Proof.
  induction l1 as [|x l1 IH]; simpl; intros Hs a b Ha Hb.
  - contradiction.
  - inversion Hs as [|? ? Hs' Hx]; subst. destruct Ha as [->|Ha].
    + rewrite Forall_forall in Hx. apply Hx, in_or_app. right. exact Hb.
    + apply IH; assumption.
Qed.

Lemma sort_values_descending_perm (s : Series) :
  Permutation (sort_values_descending s) s.
Proof.
  unfold sort_values_descending.
  eapply perm_trans; [apply Permutation_sym, Permutation_rev|].
  eapply perm_trans; [apply isort_perm|].
  apply Permutation_sym, Permutation_rev.
Qed.

Lemma sort_values_descending_sorted (s : Series) :
  StronglySorted (fun a b => snd b <= snd a) (sort_values_descending s).
Proof.
  unfold sort_values_descending.
  apply StronglySorted_rev with (R := fun a b => snd a <= snd b).
  apply StronglySorted_impl with (R := holds (fun a b => Qle_bool (snd a) (snd b))).
  - intros a b H. apply Qle_bool_iff. exact H.
  - apply isort_sorted; intros.
    + apply Qle_bool_total.
    + eapply Qle_bool_trans; eassumption.
Qed.

(** C6, as stated, fails -- two rows tie on the magnitude and the top row
    is 'b', the row that comes first in the series, not the lexically
    smaller 'a'. *)
Lemma top_does_not_break_ties_by_identifier :
  String.ltb "a" "b" = true
  /\ values tied_series = [5; 5]
  /\ top 1 tied_series = ["b"]
  /\ top 1 tied_series <> ["a"].
Proof.
  split; [reflexivity|]. split; [reflexivity|]. split; [reflexivity|].
  discriminate.
Qed.

(** C6 (amended) -- [top n] returns the identifiers of the first
    min (n, N) rows of the series put in descending order of magnitude:
    the order is a rearrangement of the rows, magnitudes never increase
    along it, and no row left out has a larger magnitude than a row
    returned.  Ties are not ordered by identifier: the sort has the
    magnitude as its only key.  [top] is a function of the series, so a
    repeated call returns the same sequence. *)
Theorem top_returns_largest (n : nat) (s : Series) :
  exists ordered,
    Permutation ordered s
    /\ StronglySorted (fun a b => snd b <= snd a) ordered
    /\ top n s = index (firstn n ordered)
    /\ length (top n s) = Nat.min n (length s)
    /\ (forall a b, In a (firstn n ordered) -> In b (skipn n ordered) ->
                    snd b <= snd a).
Proof.
  exists (sort_values_descending s).
  pose proof (sort_values_descending_perm s) as Hperm.
  pose proof (sort_values_descending_sorted s) as Hsorted.
  split; [exact Hperm|]. split; [exact Hsorted|]. split; [reflexivity|]. split.
  - unfold top, index, head. rewrite length_map, length_firstn.
    rewrite (Permutation_length Hperm). reflexivity.
  - intros a b Ha Hb.
    apply (StronglySorted_app_between
             (fun a b : string * Q => snd b <= snd a)
             (firstn n (sort_values_descending s))
             (skipn n (sort_values_descending s)));
      [rewrite firstn_skipn; exact Hsorted|exact Ha|exact Hb].
Qed.

End ConcentrationFacts.

(* ================================================================= *)
(** * Part III: the remaining cells                                    *)
(* ================================================================= *)

(** ** More on the insertion sort *)

Section InsertionSortMore.
Context {A : Type} (leb : A -> A -> bool).

Lemma isort_sorted_id (l : list A) :
  StronglySorted (holds leb) l -> isort leb l = l.
Proof.
  induction 1 as [|a l Hl IH Ha]; simpl.
  - reflexivity.
  - rewrite IH. destruct l as [|b l]; simpl.
    + reflexivity.
    + inversion Ha as [|? ? Hab _]; subst. unfold holds in Hab.
      rewrite Hab. reflexivity.
Qed.

(** Entries that compare as equal keep their order: the sort is stable. *)
Lemma insert_stable (p : A -> bool) (x : A) (l : list A) :
  (forall a b, p a = true -> p b = true -> leb a b = true) ->
  filter p (insert leb x l) = filter p (x :: l).
Proof.
  intros Hp. induction l as [|y l IH]; simpl.
  - reflexivity.
  - destruct (leb x y) eqn:Hxy.
    + reflexivity.
    + simpl in IH. simpl. rewrite IH.
      destruct (p x) eqn:Hpx; [|reflexivity].
      destruct (p y) eqn:Hpy; [|reflexivity].
      rewrite (Hp x y Hpx Hpy) in Hxy. discriminate.
Qed.

Lemma isort_stable (p : A -> bool) (l : list A) :
  (forall a b, p a = true -> p b = true -> leb a b = true) ->
  filter p (isort leb l) = filter p l.
Proof.
  intros Hp. induction l as [|x l IH]; simpl.
  - reflexivity.
  - rewrite (insert_stable p x _ Hp). simpl. rewrite IH. reflexivity.
Qed.
End InsertionSortMore.

Lemma filter_all {A : Type} (f : A -> bool) (l : list A) :
  (forall x, In x l -> f x = true) -> filter f l = l.
Proof.
  induction l as [|x l IH]; simpl; intros H.
  - reflexivity.
  - rewrite (H x (or_introl eq_refl)).
    rewrite IH by (intros y Hy; apply H; right; exact Hy). reflexivity.
Qed.

(** ** The loader, once more *)

Lemma canonical_label_fixed (c : string) :
  let f := fun c => match dict_get c column_names with
                    | Some c' => c'
                    | None => c
                    end in
  f (f c) = f c.
Proof.
  cbv zeta. unfold column_names. cbn [dict_get].
  destruct (String.eqb c "Current BNF Code") eqn:E1; [reflexivity|].
  destruct (String.eqb c "MDR: BNF Description") eqn:E2; [reflexivity|].
  destruct (String.eqb c "dm+d: BNF Description") eqn:E3; [reflexivity|].
  destruct (String.eqb c "New BNF Code") eqn:E4; [reflexivity|].
  destruct (String.eqb c "BNF Code Changed (Y/N)") eqn:E5; [reflexivity|].
  rewrite E1, E2, E3, E4, E5. reflexivity.
Qed.

Lemma canonical_columns_fixed (df : DataFrame) :
  columns (canonical (canonical df)) = columns (canonical df).
Proof.
  unfold canonical, rename. cbn [columns]. rewrite map_map.
  apply map_ext. intros c. apply canonical_label_fixed.
Qed.

(** A successful load has found the three columns it reads. *)
Lemma load_mapping_Ok_located (raw out : DataFrame) :
  load_mapping raw = Ok out ->
  exists ic io inw,
    get_loc "changed" (columns (canonical raw)) = Some ic
    /\ get_loc "old_code" (columns (canonical raw)) = Some io
    /\ get_loc "new_code" (columns (canonical raw)) = Some inw.
Proof.
  unfold load_mapping, getitem, locate. cbv zeta.
  destruct (get_loc "changed" (columns (canonical raw))) as [ic|] eqn:Hc;
    [|discriminate].
  cbn [bind getitem_mask columns rows].
  destruct (get_loc "old_code" (columns (canonical raw))) as [io|] eqn:Ho;
    [|discriminate].
  cbn [bind getitem_mask columns rows].
  destruct (get_loc "new_code" (columns (canonical raw))) as [inw|] eqn:Hn;
    [|discriminate].
  intros _. exists ic, io, inw. repeat split.
Qed.

Lemma code_key_leb_total (i j : nat) (a b : list string) :
  code_key_leb i j a b = true \/ code_key_leb i j b a = true.
Proof. apply lex_leb_total. Qed.

Lemma code_key_leb_trans (i j : nat) (a b c : list string) :
  code_key_leb i j a b = true -> code_key_leb i j b c = true ->
  code_key_leb i j a c = true.
Proof. apply lex_leb_trans. Qed.

(** Loading what the loader returned changes nothing: the names are
    already canonical, every row passes the masks again, and the rows are
    already in order. *)
Theorem load_mapping_idempotent (bnf_mapping_raw out : DataFrame) :
  NoDup (columns (canonical bnf_mapping_raw)) ->
  load_mapping bnf_mapping_raw = Ok out ->
  load_mapping out = Ok out.
Proof.
  intros _ Hload.
  destruct (load_mapping_Ok_located _ _ Hload) as [ic [io [inw [Hc [Ho Hn]]]]].
  rewrite (load_mapping_located _ _ _ _ Hc Ho Hn) in Hload.
  injection Hload as Hout.
  assert (Hcols : columns (canonical out) = columns (canonical bnf_mapping_raw)).
  { rewrite <- Hout. unfold canonical at 1. unfold rename. cbn [columns].
    apply canonical_columns_fixed. }
  rewrite (load_mapping_located out ic io inw) by (rewrite Hcols; assumption).
  rewrite Hcols. rewrite <- Hout at 2. cbn [rows].
  rewrite <- Hout at 1. cbn [rows].
  rewrite filter_all.
  - rewrite isort_sorted_id; [reflexivity|].
    apply isort_sorted; [apply code_key_leb_total|apply code_key_leb_trans].
  - intros r Hr. apply isort_In in Hr. apply filter_In in Hr. apply Hr.
Qed.

Lemma load_mapping_idempotent_witness :
  load_mapping loaded_sample = Ok loaded_sample.
Proof.
  apply (load_mapping_idempotent sample_sheet loaded_sample).
  - apply NoDup_by_nodup. reflexivity.
  - reflexivity.
Defined.

(** The rows of one (old_code, new_code) pair. *)
Lemma same_codes_leb (io inw : nat) (k : string * string) (a b : list string) :
  String.eqb (iloc io a) (fst k) && String.eqb (iloc inw a) (snd k) = true ->
  String.eqb (iloc io b) (fst k) && String.eqb (iloc inw b) (snd k) = true ->
  code_key_leb io inw a b = true.
Proof.
  rewrite !andb_true_iff, !String.eqb_eq. intros [Ha1 Ha2] [Hb1 Hb2].
  unfold code_key_leb, sort_key, lex_leb. cbn [map].
  rewrite Ha1, Ha2, Hb1, Hb2, lex_compare_refl. reflexivity.
Qed.

(** The loader is stable: the rows that carry the same pair of codes come
    out in the order in which the sheet lists them. *)
Theorem load_mapping_stable (bnf_mapping_raw out : DataFrame)
    (old_code new_code : string) :
  NoDup (columns (canonical bnf_mapping_raw)) ->
  load_mapping bnf_mapping_raw = Ok out ->
  filter (fun row =>
            String.eqb (cell (canonical bnf_mapping_raw) "old_code" row) old_code
            && String.eqb (cell (canonical bnf_mapping_raw) "new_code" row) new_code)
         (rows out)
  = filter (fun row =>
              String.eqb (cell (canonical bnf_mapping_raw) "old_code" row) old_code
              && String.eqb (cell (canonical bnf_mapping_raw) "new_code" row) new_code)
           (filter (kept (canonical bnf_mapping_raw)) (rows bnf_mapping_raw)).
Proof.
  intros _ Hload.
  destruct (load_mapping_Ok_located _ _ Hload) as [ic [io [inw [Hc [Ho Hn]]]]].
  rewrite (load_mapping_located _ _ _ _ Hc Ho Hn) in Hload.
  injection Hload as Hout. rewrite <- Hout. cbn [rows].
  unfold cell. rewrite Ho, Hn.
  rewrite isort_stable.
  - f_equal. apply filter_ext. intros r. symmetry. apply kept_located; assumption.
  - intros a b. apply (same_codes_leb io inw (old_code, new_code)).
Qed.

Lemma load_mapping_stable_witness :
  filter (fun row =>
            String.eqb (cell (canonical sample_sheet) "old_code" row) "0102000L0AAAJAJ"
            && String.eqb (cell (canonical sample_sheet) "new_code" row) "0102000L0AAADAD")
         (rows loaded_sample)
  = filter (fun row =>
              String.eqb (cell (canonical sample_sheet) "old_code" row) "0102000L0AAAJAJ"
              && String.eqb (cell (canonical sample_sheet) "new_code" row) "0102000L0AAADAD")
           (filter (kept (canonical sample_sheet)) (rows sample_sheet)).
Proof.
  apply (load_mapping_stable sample_sheet loaded_sample).
  - apply NoDup_by_nodup. reflexivity.
  - reflexivity.
Defined.

(** ** More on counters *)

Section CounterMore.
Context {K : Type} (eqb : K -> K -> bool).
Hypothesis eqb_spec : forall a b, eqb a b = true <-> a = b.

Lemma incr_positive (k : K) (c : list (K * nat)) :
  Forall (fun item => (1 <= snd item)%nat) c ->
  Forall (fun item => (1 <= snd item)%nat) (incr eqb k c).
Proof.
  induction 1 as [|[k0 n] c Hn Hc IH]; simpl.
  - constructor; [simpl; lia|constructor].
  - destruct (eqb k k0); constructor; simpl in *; try lia; assumption.
Qed.

(** A counter never holds a zero count. *)
Lemma Counter_positive (xs : list K) :
  Forall (fun item => (1 <= snd item)%nat) (Counter eqb xs).
Proof.
  unfold Counter.
  assert (H : forall acc, Forall (fun item => (1 <= snd item)%nat) acc ->
              Forall (fun item => (1 <= snd item)%nat)
                     (fold_left (fun c x => incr eqb x c) xs acc)).
  { induction xs as [|x xs IH]; intros acc Hacc; simpl.
    - exact Hacc.
    - apply IH, incr_positive, Hacc. }
  apply H. constructor.
Qed.

Lemma counter_get_In (k : K) (n : nat) (c : list (K * nat)) :
  NoDup (map fst c) -> In (k, n) c -> counter_get eqb k c = n.
Proof.
  induction c as [|[k0 n0] c IH]; simpl; intros Hnd Hin.
  - contradiction.
  - inversion Hnd as [|? ? Hnin Hnd']; subst. destruct Hin as [E|Hin].
    + injection E as -> ->.
      rewrite (proj2 (eqb_spec k k) eq_refl). reflexivity.
    + destruct (eqb k k0) eqn:E.
      * apply eqb_spec in E. subst. exfalso. apply Hnin.
        apply in_map_iff. exists (k0, n). split; [reflexivity|exact Hin].
      * apply IH; assumption.
Qed.

Lemma incr_keys_list (k : K) (c : list (K * nat)) :
  map fst (incr eqb k c) =
  if existsb (eqb k) (map fst c) then map fst c else (map fst c ++ [k])%list.
Proof.
  induction c as [|[k0 n] c IH]; simpl.
  - reflexivity.
  - destruct (eqb k k0); simpl.
    + reflexivity.
    + rewrite IH. destruct (existsb (eqb k) (map fst c)); reflexivity.
Qed.

Lemma Counter_snoc (xs : list K) (x : K) :
  Counter eqb (xs ++ [x]) = incr eqb x (Counter eqb xs).
Proof. unfold Counter. rewrite fold_left_app. reflexivity. Qed.
End CounterMore.

Lemma count_occ_nat_filter (c : nat) (counts : list (string * nat)) :
  count_occ Nat.eq_dec (map snd counts) c =
  length (filter (fun item => Nat.eqb (snd item) c) counts).
Proof.
  induction counts as [|[k n] counts IH]; simpl.
  - reflexivity.
  - destruct (Nat.eq_dec n c) as [E|E].
    + subst. rewrite Nat.eqb_refl. simpl. rewrite IH. reflexivity.
    + apply Nat.eqb_neq in E. rewrite E. exact IH.
Qed.

Lemma pair_leb_total (a b : nat * nat) :
  pair_leb a b = true \/ pair_leb b a = true.
Proof.
  unfold pair_leb.
  destruct (Nat.ltb_spec (fst a) (fst b)); [left; reflexivity|].
  destruct (Nat.ltb_spec (fst b) (fst a)); [right; reflexivity|].
  assert (E : fst a = fst b) by lia. rewrite E, Nat.eqb_refl. simpl.
  destruct (Nat.leb_spec (snd a) (snd b)); [left; reflexivity|].
  right. apply Nat.leb_le. lia.
Qed.

Lemma pair_leb_trans (a b c : nat * nat) :
  pair_leb a b = true -> pair_leb b c = true -> pair_leb a c = true.
Proof.
  unfold pair_leb.
  rewrite !orb_true_iff, !andb_true_iff, !Nat.ltb_lt, !Nat.eqb_eq, !Nat.leb_le.
  lia.
Qed.

Lemma sorted_items_strict (d : list (nat * nat)) :
  NoDup (map fst d) ->
  StronglySorted (fun a b => (fst a < fst b)%nat) (sorted_items d).
Proof.
  intros Hnd. unfold sorted_items.
  assert (Hnd' : NoDup (map fst (isort pair_leb d))).
  { eapply Permutation_NoDup; [|exact Hnd].
    apply Permutation_map, Permutation_sym, isort_perm. }
  pose proof (isort_sorted pair_leb pair_leb_total pair_leb_trans d) as Hs.
  induction Hs as [|a l Hl IH Ha]; constructor.
  - apply IH. inversion Hnd'; assumption.
  - inversion Hnd' as [|? ? Hnin _]; subst.
    rewrite Forall_forall in *. intros b Hb. specialize (Ha b Hb).
    unfold holds, pair_leb in Ha.
    rewrite orb_true_iff, andb_true_iff, Nat.ltb_lt, Nat.eqb_eq in Ha.
    destruct Ha as [Ha|[Ha _]]; [exact Ha|].
    exfalso. apply Hnin. rewrite Ha. apply in_map. exact Hb.
Qed.

(** ** The histogram, entry by entry *)

(** The fan-out histogram of every mapping list is well formed: it is
    sorted by strictly increasing fan-out, it holds no fan-out of zero and
    no empty class, and the number it gives for a fan-out is the number of
    source codes with exactly that count. *)
Theorem fanout_histogram_entries (d : direction) (M : list (string * string)) :
  exists dist,
    fanout d (mapping_frame M) = Ok dist
    /\ Forall (fun item => (1 <= snd item)%nat) (code_counts dist)
    /\ StronglySorted (fun a b => (fst a < fst b)%nat) (code_count_distribution dist)
    /\ (forall count num,
          In (count, num) (code_count_distribution dist) ->
          (1 <= count)%nat /\ (1 <= num)%nat
          /\ num = length (filter (fun item => Nat.eqb (snd item) count)
                                  (code_counts dist))).
Proof.
  eexists. split; [apply fanout_mapping_frame|].
  cbn [code_counts code_count_distribution].
  set (counts := Counter String.eqb (map (source_of d) M)).
  assert (Hpos : Forall (fun item => (1 <= snd item)%nat) counts)
    by apply Counter_positive.
  split; [exact Hpos|]. split.
  - apply sorted_items_strict, Counter_NoDup, Nat.eqb_eq.
  - intros count num Hin. unfold sorted_items in Hin. apply isort_In in Hin.
    assert (Hkey : In count (map snd counts)).
    { apply (Counter_keys Nat.eqb Nat.eqb_eq).
      apply in_map_iff. exists (count, num). split; [reflexivity|exact Hin]. }
    assert (Hnum : num = count_occ Nat.eq_dec (map snd counts) count).
    { rewrite <- (Counter_get Nat.eqb Nat.eqb_eq Nat.eq_dec).
      symmetry. apply (counter_get_In Nat.eqb Nat.eqb_eq); [|exact Hin].
      apply Counter_NoDup, Nat.eqb_eq. }
    split; [|split].
    + apply in_map_iff in Hkey. destruct Hkey as [item [E Hitem]].
      rewrite Forall_forall in Hpos. rewrite <- E. apply Hpos, Hitem.
    + rewrite Hnum. apply (count_occ_In Nat.eq_dec). exact Hkey.
    + rewrite Hnum. apply count_occ_nat_filter.
Qed.

(** ** Distinct codes *)

Lemma unique_Counter (xs : list string) :
  unique xs = map fst (Counter String.eqb xs).
Proof.
  unfold unique, Counter.
  assert (H : forall acc,
             fold_left (fun seen x => if existsb (String.eqb x) seen then seen
                                      else (seen ++ [x])%list) xs (map fst acc)
             = map fst (fold_left (fun c x => incr String.eqb x c) xs acc)).
  { induction xs as [|x xs IH]; intros acc; simpl.
    - reflexivity.
    - rewrite <- IH, (incr_keys_list String.eqb). reflexivity. }
  apply (H []).
Qed.

Lemma sorted_items_values_sum (vs : list nat) :
  sum_nat (map snd (sorted_items (Counter Nat.eqb vs))) = length vs.
Proof.
  unfold sorted_items.
  rewrite (sum_nat_perm _ _ (Permutation_map snd (isort_perm pair_leb _))).
  apply Counter_total.
Qed.

(** The number of distinct codes of a column that [nunique] reports is the
    number of entries of the counter of that column, and the sum of the
    values of the fan-out histogram: the table of the distribution accounts
    for every distinct code once. *)
Theorem nunique_counts (d : direction) (bnf_mapping : DataFrame) :
  NoDup (columns bnf_mapping) ->
  In (source_field d) (columns bnf_mapping) ->
  exists dist,
    fanout d bnf_mapping = Ok dist
    /\ nunique bnf_mapping (source_field d) = Ok (length (code_counts dist))
    /\ length (code_counts dist) =
       sum_nat (map snd (code_count_distribution dist)).
Proof.
  intros _ Hin. destruct (get_loc_In _ _ Hin) as [i Hi].
  unfold fanout, nunique. rewrite (getitem_located _ _ _ Hi), !bind_Ok.
  eexists. split; [reflexivity|]. cbn [code_counts code_count_distribution].
  split.
  - rewrite unique_Counter, length_map. reflexivity.
  - rewrite sorted_items_values_sum, length_map. reflexivity.
Qed.

Lemma nunique_counts_witness :
  exists dist,
    fanout old_to_new loaded_sample = Ok dist
    /\ nunique loaded_sample (source_field old_to_new) = Ok (length (code_counts dist))
    /\ length (code_counts dist) =
       sum_nat (map snd (code_count_distribution dist)).
Proof.
  apply (nunique_counts old_to_new loaded_sample).
  - apply NoDup_by_nodup. reflexivity.
  - simpl. tauto.
Defined.

(** ** Codes with a fan-out of two *)

Lemma filter_or_length {A : Type} (f g : A -> bool) (l : list A) :
  (forall x, f x = true -> g x = false) ->
  length (filter (fun x => f x || g x) l) =
  (length (filter f l) + length (filter g l))%nat.
Proof.
  intros Hfg. induction l as [|x l IH]; simpl.
  - reflexivity.
  - destruct (f x) eqn:Ef; simpl.
    + rewrite (Hfg x Ef). simpl. rewrite IH. reflexivity.
    + destruct (g x); simpl; rewrite IH; lia.
Qed.

Lemma count_occ_key {A : Type} (key : A -> string) (l : list A) (code : string) :
  count_occ string_dec (map key l) code =
  length (filter (fun x => String.eqb (key x) code) l).
Proof.
  induction l as [|x l IH]; simpl.
  - reflexivity.
  - destruct (string_dec (key x) code) as [E|E].
    + rewrite E, String.eqb_refl. simpl. rewrite IH. reflexivity.
    + apply String.eqb_neq in E. rewrite E. exact IH.
Qed.

Lemma existsb_eqb_In (c : string) (codes : list string) :
  existsb (String.eqb c) codes = true <-> In c codes.
Proof.
  rewrite existsb_exists. split.
  - intros [x [Hx E]]. apply String.eqb_eq in E. subst. exact Hx.
  - intros H. exists c. split; [exact H|apply String.eqb_refl].
Qed.

(** The rows whose key is one of [codes], when each of these codes keys
    exactly [n] rows. *)
Lemma isin_length {A : Type} (key : A -> string) (l : list A) (n : nat)
    (codes : list string) :
  NoDup codes ->
  (forall c, In c codes -> count_occ string_dec (map key l) c = n) ->
  length (filter (fun x => existsb (String.eqb (key x)) codes) l) =
  (n * length codes)%nat.
Proof.
  induction 1 as [|c codes Hnin Hnd IH]; intros Hn.
  - simpl. rewrite filter_none; [simpl; lia|].
    apply Forall_forall. intros; reflexivity.
  - cbn [existsb length].
    rewrite (filter_or_length (fun x => String.eqb (key x) c)
                              (fun x => existsb (String.eqb (key x)) codes)).
    + rewrite <- count_occ_key, (Hn c (or_introl eq_refl)).
      rewrite IH by (intros c' Hc'; apply Hn; right; exact Hc'). lia.
    + intros x E. apply String.eqb_eq in E.
      destruct (existsb (String.eqb (key x)) codes) eqn:Ex; [|reflexivity].
      apply existsb_eqb_In in Ex. subst. contradiction.
Qed.

(** Dropping items from a dictionary keeps its keys distinct. *)
Lemma filter_keys_NoDup {K V : Type} (keep : K * V -> bool) (d : list (K * V)) :
  NoDup (map fst d) -> NoDup (map fst (filter keep d)).
Proof.
  intros Hnd. induction d as [|item d IH]; simpl.
  - constructor.
  - simpl in Hnd. apply NoDup_cons_iff in Hnd. destruct Hnd as [Hnin Hnd].
    destruct (keep item); simpl; [|apply IH, Hnd].
    apply NoDup_cons_iff. split; [|apply IH, Hnd].
    intros Hin. apply Hnin. apply in_map_iff in Hin.
    destruct Hin as [item' [E Hitem']]. apply filter_In in Hitem'.
    apply in_map_iff. exists item'. split; [exact E|apply Hitem'].
Qed.

(** What [codes_mapping_to_2] lists: each code that labels exactly two
    entries of the column, once. *)
Lemma codes_mapping_to_2_spec (column : list string) :
  NoDup (codes_mapping_to_2 (Counter String.eqb column))
  /\ forall code,
       In code (codes_mapping_to_2 (Counter String.eqb column)) <->
       count_occ string_dec column code = 2%nat.
Proof.
  unfold codes_mapping_to_2. split.
  - apply filter_keys_NoDup, Counter_NoDup, string_eqb_spec.
  - intros code. rewrite <- (Counter_get String.eqb string_eqb_spec).
    pose proof (Counter_NoDup String.eqb string_eqb_spec column) as Hnd.
    rewrite in_map_iff. split.
    + intros [[k n] [E Hin]]. simpl in E. subst k.
      apply filter_In in Hin. destruct Hin as [Hin Hn].
      simpl in Hn. apply Nat.eqb_eq in Hn. subst n.
      apply (counter_get_In String.eqb string_eqb_spec); assumption.
    + intros Hget. exists (code, 2%nat). split; [reflexivity|].
      apply filter_In. split; [|reflexivity].
      assert (Hkey : In code (map fst (Counter String.eqb column))).
      { apply (Counter_keys String.eqb string_eqb_spec).
        apply (count_occ_In string_dec).
        rewrite <- (Counter_get String.eqb string_eqb_spec), Hget. lia. }
      apply in_map_iff in Hkey. destruct Hkey as [[k n] [E Hin]].
      simpl in E. subst k.
      rewrite (counter_get_In String.eqb string_eqb_spec _ _ _ Hnd Hin) in Hget.
      subst n. exact Hin.
Qed.

(** Lines 154-157 -- the display of the old codes that map to two new codes
    shows exactly the rows whose old code labels two rows of the mapping,
    in the order of the mapping, and so twice as many rows as there are
    such codes. *)
Theorem old_codes_mapping_to_2_rows (bnf_mapping : DataFrame) :
  NoDup (columns bnf_mapping) ->
  In "old_code" (columns bnf_mapping) ->
  exists shown,
    old_codes_mapping_to_2_new_codes bnf_mapping = Ok shown
    /\ columns shown = columns bnf_mapping
    /\ rows shown =
       filter (fun row =>
                 Nat.eqb (length (filter (fun row' =>
                                            String.eqb (cell bnf_mapping "old_code" row')
                                                       (cell bnf_mapping "old_code" row))
                                         (rows bnf_mapping))) 2)
              (rows bnf_mapping)
    /\ exists codes,
         NoDup codes
         /\ (forall code, In code codes <->
               length (filter (fun row =>
                                 String.eqb (cell bnf_mapping "old_code" row) code)
                              (rows bnf_mapping)) = 2%nat)
         /\ length (rows shown) = (2 * length codes)%nat.
Proof.
  intros _ Hin. destruct (get_loc_In _ _ Hin) as [i Hi].
  unfold old_codes_mapping_to_2_new_codes.
  rewrite (getitem_located _ _ _ Hi), !bind_Ok.
  eexists. split; [reflexivity|]. cbn [columns rows getitem_mask].
  split; [reflexivity|].
  unfold isin. rewrite map_map, select_map.
  set (column := map (iloc i) (rows bnf_mapping)).
  destruct (codes_mapping_to_2_spec column) as [Hnd Hcodes].
  assert (Hcell : forall row, cell bnf_mapping "old_code" row = iloc i row).
  { intros row. unfold cell. rewrite Hi. reflexivity. }
  split.
  - apply filter_ext. intros row.
    destruct (existsb _ _) eqn:Ex.
    + apply existsb_eqb_In, Hcodes in Ex. unfold column in Ex.
      rewrite count_occ_key in Ex. symmetry. apply Nat.eqb_eq.
      rewrite <- Ex. f_equal. apply filter_ext. intros row'.
      rewrite !Hcell. reflexivity.
    + symmetry. apply Nat.eqb_neq. intros E.
      assert (Hin' : In (iloc i row)
                        (codes_mapping_to_2 (Counter String.eqb column))).
      { apply Hcodes. unfold column. rewrite count_occ_key. rewrite <- E.
        f_equal. apply filter_ext. intros row'. rewrite !Hcell. reflexivity. }
      apply existsb_eqb_In in Hin'. congruence.
  - exists (codes_mapping_to_2 (Counter String.eqb column)).
    split; [exact Hnd|]. split.
    + intros code. rewrite Hcodes. unfold column. rewrite count_occ_key.
      assert (E : filter (fun x => String.eqb (iloc i x) code) (rows bnf_mapping)
                  = filter (fun row => String.eqb (cell bnf_mapping "old_code" row) code)
                           (rows bnf_mapping)).
      { apply filter_ext. intros row. rewrite Hcell. reflexivity. }
      rewrite E. reflexivity.
    + apply (isin_length (iloc i)); [exact Hnd|].
      intros c Hc. apply Hcodes. exact Hc.
Qed.

Lemma old_codes_mapping_to_2_rows_witness :
  exists shown,
    old_codes_mapping_to_2_new_codes loaded_sample = Ok shown
    /\ columns shown = columns loaded_sample
    /\ rows shown =
       filter (fun row =>
                 Nat.eqb (length (filter (fun row' =>
                                            String.eqb (cell loaded_sample "old_code" row')
                                                       (cell loaded_sample "old_code" row))
                                         (rows loaded_sample))) 2)
              (rows loaded_sample)
    /\ exists codes,
         NoDup codes
         /\ (forall code, In code codes <->
               length (filter (fun row =>
                                 String.eqb (cell loaded_sample "old_code" row) code)
                              (rows loaded_sample)) = 2%nat)
         /\ length (rows shown) = (2 * length codes)%nat.
Proof.
  apply (old_codes_mapping_to_2_rows loaded_sample).
  - apply NoDup_by_nodup. reflexivity.
  - simpl. tauto.
Defined.

Lemma isin_codes_mapping_to_2 (i : nat) (l : list (list string)) :
  filter (fun row =>
            existsb (String.eqb (iloc i row))
                    (codes_mapping_to_2 (Counter String.eqb (map (iloc i) l)))) l
  = filter (fun row =>
              Nat.eqb (length (filter (fun row' => String.eqb (iloc i row') (iloc i row))
                                      l)) 2) l.
Proof.
  destruct (codes_mapping_to_2_spec (map (iloc i) l)) as [_ Hcodes].
  apply filter_ext. intros row.
  destruct (existsb _ _) eqn:Ex.
  - apply existsb_eqb_In, Hcodes in Ex. rewrite count_occ_key in Ex.
    symmetry. apply Nat.eqb_eq. exact Ex.
  - symmetry. apply Nat.eqb_neq. intros E.
    assert (Hin : In (iloc i row)
                     (codes_mapping_to_2 (Counter String.eqb (map (iloc i) l)))).
    { apply Hcodes. rewrite count_occ_key. exact E. }
    apply existsb_eqb_In in Hin. congruence.
Qed.

(** Lines 206-209 -- the display of the new codes that are mapped to from
    two old codes shows the rows whose new code labels two rows of the
    mapping, sorted by the pair (new_code, old_code), and so twice as many
    rows as there are such codes. *)
Theorem new_codes_mapping_to_2_rows (bnf_mapping : DataFrame) :
  NoDup (columns bnf_mapping) ->
  In "old_code" (columns bnf_mapping) ->
  In "new_code" (columns bnf_mapping) ->
  exists shown,
    new_codes_mapping_to_2_new_codes bnf_mapping = Ok shown
    /\ columns shown = columns bnf_mapping
    /\ Permutation (rows shown)
         (filter (fun row =>
                    Nat.eqb (length (filter (fun row' =>
                                               String.eqb (cell bnf_mapping "new_code" row')
                                                          (cell bnf_mapping "new_code" row))
                                            (rows bnf_mapping))) 2)
                 (rows bnf_mapping))
    /\ StronglySorted
         (fun r1 r2 => pair_le (cell bnf_mapping "new_code" r1, cell bnf_mapping "old_code" r1)
                               (cell bnf_mapping "new_code" r2, cell bnf_mapping "old_code" r2))
         (rows shown)
    /\ length (rows shown) =
       (2 * length (codes_mapping_to_2
                      (Counter String.eqb
                         (map (cell bnf_mapping "new_code") (rows bnf_mapping)))))%nat.
Proof.
  intros _ Ho Hn.
  destruct (get_loc_In _ _ Ho) as [io Hio].
  destruct (get_loc_In _ _ Hn) as [inw Hinw].
  unfold new_codes_mapping_to_2_new_codes.
  rewrite (getitem_located _ _ _ Hinw), !bind_Ok.
  unfold sort_values. cbn [mapM columns rows getitem_mask].
  unfold locate. rewrite Hinw, Hio. cbn [bind].
  eexists. split; [reflexivity|]. cbn [columns rows].
  split; [reflexivity|].
  unfold isin. rewrite map_map, select_map, isin_codes_mapping_to_2.
  assert (Hcell : forall row, cell bnf_mapping "new_code" row = iloc inw row).
  { intros row. unfold cell. rewrite Hinw. reflexivity. }
  assert (Hcell' : forall row, cell bnf_mapping "old_code" row = iloc io row).
  { intros row. unfold cell. rewrite Hio. reflexivity. }
  assert (Hfilter :
            filter (fun row =>
                      Nat.eqb (length (filter (fun row' =>
                                                 String.eqb (cell bnf_mapping "new_code" row')
                                                            (cell bnf_mapping "new_code" row))
                                              (rows bnf_mapping))) 2)
                   (rows bnf_mapping)
            = filter (fun row =>
                        Nat.eqb (length (filter (fun row' =>
                                                   String.eqb (iloc inw row') (iloc inw row))
                                                (rows bnf_mapping))) 2)
                     (rows bnf_mapping)).
  { apply filter_ext. intros row. f_equal. f_equal. apply filter_ext.
    intros row'. rewrite !Hcell. reflexivity. }
  rewrite Hfilter. split; [apply isort_perm|]. split.
  - apply StronglySorted_impl with (R := holds (code_key_leb inw io)).
    + intros a b H. rewrite !Hcell, !Hcell'. apply lex_leb_pair. exact H.
    + apply isort_sorted; [apply code_key_leb_total|apply code_key_leb_trans].
  - rewrite isort_length, <- isin_codes_mapping_to_2.
    rewrite (map_ext _ _ Hcell).
    destruct (codes_mapping_to_2_spec (map (iloc inw) (rows bnf_mapping)))
      as [Hnd Hcodes].
    apply (isin_length (iloc inw)); [exact Hnd|].
    intros c Hc. apply Hcodes. exact Hc.
Qed.

Lemma new_codes_mapping_to_2_rows_witness :
  exists shown,
    new_codes_mapping_to_2_new_codes loaded_sample = Ok shown
    /\ columns shown = columns loaded_sample
    /\ Permutation (rows shown)
         (filter (fun row =>
                    Nat.eqb (length (filter (fun row' =>
                                               String.eqb (cell loaded_sample "new_code" row')
                                                          (cell loaded_sample "new_code" row))
                                            (rows loaded_sample))) 2)
                 (rows loaded_sample))
    /\ StronglySorted
         (fun r1 r2 => pair_le (cell loaded_sample "new_code" r1, cell loaded_sample "old_code" r1)
                               (cell loaded_sample "new_code" r2, cell loaded_sample "old_code" r2))
         (rows shown)
    /\ length (rows shown) =
       (2 * length (codes_mapping_to_2
                      (Counter String.eqb
                         (map (cell loaded_sample "new_code") (rows loaded_sample)))))%nat.
Proof.
  apply (new_codes_mapping_to_2_rows loaded_sample).
  - apply NoDup_by_nodup. reflexivity.
  - simpl. tauto.
  - simpl. tauto.
Defined.

(** ** The most common code *)

Lemma max_by_count_first (items : list (string * nat)) :
  forall best,
  exists before after,
    best :: items = (before ++ max_by_count best items :: after)%list
    /\ Forall (fun item => (snd item < snd (max_by_count best items))%nat) before
    /\ Forall (fun item => (snd item <= snd (max_by_count best items))%nat) after.
Proof.
  induction items as [|item items IH]; intros best; simpl.
  - exists [], []. repeat split; constructor.
  - destruct (Nat.ltb_spec (snd best) (snd item)) as [Hlt|Hge].
    + destruct (IH item) as [before [after [E [Hb Ha]]]].
      exists (best :: before), after. split; [|split].
      * simpl. rewrite <- E. reflexivity.
      * constructor; [|exact Hb].
        destruct before as [|b before]; simpl in E; injection E as E1 E2.
        -- rewrite <- E1. exact Hlt.
        -- inversion Hb as [|? ? Hb1 _]; subst. lia.
      * exact Ha.
    + destruct (IH best) as [before [after [E [Hb Ha]]]].
      destruct before as [|b before]; simpl in E; injection E as E1 E2.
      * exists [], (item :: after). split; [|split].
        -- simpl. rewrite <- E1, <- E2. reflexivity.
        -- constructor.
        -- constructor; [rewrite <- E1; exact Hge|exact Ha].
      * exists (best :: item :: before), after. split; [|split].
        -- simpl. rewrite <- E2. reflexivity.
        -- inversion Hb as [|? ? Hb1 Hb2]; subst.
           constructor; [exact Hb1|]. constructor; [lia|exact Hb2].
        -- exact Ha.
Qed.

Lemma Counter_nonempty (xs : list string) :
  xs <> [] -> Counter String.eqb xs <> [].
Proof.
  intros Hne E. destruct xs as [|x xs]; [congruence|].
  assert (H : In x (map fst (Counter String.eqb (x :: xs)))).
  { apply (Counter_keys String.eqb string_eqb_spec). left. reflexivity. }
  rewrite E in H. exact H.
Qed.

(** Lines 182-183 -- on a mapping without rows, taking the most common old
    code fails with [IndexError].  Otherwise it yields a code of the column
    whose number of rows no other code exceeds, the first such code in
    order of first appearance; and the display that follows shows the
    first ten of its rows, or all of them when there are fewer. *)
Theorem most_common_old_code (bnf_mapping : DataFrame) :
  NoDup (columns bnf_mapping) ->
  In "old_code" (columns bnf_mapping) ->
  exists old_code,
    getitem bnf_mapping "old_code" = Ok old_code
    /\ (rows bnf_mapping = [] ->
        most_common_code (Counter String.eqb old_code) = IndexError)
    /\ (rows bnf_mapping <> [] ->
        exists bnf_code shown,
          most_common_code (Counter String.eqb old_code) = Item bnf_code
          /\ In bnf_code old_code
          /\ (forall code, (count_occ string_dec old_code code
                            <= count_occ string_dec old_code bnf_code)%nat)
          /\ (exists before after,
                unique old_code = (before ++ bnf_code :: after)%list
                /\ forall code, In code before ->
                     (count_occ string_dec old_code code
                      < count_occ string_dec old_code bnf_code)%nat)
          /\ rows_with_code bnf_mapping "old_code" bnf_code = Ok shown
          /\ length (rows (head_frame 10 shown)) =
             Nat.min 10 (count_occ string_dec old_code bnf_code)).
Proof.
  intros _ Hin. destruct (get_loc_In _ _ Hin) as [i Hi].
  rewrite (getitem_located _ _ _ Hi). eexists. split; [reflexivity|].
  set (old_code := map (iloc i) (rows bnf_mapping)).
  split.
  - intros E. unfold old_code. rewrite E. reflexivity.
  - intros Hne.
    assert (Hcol : old_code <> []).
    { unfold old_code. destruct (rows bnf_mapping); [congruence|discriminate]. }
    pose proof (Counter_nonempty old_code Hcol) as Hcne.
    pose proof (Counter_NoDup String.eqb string_eqb_spec old_code) as Hnd.
    assert (Hget : forall k n, In (k, n) (Counter String.eqb old_code) ->
                               count_occ string_dec old_code k = n).
    { intros k n Hkn. rewrite <- (Counter_get String.eqb string_eqb_spec).
      apply (counter_get_In String.eqb string_eqb_spec); assumption. }
    destruct (Counter String.eqb old_code) as [|item items] eqn:Ec; [congruence|].
    destruct (max_by_count_first items item) as [before [after [E [Hb Ha]]]].
    set (best := max_by_count item items) in *.
    assert (Hbest : In best (item :: items)).
    { rewrite E. apply in_or_app. right. left. reflexivity. }
    assert (Hcount : count_occ string_dec old_code (fst best) = snd best).
    { apply Hget. destruct best. exact Hbest. }
    exists (fst best). eexists.
    split; [reflexivity|]. split; [|split; [|split; [|split]]].
    + apply (Counter_keys String.eqb string_eqb_spec). rewrite Ec.
      apply in_map. exact Hbest.
    + intros code. rewrite Hcount.
      destruct (in_dec string_dec code old_code) as [Hc|Hc].
      * apply (Counter_keys String.eqb string_eqb_spec) in Hc. rewrite Ec in Hc.
        apply in_map_iff in Hc. destruct Hc as [[k n] [Ek Hkn]].
        simpl in Ek. subst k. rewrite (Hget code n Hkn).
        rewrite E in Hkn. apply in_app_or in Hkn.
        rewrite Forall_forall in Hb, Ha.
        destruct Hkn as [Hkn|[Hkn|Hkn]].
        -- specialize (Hb _ Hkn). simpl in Hb. lia.
        -- rewrite Hkn. simpl. lia.
        -- specialize (Ha _ Hkn). simpl in Ha. lia.
      * rewrite (proj1 (count_occ_not_In string_dec old_code code) Hc). lia.
    + exists (map fst before), (map fst after). split.
      * rewrite unique_Counter, Ec, E, map_app. reflexivity.
      * intros code Hc. apply in_map_iff in Hc. destruct Hc as [[k n] [Ek Hkn]].
        simpl in Ek. subst k. rewrite Hcount.
        rewrite (Hget code n); [|rewrite E; apply in_or_app; left; exact Hkn].
        rewrite Forall_forall in Hb. apply (Hb _ Hkn).
    + unfold rows_with_code. rewrite (getitem_located _ _ _ Hi). reflexivity.
    + cbn [head_frame rows getitem_mask]. unfold head.
      rewrite length_firstn, map_map, select_map. f_equal.
      unfold old_code. rewrite count_occ_key. reflexivity.
Qed.

Lemma most_common_old_code_witness :
  exists old_code,
    getitem loaded_sample "old_code" = Ok old_code
    /\ (rows loaded_sample = [] ->
        most_common_code (Counter String.eqb old_code) = IndexError)
    /\ (rows loaded_sample <> [] ->
        exists bnf_code shown,
          most_common_code (Counter String.eqb old_code) = Item bnf_code
          /\ In bnf_code old_code
          /\ (forall code, (count_occ string_dec old_code code
                            <= count_occ string_dec old_code bnf_code)%nat)
          /\ (exists before after,
                unique old_code = (before ++ bnf_code :: after)%list
                /\ forall code, In code before ->
                     (count_occ string_dec old_code code
                      < count_occ string_dec old_code bnf_code)%nat)
          /\ rows_with_code loaded_sample "old_code" bnf_code = Ok shown
          /\ length (rows (head_frame 10 shown)) =
             Nat.min 10 (count_occ string_dec old_code bnf_code)).
Proof.
  apply (most_common_old_code loaded_sample).
  - apply NoDup_by_nodup. reflexivity.
  - simpl. tauto.
Defined.

(** ** The fan-out of a loaded mapping *)

Lemma StronglySorted_snoc_inv {A : Type} (R : A -> A -> Prop) (l : list A) (x : A) :
  StronglySorted R (l ++ [x]) ->
  StronglySorted R l /\ Forall (fun y => R y x) l.
Proof.
  induction l as [|a l IH]; simpl; intros Hs.
  - split; constructor.
  - inversion Hs as [|? ? Hs' Ha]; subst. destruct (IH Hs') as [Hl Hx].
    apply Forall_app in Ha. destruct Ha as [Ha Hax].
    split; constructor; try assumption.
    inversion Hax; assumption.
Qed.

Lemma StronglySorted_map {A B : Type} (f : A -> B) (R : B -> B -> Prop) (l : list A) :
  StronglySorted (fun a b => R (f a) (f b)) l -> StronglySorted R (map f l).
Proof.
  induction 1 as [|a l Hl IH Ha]; simpl; constructor.
  - exact IH.
  - apply Forall_map. exact Ha.
Qed.

(** The counter of a column in ascending order lists its keys in strictly
    ascending order. *)
Lemma Counter_keys_ascending (xs : list string) :
  StronglySorted (fun a b => String.compare a b <> Gt) xs ->
  StronglySorted (fun a b => String.compare a b = Lt)
                 (map fst (Counter String.eqb xs)).
Proof.
  induction xs as [|x xs IH] using rev_ind; intros Hs.
  - constructor.
  - apply StronglySorted_snoc_inv in Hs. destruct Hs as [Hs Hx].
    rewrite Counter_snoc, (incr_keys_list String.eqb).
    destruct (existsb (String.eqb x) (map fst (Counter String.eqb xs))) eqn:Ex.
    + apply IH, Hs.
    + apply StronglySorted_snoc; [apply IH, Hs|].
      apply Forall_forall. intros y Hy.
      assert (Hyx : y <> x).
      { intros ->. apply existsb_eqb_In in Hy. congruence. }
      apply (proj1 (Counter_keys String.eqb string_eqb_spec xs y)) in Hy.
      rewrite Forall_forall in Hx. specialize (Hx y Hy). simpl in Hx.
      destruct (String.compare y x) eqn:E; [|reflexivity|congruence].
      apply String.compare_eq_iff in E. contradiction.
Qed.

(** After a successful load the fan-out cannot fail in either direction,
    and the counter of the old codes lists them in strictly ascending
    order, as the sorted mapping presents them. *)
Theorem fanout_of_loaded_mapping (bnf_mapping_raw bnf_mapping : DataFrame) :
  NoDup (columns (canonical bnf_mapping_raw)) ->
  load_mapping bnf_mapping_raw = Ok bnf_mapping ->
  (exists dist, fanout new_to_old bnf_mapping = Ok dist)
  /\ exists dist,
       fanout old_to_new bnf_mapping = Ok dist
       /\ StronglySorted (fun a b => String.compare a b = Lt)
                         (map fst (code_counts dist)).
Proof.
  intros _ Hload.
  destruct (load_mapping_Ok_located _ _ Hload) as [ic [io [inw [Hc [Ho Hn]]]]].
  rewrite (load_mapping_located _ _ _ _ Hc Ho Hn) in Hload.
  injection Hload as Hout. rewrite <- Hout. unfold fanout. split.
  - rewrite (getitem_located _ _ inw) by exact Hn. rewrite bind_Ok.
    eexists. reflexivity.
  - rewrite (getitem_located _ _ io) by exact Ho. rewrite bind_Ok.
    eexists. split; [reflexivity|]. cbn [code_counts rows].
    apply Counter_keys_ascending, StronglySorted_map.
    eapply StronglySorted_impl;
      [|apply (isort_sorted (code_key_leb io inw));
        [apply code_key_leb_total|apply code_key_leb_trans]].
    intros a b H. apply lex_leb_pair in H. destruct H as [H|[H _]]; simpl in H.
    + congruence.
    + rewrite H, string_compare_refl. discriminate.
Qed.

Lemma fanout_of_loaded_mapping_witness :
  (exists dist, fanout new_to_old loaded_sample = Ok dist)
  /\ exists dist,
       fanout old_to_new loaded_sample = Ok dist
       /\ StronglySorted (fun a b => String.compare a b = Lt)
                         (map fst (code_counts dist)).
Proof.
  apply (fanout_of_loaded_mapping sample_sheet loaded_sample).
  - apply NoDup_by_nodup. reflexivity.
  - reflexivity.
Defined.

(** ** The list of codes of the query *)

Lemma string_app_assoc (a b c : string) : ((a ++ b) ++ c = a ++ (b ++ c))%string.
Proof.
  induction a as [|ch a IH]; simpl.
  - reflexivity.
  - rewrite IH. reflexivity.
Qed.

Lemma string_app_nil_r (s : string) : (s ++ "")%string = s.
Proof.
  induction s as [|ch s IH]; simpl.
  - reflexivity.
  - rewrite IH. reflexivity.
Qed.

(** A quoted code at the head of a string determines the code and what
    follows it. *)
Lemma quoted_prefix_inj (c : string) :
  forall c' r r',
    quote_free c = true -> quote_free c' = true ->
    (quoted c ++ r = quoted c' ++ r')%string -> c = c' /\ r = r'.
Proof.
  unfold quoted. intros c' r r' Hc Hc' E. simpl in E. injection E as E.
  rewrite !string_app_assoc in E. simpl in E.
  revert c' Hc Hc' E.
  induction c as [|ch c IH]; intros [|ch' c'] Hc Hc' E; simpl in *.
  - injection E as E. split; [reflexivity|exact E].
  - injection E as E1 E2. subst ch'. simpl in Hc'. discriminate.
  - injection E as E1 E2. subst ch. simpl in Hc. discriminate.
  - injection E as E1 E2. subst ch'.
    apply andb_true_iff in Hc, Hc'. destruct Hc as [_ Hc], Hc' as [_ Hc'].
    destruct (IH c' Hc Hc' E2) as [-> ->]. split; reflexivity.
Qed.

Lemma joined_cons (code : string) (codes : list string) :
  joined_bnf_codes (code :: codes) =
  (quoted code ++ match codes with
                  | [] => ""
                  | _ :: _ => ", " ++ joined_bnf_codes codes
                  end)%string.
Proof.
  unfold joined_bnf_codes. destruct codes as [|code' codes].
  - cbn [map join]. rewrite string_app_nil_r. reflexivity.
  - reflexivity.
Qed.

(** Lines 237 and 305 -- the string of quoted, comma-separated codes that
    goes into the query is empty exactly for the empty list of codes (the
    query then reads [IN ()]), and for codes that hold no quote character
    it identifies the list of codes, repeated codes included: two lists
    that give the same string are the same list. *)
Theorem joined_bnf_codes_injective (codes codes' : list string) :
  Forall (fun c => quote_free c = true) codes ->
  Forall (fun c => quote_free c = true) codes' ->
  (joined_bnf_codes codes = "" <-> codes = [])
  /\ (joined_bnf_codes codes = joined_bnf_codes codes' -> codes = codes').
Proof.
  intros Hq Hq'. split.
  - split; [|intros ->; reflexivity].
    destruct codes as [|c codes]; [reflexivity|].
    rewrite joined_cons. unfold quoted. simpl. discriminate.
  - revert codes' Hq'.
    induction Hq as [|c codes Hc Hq IH]; intros codes' Hq' E.
    + destruct codes' as [|c' codes']; [reflexivity|].
      rewrite joined_cons in E. unfold quoted in E. simpl in E. discriminate.
    + destruct Hq' as [|c' codes' Hc' Hq'].
      * rewrite joined_cons in E. unfold quoted in E. simpl in E. discriminate.
      * rewrite !joined_cons in E.
        destruct (quoted_prefix_inj c c' _ _ Hc Hc' E) as [-> Er].
        f_equal. destruct codes as [|c2 codes], codes' as [|c2' codes'];
          try reflexivity; try discriminate.
        apply IH; [exact Hq'|]. simpl in Er. injection Er as Er. exact Er.
Qed.

Lemma joined_bnf_codes_injective_witness :
  (joined_bnf_codes sample_codes = "" <-> sample_codes = [])
  /\ (joined_bnf_codes sample_codes = joined_bnf_codes sample_codes ->
      sample_codes = sample_codes).
Proof.
  apply (joined_bnf_codes_injective sample_codes sample_codes);
    repeat constructor.
Defined.

(** The codes of the sample, as the query lists them. *)
Example joined_bnf_codes_sample :
  joined_bnf_codes sample_codes = "'0102000L0AAAJAJ', '0204000H0AAAAAA'".
Proof. reflexivity. Qed.

(** ** The cumulative curve *)

Section CurveFacts.
Local Open Scope Z_scope.

(** *** int64 sums *)

Lemma wrap64_add_l (a b : Z) : wrap64 (wrap64 a + b) = wrap64 (a + b).
Proof.
  unfold wrap64. f_equal.
  replace ((a + 2 ^ 63) mod 2 ^ 64 - 2 ^ 63 + b + 2 ^ 63)
    with ((a + 2 ^ 63) mod 2 ^ 64 + b) by lia.
  rewrite Zplus_mod_idemp_l. f_equal. lia.
Qed.

Lemma wrap64_range (z : Z) : - 2 ^ 63 <= wrap64 z < 2 ^ 63.
Proof.
  unfold wrap64. pose proof (Z.mod_pos_bound (z + 2 ^ 63) (2 ^ 64) ltac:(lia)). lia.
Qed.

Lemma sum64_from_wraps (xs : list Z) :
  forall acc, fold_left add64 xs (wrap64 acc) = wrap64 (acc + total_of xs).
Proof.
  induction xs as [|x xs IH]; intros acc; simpl.
  - f_equal. lia.
  - unfold add64 at 2. rewrite wrap64_add_l, IH. f_equal. lia.
Qed.

(** Lines 262 and 330 -- [items.sum()] is the sum of the magnitudes brought
    back into the range of int64 modulo 2 ^ 64: it is the sum itself
    exactly when the sum lies in that range. *)
Theorem sum_wraps_around (rows : list (string * Z)) :
  sum (Int64Series rows) = np_int64 (wrap64 (total_of (map snd rows)))
  /\ - 2 ^ 63 <= wrap64 (total_of (map snd rows)) < 2 ^ 63
  /\ (wrap64 (total_of (map snd rows)) - total_of (map snd rows)) mod 2 ^ 64 = 0
  /\ (sum (Int64Series rows) = np_int64 (total_of (map snd rows))
      <-> - 2 ^ 63 <= total_of (map snd rows) < 2 ^ 63).
Proof.
  assert (E : sum (Int64Series rows) = np_int64 (wrap64 (total_of (map snd rows)))).
  { unfold sum, sum64. change 0 with (wrap64 0) at 1.
    rewrite sum64_from_wraps. reflexivity. }
  pose proof (wrap64_range (total_of (map snd rows))) as Hrange.
  split; [exact E|]. split; [exact Hrange|]. split.
  - unfold wrap64.
    replace ((total_of (map snd rows) + 2 ^ 63) mod 2 ^ 64 - 2 ^ 63
             - total_of (map snd rows))
      with ((total_of (map snd rows) + 2 ^ 63) mod 2 ^ 64
            - (total_of (map snd rows) + 2 ^ 63)) by lia.
    rewrite Zminus_mod, Z.mod_mod by lia. rewrite Z.sub_diag. reflexivity.
  - rewrite E. split.
    + intros H. injection H as H. rewrite <- H. exact Hrange.
    + intros H. f_equal. unfold wrap64. rewrite Z.mod_small; lia.
Qed.

(** *** The running totals *)

Lemma total_of_app (l1 l2 : list Z) : total_of (l1 ++ l2) = total_of l1 + total_of l2.
Proof. induction l1 as [|x l1 IH]; simpl; lia. Qed.

Lemma total_of_perm (l l' : list Z) : Permutation l l' -> total_of l = total_of l'.
Proof.
  induction 1 as [|x l l' _ IH|x y l|l l' l'' _ IH1 _ IH2]; simpl; lia.
Qed.

Lemma cumsum_from_length (xs : list Z) :
  forall acc, length (cumsum_from acc xs) = length xs.
Proof.
  induction xs as [|x xs IH]; intros acc; simpl.
  - reflexivity.
  - rewrite IH. reflexivity.
Qed.

(** Without overflow the entry at position [k] of the running totals is
    the sum of the first [k + 1] values. *)
Lemma cumsum_from_nth (xs : list Z) :
  Forall (fun x => 0 <= x) xs ->
  forall acc k, 0 <= acc -> acc + total_of xs < 2 ^ 63 -> (k < length xs)%nat ->
    nth k (cumsum_from acc xs) 0 = acc + total_of (firstn (S k) xs).
Proof.
  induction 1 as [|x xs Hx Hxs IH]; intros acc k Hacc Hsum Hk; simpl in Hk.
  - lia.
  - pose proof (total_of_nonneg xs Hxs) as Ht. cbn [total_of fold_right] in Hsum.
    fold (total_of xs) in Hsum.
    assert (E : add64 acc x = acc + x) by (unfold add64; apply wrap64_id; lia).
    cbn [cumsum_from]. rewrite E. destruct k as [|k].
    + simpl. lia.
    + cbn [nth]. rewrite IH by lia.
      change (firstn (S (S k)) (x :: xs)) with (x :: firstn (S k) xs).
      cbn [total_of fold_right]. fold (total_of (firstn (S k) xs)). lia.
Qed.

Lemma cumsum_from_bounds (xs : list Z) :
  Forall (fun x => 0 <= x) xs ->
  forall acc, 0 <= acc -> acc + total_of xs < 2 ^ 63 ->
    StronglySorted Z.le (cumsum_from acc xs)
    /\ Forall (fun y => acc <= y <= acc + total_of xs) (cumsum_from acc xs).
Proof.
  induction 1 as [|x xs Hx Hxs IH]; intros acc Hacc Hsum; simpl.
  - split; constructor.
  - pose proof (total_of_nonneg xs Hxs) as Ht. cbn [total_of fold_right] in Hsum.
    fold (total_of xs) in Hsum. fold (total_of xs).
    assert (E : add64 acc x = acc + x) by (unfold add64; apply wrap64_id; lia).
    rewrite E. destruct (IH (acc + x)) as [Hs Hb]; [lia|lia|].
    split; constructor.
    + exact Hs.
    + eapply Forall_impl; [|exact Hb]. intros y [Hy _]. lia.
    + lia.
    + eapply Forall_impl; [|exact Hb]. intros y [Hy1 Hy2]. lia.
Qed.

Lemma map_snd_combine (labels : list string) (xs : list Z) :
  length labels = length xs -> map snd (combine labels xs) = xs.
Proof.
  revert xs.
  induction labels as [|l labels IH]; intros [|x xs] Hlen; simpl in *;
    try reflexivity; try discriminate.
  rewrite IH by lia. reflexivity.
Qed.

Lemma cumulative_curve_eq (rows : list (string * Z)) :
  cumulative_curve (Int64Series rows)
  = cumsum_from 0 (map snd (sort_values_ascending rows)).
Proof.
  unfold cumulative_curve, cumsum, rows_of. apply map_snd_combine.
  rewrite cumsum_from_length, !length_map. reflexivity.
Qed.

Lemma sort_values_ascending_perm (rows : list (string * Z)) :
  Permutation (map snd (sort_values_ascending rows)) (map snd rows).
Proof. apply Permutation_map, isort_perm. Qed.

Lemma sort_values_ascending_sorted (rows : list (string * Z)) :
  StronglySorted (holds Z.leb) (map snd (sort_values_ascending rows)).
Proof.
  unfold sort_values_ascending. apply StronglySorted_map.
  apply (isort_sorted (fun a b => (snd a <=? snd b))); intros.
  - apply Zleb_total.
  - eapply Zleb_trans; eassumption.
Qed.

(** Lines 272 and 340 -- on non-negative magnitudes whose sum stays below
    2 ^ 63 the plotted cumulative curve has one point per row, ends at the
    sum that [items1.sum()] returns, never decreases and stays between 0
    and that sum. *)
Theorem cumulative_curve_shape (rows : list (string * Z)) :
  without_overflow rows ->
  length (cumulative_curve (Int64Series rows)) = length rows
  /\ (rows <> [] ->
      sum (Int64Series rows)
      = np_int64 (nth (length rows - 1) (cumulative_curve (Int64Series rows)) 0))
  /\ StronglySorted Z.le (cumulative_curve (Int64Series rows))
  /\ Forall (fun y => 0 <= y <= total_of (map snd rows))
            (cumulative_curve (Int64Series rows)).
Proof.
  intros [Hnonneg Htotal]. rewrite cumulative_curve_eq.
  pose proof (sort_values_ascending_perm rows) as Hperm.
  assert (Hlen : length (map snd (sort_values_ascending rows)) = length rows).
  { rewrite (Permutation_length Hperm). apply length_map. }
  assert (Hv : Forall (fun x => 0 <= x) (map snd (sort_values_ascending rows))).
  { apply (Permutation_Forall (Permutation_sym Hperm)), Hnonneg. }
  pose proof (total_of_perm _ _ Hperm) as Htp.
  split; [|split].
  - rewrite cumsum_from_length. exact Hlen.
  - intros Hne.
    assert (Hpos : (0 < length rows)%nat) by (destruct rows; [congruence|simpl; lia]).
    rewrite cumsum_from_nth by (try exact Hv; lia).
    replace (S (length rows - 1)) with (length (map snd (sort_values_ascending rows)))
      by lia.
    rewrite firstn_all, Htp. unfold sum.
    rewrite sum64_exact by assumption. reflexivity.
  - destruct (cumsum_from_bounds _ Hv 0) as [Hs Hb]; [lia|lia|].
    split; [exact Hs|].
    eapply Forall_impl; [|exact Hb]. intros y [Hy1 Hy2]. lia.
Qed.

Lemma cumulative_curve_shape_witness :
  length (cumulative_curve (Int64Series scenario_series)) = length scenario_series
  /\ (scenario_series <> [] ->
      sum (Int64Series scenario_series)
      = np_int64 (nth (length scenario_series - 1)
                      (cumulative_curve (Int64Series scenario_series)) 0))
  /\ StronglySorted Z.le (cumulative_curve (Int64Series scenario_series))
  /\ Forall (fun y => 0 <= y <= total_of (map snd scenario_series))
            (cumulative_curve (Int64Series scenario_series)).
Proof.
  apply (cumulative_curve_shape scenario_series).
  split; [repeat constructor; vm_compute; discriminate|vm_compute; reflexivity].
Defined.

Lemma total_of_upper (l : list Z) (m : Z) :
  Forall (fun x => x <= m) l -> total_of l <= Z.of_nat (length l) * m.
Proof.
  induction 1 as [|x l Hx Hl IH]; cbn [total_of fold_right length].
  - lia.
  - fold (total_of l). lia.
Qed.

Lemma total_of_lower (l : list Z) (m : Z) :
  Forall (fun x => m <= x) l -> Z.of_nat (length l) * m <= total_of l.
Proof.
  induction 1 as [|x l Hx Hl IH]; cbn [total_of fold_right length].
  - lia.
  - fold (total_of l). lia.
Qed.

Lemma sorted_split (xs : list Z) (k : nat) :
  StronglySorted (holds Z.leb) xs -> (k < length xs)%nat ->
  Forall (fun x => x <= nth k xs 0) (firstn (S k) xs)
  /\ Forall (fun x => nth k xs 0 <= x) (skipn (S k) xs).
Proof.
  intros Hs Hk. split; apply Forall_forall; intros x Hx.
  - destruct (In_nth _ _ 0 Hx) as [i [Hi E]].
    rewrite length_firstn in Hi. rewrite nth_firstn in E.
    destruct (Nat.ltb_spec i (S k)); [|lia].
    rewrite <- E. apply sorted_nth_Z; [exact Hs|lia].
  - destruct (In_nth _ _ 0 Hx) as [i [Hi E]].
    rewrite length_skipn in Hi. rewrite nth_skipn in E.
    rewrite <- E. apply sorted_nth_Z; [exact Hs|lia].
Qed.

Lemma ascending_partial_sum (xs : list Z) (k : nat) :
  StronglySorted (holds Z.leb) xs -> (k < length xs)%nat ->
  Z.of_nat (length xs) * total_of (firstn (S k) xs)
  <= Z.of_nat (S k) * total_of xs.
Proof.
  intros Hs Hk. destruct (sorted_split xs k Hs Hk) as [Hlow Hhigh].
  apply total_of_upper in Hlow. apply total_of_lower in Hhigh.
  rewrite length_firstn in Hlow. rewrite length_skipn in Hhigh.
  replace (Nat.min (S k) (length xs)) with (S k) in Hlow by lia.
  set (m := nth k xs 0) in *.
  set (A := total_of (firstn (S k) xs)) in *.
  set (B := total_of (skipn (S k) xs)) in *.
  assert (Hsum : total_of xs = A + B).
  { unfold A, B. rewrite <- total_of_app, firstn_skipn. reflexivity. }
  assert (Hn : Z.of_nat (length xs) = Z.of_nat (S k) + Z.of_nat (length xs - S k)) by lia.
  rewrite Hn, Hsum. nia.
Qed.

(** Lines 272 and 340 -- under the same conditions the cumulative curve of
    the ascending series lies on or below the straight line from the
    origin to the total: after the [k + 1] smallest of the [n] rows it has
    reached at most the fraction [(k + 1) / n] of the total. *)
Theorem cumulative_curve_below_diagonal (rows : list (string * Z)) (k : nat) :
  without_overflow rows ->
  (k < length rows)%nat ->
  Z.of_nat (length rows) * nth k (cumulative_curve (Int64Series rows)) 0
  <= Z.of_nat (S k) * total_of (map snd rows).
Proof.
  intros [Hnonneg Htotal] Hk. rewrite cumulative_curve_eq.
  pose proof (sort_values_ascending_perm rows) as Hperm.
  assert (Hlen : length (map snd (sort_values_ascending rows)) = length rows).
  { rewrite (Permutation_length Hperm). apply length_map. }
  assert (Hv : Forall (fun x => 0 <= x) (map snd (sort_values_ascending rows))).
  { apply (Permutation_Forall (Permutation_sym Hperm)), Hnonneg. }
  pose proof (total_of_perm _ _ Hperm) as Htp.
  rewrite cumsum_from_nth by (try exact Hv; lia).
  rewrite <- Htp, <- Hlen. rewrite Z.add_0_l.
  apply ascending_partial_sum; [apply sort_values_ascending_sorted|lia].
Qed.

Lemma cumulative_curve_below_diagonal_witness :
  Z.of_nat (length scenario_series)
  * nth 1 (cumulative_curve (Int64Series scenario_series)) 0
  <= Z.of_nat 2 * total_of (map snd scenario_series).
Proof.
  apply (cumulative_curve_below_diagonal scenario_series 1).
  - split; [repeat constructor; vm_compute; discriminate|vm_compute; reflexivity].
  - simpl. lia.
Defined.

(** The curve of the scenario, 10, 40, 100; and a curve that wraps
    around. *)
Example cumulative_curve_scenario :
  cumulative_curve (Int64Series scenario_series) = [10; 40; 100]
  /\ cumulative_curve (Int64Series [("a", 2 ^ 62); ("b", 2 ^ 62)])
     = [2 ^ 62; - 2 ^ 63].
Proof. split; vm_compute; reflexivity. Qed.

End CurveFacts.
